(** * bibnumber: stroke-width text detection (textdetection.cpp)

    A shallow embedding of the detection pipeline of
    [src/bibnumber/textdetection.cpp] and the properties its
    specification states about it, followed by further properties of
    the same functions, of the pictures the file renders, and of the
    row reader and the evaluation of [src/bibnumber/batch.cpp].

    Conventions of the embedding.
    - A C [int] is a [Z]; the coordinates and counts of one image stay far
      from the limits of the type, signed overflow is outside the model.
    - A C [float] whose value is finite by construction (a stroke width, a
      centre, a ratio of two positive numbers) is the rational it denotes,
      a [Q]; the rounding of the arithmetic is not modelled.  The one place
      where rounding decides the control flow, the angle loop of the
      rotated bounding box, is modelled bit-exactly on IEEE-754
      binary32/binary64 ([SpecFloat]).
    - A float that can be non-finite (the direction of a chain, a quotient
      by a magnitude that may be 0) is an [option]: [None] is a NaN or an
      infinity.
    - [sqrt], [acos], [atan2], [cos], [sin], the OpenCV transforms and the
      OCR engine are collaborators of the program; they are section
      variables.
    - [std::vector] is a [list]; indexing is [!!!] (the C++ has no bounds
      check: an index out of range is outside the model). *)

From Stdlib Require Import ZArith QArith Qminmax Qround Qabs Lia Lqa Bool.
From Stdlib Require Import List Ascii String Permutation Sorted.
From Stdlib Require Import Floats.SpecFloat.
From stdpp Require Import base tactics option list sorting gmap.

Unset Default Proof Using.
Open Scope Z_scope.

(** ** Numbers *)

Module Num.

(** [#define PI 3.14159265] *)
Definition PI : Q := 314159265 # 100000000.

Definition COM_MAX_MEDIAN_RATIO : Q := 3.
Definition COM_MAX_DIM_RATIO : Q := 2.
Definition COM_MAX_DIST_RATIO : Q := 16 # 10.
Definition COM_MAX_ASPECT_RATIO : Q := 2.

(** [a < b] on floats. *)
Definition Qltb (a b : Q) : bool := negb (Qle_bool b a).

(** [static inline int square(int x)] *)
Definition square (x : Z) : Z := x * x.

(** [static int inline ratio_within(float ratio, float max_ratio)] *)
Definition ratio_within (ratio max_ratio : Q) : bool :=
  Qltb ratio max_ratio && Qltb (1 / max_ratio) ratio.

(** [static double absd(double x)] *)
Definition absd (x : Q) : Q := if Qltb 0 x then x else (- x)%Q.

(** The conversion of a float to [int]: truncation toward zero. *)
Definition Qtruncate (x : Q) : Z := Z.quot (Qnum x) (Zpos (Qden x)).

(** [std::min(a, b)] is [(b < a) ? b : a]; [std::max(a, b)] is
    [(a < b) ? b : a]. *)
Definition fmin (a b : Q) : Q := if Qltb b a then b else a.
Definition fmax (a b : Q) : Q := if Qltb a b then b else a.

Lemma Qltb_lt a b : Qltb a b = true <-> (a < b)%Q.
Proof.
  unfold Qltb. rewrite negb_true_iff, <- not_true_iff_false, Qle_bool_iff.
  split; [apply Qnot_le_lt | apply Qlt_not_le].
Qed.

Lemma Qltb_ge a b : Qltb a b = false <-> (b <= a)%Q.
Proof.
  unfold Qltb. rewrite negb_false_iff. apply Qle_bool_iff.
Qed.

Lemma fmin_le_l a b : (fmin a b <= a)%Q.
Proof.
  unfold fmin. destruct (Qltb b a) eqn:E.
  - apply Qltb_lt in E. lra.
  - lra.
Qed.

Lemma fmin_le_r a b : (fmin a b <= b)%Q.
Proof.
  unfold fmin. destruct (Qltb b a) eqn:E.
  - lra.
  - apply Qltb_ge in E. lra.
Qed.

Lemma fmin_glb a b c : (c <= a)%Q -> (c <= b)%Q -> (c <= fmin a b)%Q.
Proof. unfold fmin. destruct (Qltb b a); auto. Qed.

End Num.
Import Num.

(** ** Strings and the acceptance of the OCR answer *)

Module Text.

(** A [std::string] (and the C string the OCR engine returns, without its
    terminator) is the list of its characters. *)
Definition cstring := list ascii.

(** [std::isdigit] in the "C" locale. *)
Definition isdigit (c : ascii) : bool :=
  let n := nat_of_ascii c in (48 <=? n)%nat && (n <=? 57)%nat.

(** [std::isspace] in the "C" locale, the classifier of
    [boost::algorithm::trim]: space, \t, \n, \v, \f, \r. *)
Definition isspace (c : ascii) : bool :=
  let n := nat_of_ascii c in (n =? 32)%nat || ((9 <=? n)%nat && (n <=? 13)%nat).

(** The loop of [is_number]: the iterator [it] advances while it points
    at a digit; the result is the suffix that starts at [it]. *)
Fixpoint skip_digits (s : cstring) : cstring :=
  match s with
  | c :: rest => if isdigit c then skip_digits rest else s
  | [] => []
  end.

Definition empty (s : cstring) : bool :=
  match s with [] => true | _ => false end.

(** [static bool is_number(const std::string& s)]:
    [return !s.empty() && it == s.end();] *)
Definition is_number (s : cstring) : bool :=
  negb (empty s) && empty (skip_digits s).

Fixpoint trim_left (s : cstring) : cstring :=
  match s with
  | c :: rest => if isspace c then trim_left rest else s
  | [] => []
  end.

Definition trim_right (s : cstring) : cstring := rev (trim_left (rev s)).

(** [boost::algorithm::trim]: trim the right end, then the left end. *)
Definition trim (s : cstring) : cstring := trim_left (trim_right s).

(** The [do { ... } while (0)] block of [renderChainsWithBoxes] that
    follows [tess.GetUTF8Text()]: [out] is the answer of the engine,
    [ncomponents] is [chains[i].components.size()]. *)
Definition ocr_accept (text : list cstring) (out : cstring)
    (ncomponents : nat) : list cstring :=
  if (length out =? 0)%nat then text
  else
    let s_out := trim out in
    if negb (length s_out =? ncomponents)%nat then text
    else if negb (is_number s_out) then text
    else text ++ [s_out].

(** The acceptance rule in the words of the specification: non-empty
    after trimming, as long as the chain has components, digits only. *)
Definition accepted_by_spec (out : cstring) (ncomponents : nat) : bool :=
  negb (empty (trim out))
  && (length (trim out) =? ncomponents)%nat
  && forallb isdigit (trim out).


(** *** Properties of the acceptance block *)

Lemma skip_digits_empty (s : cstring) :
  empty (skip_digits s) = forallb isdigit s.
Proof.
  induction s as [|c s IH]; simpl; [reflexivity|].
  destruct (isdigit c); simpl; [exact IH | reflexivity].
Qed.

Lemma is_number_spec (s : cstring) :
  is_number s = true <-> s <> [] /\ Forall (fun c => isdigit c = true) s.
Proof.
  unfold is_number. rewrite skip_digits_empty, andb_true_iff, forallb_forall.
  rewrite List.Forall_forall. destruct s; simpl; intuition congruence.
Qed.

Lemma trim_nil : trim [] = [].
Proof. reflexivity. Qed.

(** The condition under which the specification accepts the answer [out]
    for a chain of [ncomponents] components. *)
Definition accepted (out : cstring) (ncomponents : nat) : Prop :=
  trim out <> []
  /\ length (trim out) = ncomponents
  /\ Forall (fun c => isdigit c = true) (trim out).

Lemma accepted_by_spec_iff out n :
  accepted_by_spec out n = true <-> accepted out n.
Proof.
  unfold accepted_by_spec, accepted.
  rewrite !andb_true_iff, Nat.eqb_eq, forallb_forall, List.Forall_forall.
  destruct (trim out); simpl; intuition congruence.
Qed.

(** The block appends the trimmed answer exactly when the specification
    accepts it, and leaves the list as it was otherwise. *)
Lemma ocr_accept_cases (text : list cstring) (out : cstring) (n : nat) :
  (accepted out n -> ocr_accept text out n = text ++ [trim out])
  /\ (~ accepted out n -> ocr_accept text out n = text)
  /\ (ocr_accept text out n = text ++ [trim out] <-> accepted out n).
Proof.
  assert (Hyes : accepted out n -> ocr_accept text out n = text ++ [trim out]).
  { intros (Hne & Hlen & Hdig). unfold ocr_accept.
    destruct out as [|c out']; [now elim Hne|].
    cbn [length Nat.eqb]. cbv zeta.
    apply Nat.eqb_eq in Hlen. rewrite Hlen. cbn [negb].
    assert (Hnum : is_number (trim (c :: out')) = true)
      by (apply is_number_spec; split; assumption).
    rewrite Hnum. reflexivity. }
  assert (Hno : ~ accepted out n -> ocr_accept text out n = text).
  { intros Hn. unfold ocr_accept.
    destruct (length out =? 0)%nat; [reflexivity|]. cbv zeta.
    destruct (length (trim out) =? n)%nat eqn:Hlen; [|reflexivity].
    cbn [negb]. destruct (is_number (trim out)) eqn:Hnum; [|reflexivity].
    exfalso. apply Hn. apply is_number_spec in Hnum as [Hne Hdig].
    apply Nat.eqb_eq in Hlen. repeat split; assumption. }
  split; [exact Hyes | split; [exact Hno | split; [| exact Hyes]]].
  intros Heq. destruct (accepted_by_spec out n) eqn:E.
  - now apply accepted_by_spec_iff.
  - assert (Hn : ~ accepted out n).
    { intros H. apply accepted_by_spec_iff in H. congruence. }
    rewrite (Hno Hn) in Heq.
    apply (f_equal (@length cstring)) in Heq.
    rewrite length_app in Heq. simpl in Heq. lia.
Qed.

Lemma ocr_accept_bool (text : list cstring) (out : cstring) (n : nat) :
  ocr_accept text out n
  = if accepted_by_spec out n then text ++ [trim out] else text.
Proof.
  destruct (ocr_accept_cases text out n) as (Hyes & Hno & _).
  destruct (accepted_by_spec out n) eqn:E.
  - apply Hyes, accepted_by_spec_iff, E.
  - apply Hno. intros H. apply accepted_by_spec_iff in H. congruence.
Qed.

Example ocr_accept_123 :
  ocr_accept [] (list_ascii_of_string " 123
") 3 = [list_ascii_of_string "123"].
Proof. reflexivity. Qed.

Example ocr_accept_wrong_length :
  ocr_accept [] (list_ascii_of_string "1234") 3 = [].
Proof. reflexivity. Qed.

Example ocr_accept_not_digits :
  ocr_accept [] (list_ascii_of_string "12a") 3 = [].
Proof. reflexivity. Qed.

End Text.
Import Text.

(** ** Sorting

    [std::stable_sort(first, last, comp)] as a stable insertion sort: an
    element is placed before the first element that does not precede it.
    [std::sort] leaves the order of equivalent elements open; the embedding
    takes the stable order for it as well. *)

Module Sort.

Fixpoint insert {A} (comp : A -> A -> bool) (x : A) (l : list A) : list A :=
  match l with
  | [] => [x]
  | y :: l' => if comp y x then y :: insert comp x l' else x :: y :: l'
  end.

Definition sort {A} (comp : A -> A -> bool) (l : list A) : list A :=
  foldr (insert comp) [] l.

(** [v.erase(std::unique(v.begin(), v.end()), v.end())]: of each run of
    equal neighbours the first is kept. *)
Fixpoint unique (l : list nat) : list nat :=
  match l with
  | [] => []
  | a :: l' =>
      match l' with
      | [] => [a]
      | b :: _ => if (a =? b)%nat then unique l' else a :: unique l'
      end
  end.

Lemma insert_perm {A} (comp : A -> A -> bool) x l :
  insert comp x l ≡ₚ x :: l.
Proof.
  induction l as [|y l IH]; simpl; [reflexivity|].
  destruct (comp y x); [|reflexivity].
  rewrite IH. apply Permutation_swap.
Qed.

Lemma sort_perm {A} (comp : A -> A -> bool) l : sort comp l ≡ₚ l.
Proof.
  induction l as [|x l IH]; simpl; [reflexivity|].
  rewrite insert_perm. now rewrite IH.
Qed.

Lemma sort_length {A} (comp : A -> A -> bool) l :
  length (sort comp l) = length l.
Proof. apply Permutation_length, sort_perm. Qed.

Lemma sort_elem_of {A} (comp : A -> A -> bool) l x :
  x ∈ sort comp l <-> x ∈ l.
Proof. now rewrite sort_perm. Qed.

End Sort.

(** ** The data model ([textdetection.h], read off its uses) *)

(** [struct Point2d { int x; int y; float SWT; }].  [SWT] is written by the
    median filter only; where the program leaves it indeterminate the
    embedding stores 0. *)
Module Point2d.
Record t := mk { x : Z; y : Z; SWT : Q }.
End Point2d.

(** [struct Point2dFloat { float x; float y; }] *)
Module Point2dFloat.
Record t := mk { x : Q; y : Q }.
End Point2dFloat.

(** [CvPoint] and [cv::Point]: integer coordinates. *)
Module CvPoint.
Record t := mk { x : Z; y : Z }.
End CvPoint.

(** [cv::Rect] *)
Module Rect.
Record t := mk { x : Z; y : Z; width : Z; height : Z }.
End Rect.

(** [struct Ray { Point2d p; Point2d q; std::vector<Point2d> points; }] *)
Module Ray.
Record t := mk { p : Point2d.t; q : Point2d.t; points : list Point2d.t }.
End Ray.

(** [struct Chain].  [p] and [q] are indices of components.  [direction]
    is the quotient of a difference of centres by its magnitude: [None]
    when the magnitude is 0, which makes both coordinates non-finite. *)
Module Chain.
Record t := mk {
  p : nat;
  q : nat;
  dist : Q;
  direction : option Point2dFloat.t;
  components : list nat;
  merged : bool
}.
End Chain.

(** [struct TextDetectionParams] *)
Module Params.
Record t := mk {
  darkOnLight : bool;
  maxStrokeLength : Q;
  minCharacterheight : Z;
  maxAngle : Q;
  topBorder : Z;
  bottomBorder : Z;
  maxImgWidthToTextRatio : Q
}.
End Params.

(** An [IplImage] of one channel: its size and the element at a row and a
    column ([CV_IMAGE_ELEM(img, T, row, col)]).  The elements outside
    [0 <= row < height], [0 <= col < width] are never read by the program. *)
Module IplImage.
Record t (A : Type) := mk { width : Z; height : Z; elem : Z -> Z -> A }.
Arguments mk {A}.
Arguments width {A}.
Arguments height {A}.
Arguments elem {A}.
End IplImage.

Definition CV_IMAGE_ELEM {A} (img : IplImage.t A) (row col : Z) : A :=
  IplImage.elem img row col.

(** [CV_IMAGE_ELEM(img, T, row, col) = v] *)
Definition set_elem {A} (img : IplImage.t A) (row col : Z) (v : A)
    : IplImage.t A :=
  IplImage.mk (IplImage.width img) (IplImage.height img)
    (fun r c => if Z.eq_dec r row then
                  if Z.eq_dec c col then v else IplImage.elem img r c
                else IplImage.elem img r c).

#[export] Instance Point2d_inhabited : Inhabited Point2d.t :=
  populate (Point2d.mk 0 0 0).
#[export] Instance Point2dFloat_inhabited : Inhabited Point2dFloat.t :=
  populate (Point2dFloat.mk 0 0).
#[export] Instance Q_inhabited : Inhabited Q := populate 0%Q.

(** A bounding box: [std::pair<Point2d, Point2d>], the corner of the
    smallest and the corner of the largest coordinates. *)
Definition BBox : Type := Point2d.t * Point2d.t.

(** The vector of the rows (or columns) [0 .. n-1] of an image. *)
Definition range (n : Z) : list Z := seqZ 0 n.

(** Two nested loops run over the pairs in row-major order. *)
Lemma fold_rows_cols {S A B} (f : A -> B -> S -> S) (rows : list A)
    (cols : list B) (st : S) :
  fold_left (fun st row => fold_left (fun st col => f row col st) cols st) rows st
  = fold_left (fun st rc => f (fst rc) (snd rc) st)
      (flat_map (fun row => map (pair row) cols) rows) st.
Proof.
  revert st. induction rows as [|row rows IH]; intros st; [reflexivity|].
  cbn [fold_left flat_map]. rewrite fold_left_app, <- IH. f_equal.
  generalize st. clear. induction cols as [|col cols IH]; intros st;
    [reflexivity|]. cbn [fold_left map fst snd]. apply IH.
Qed.

(** ** Geometric acceptance and the hand-off to the OCR engine
    ([renderChainsWithBoxes]) *)

Section Render.

(** The collaborators: [atan2] of the C library; the rotation of the corner
    points by [cv::getRotationMatrix2D] and [cv::transform] (centre, angle in
    degrees, points); the text Tesseract answers for the patch of the chain
    of a given index. *)
Variable atan2 : Q -> Q -> Q.
Variable rotate : CvPoint.t -> option Q -> list CvPoint.t -> list CvPoint.t.
Variable GetUTF8Text : nat -> cstring.

Variable params : Params.t.
Variable compBB : list BBox.
(** The size of [output]. *)
Variables width height : Z.

(** [findBoundingBoxes(chains, compBB, output)], for one chain. *)
Definition findBoundingBox (chain : Chain.t) : CvPoint.t * CvPoint.t :=
  let '(minx, miny, maxx, maxy) :=
    fold_left
      (fun '(minx, miny, maxx, maxy) cit =>
         let miny := Z.min miny (Point2d.y (fst (compBB !!! cit))) in
         let minx := Z.min minx (Point2d.x (fst (compBB !!! cit))) in
         let maxy := Z.max maxy (Point2d.y (snd (compBB !!! cit))) in
         let maxx := Z.max maxx (Point2d.x (snd (compBB !!! cit))) in
         (minx, miny, maxx, maxy))
      (Chain.components chain) (width, height, 0, 0) in
  (CvPoint.mk minx miny, CvPoint.mk maxx maxy).

(** [cv::Rect(pt1, pt2)] *)
Definition Rect_of_points (pt1 pt2 : CvPoint.t) : Rect.t :=
  let x := Z.min (CvPoint.x pt1) (CvPoint.x pt2) in
  let y := Z.min (CvPoint.y pt1) (CvPoint.y pt2) in
  Rect.mk x y (Z.max (CvPoint.x pt1) (CvPoint.x pt2) - x)
              (Z.max (CvPoint.y pt1) (CvPoint.y pt2) - y).

(** [static cv::Rect getBoundingBox(std::vector<cv::Point> vec, cv::Size clip)] *)
Definition getBoundingBox (vec : list CvPoint.t) (clip_width clip_height : Z)
    : Rect.t :=
  let '(minx, miny, maxx, maxy) :=
    fold_left
      (fun '(minx, miny, maxx, maxy) it =>
         let minx := if CvPoint.x it <? minx then Z.max (CvPoint.x it) 0 else minx in
         let miny := if CvPoint.y it <? miny then Z.max (CvPoint.y it) 0 else miny in
         let maxx := if maxx <? CvPoint.x it
                     then Z.min (CvPoint.x it) (clip_width - 1) else maxx in
         let maxy := if maxy <? CvPoint.y it
                     then Z.min (CvPoint.y it) (clip_height - 1) else maxy in
         (minx, miny, maxx, maxy))
      vec (clip_width - 1, clip_height - 1, 0, 0) in
  Rect_of_points (CvPoint.mk minx miny) (CvPoint.mk maxx maxy).

(** The height of the bounding box of a component, as the loop over
    [chains[i].components] reads it: [compBB[c].second.y - compBB[c].first.y]. *)
Definition component_height (c : nat) : Z :=
  Point2d.y (snd (compBB !!! c)) - Point2d.y (fst (compBB !!! c)).

(** [minHeight] after the loop over the components of the chain. *)
Definition minHeight (bb : CvPoint.t * CvPoint.t) (chain : Chain.t) : Z :=
  fold_left (fun minHeight c => Z.min minHeight (component_height c))
    (Chain.components chain) (CvPoint.y (snd bb) - CvPoint.y (fst bb)).

(** [if (chains[i].direction.x < 0) { negate both coordinates }] *)
Definition upper_direction (d : option Point2dFloat.t) : option Point2dFloat.t :=
  match d with
  | Some d =>
      if Qltb (Point2dFloat.x d) 0
      then Some (Point2dFloat.mk (- Point2dFloat.x d) (- Point2dFloat.y d))
      else Some d
  | None => None
  end.

(** [theta_deg = 180*atan2(direction.y, direction.x)/PI]: a NaN for a
    direction that is not finite. *)
Definition theta_deg (d : option Point2dFloat.t) : option Q :=
  match d with
  | Some d => Some (180 * atan2 (Point2dFloat.y d) (Point2dFloat.x d) / PI)%Q
  | None => None
  end.

(** [absd(theta_deg) > params.maxAngle]; false on a NaN. *)
Definition exceeds_maxAngle (theta : option Q) : bool :=
  match theta with
  | Some t => Qltb (Params.maxAngle params) (absd t)
  | None => false
  end.

(** The four corners pushed to [compCoords] for each component. *)
Definition corners (c : nat) : list CvPoint.t :=
  let bb := compBB !!! c in
  [ CvPoint.mk (Point2d.x (fst bb)) (Point2d.y (fst bb));
    CvPoint.mk (Point2d.x (snd bb)) (Point2d.y (snd bb));
    CvPoint.mk (Point2d.x (fst bb)) (Point2d.y (snd bb));
    CvPoint.mk (Point2d.x (snd bb)) (Point2d.y (fst bb)) ].

(** One turn of the loop [for (i = 0; i < bb.size(); i++)]: the text list
    after the chain of index [i].  Every [continue] leaves the list as it
    is.  The images written on the way are not part of the model. *)
Definition render_chain (i : nat) (chain : Chain.t) (text : list cstring)
    : list cstring :=
  let bb := findBoundingBox chain in
  let center :=
    CvPoint.mk (CvPoint.x (fst bb) + CvPoint.x (snd bb) ÷ 2)
               (CvPoint.y (fst bb) + CvPoint.y (snd bb) ÷ 2) in
  if Qltb (inject_Z (CvPoint.x (snd bb) - CvPoint.x (fst bb)))
          (inject_Z width / Params.maxImgWidthToTextRatio params)
  then text
  else if minHeight bb chain <? Params.minCharacterheight params
  then text
  else
    let theta := theta_deg (upper_direction (Chain.direction chain)) in
    if exceeds_maxAngle theta then text
    else
      let compCoords := flat_map corners (Chain.components chain) in
      let compCoords := rotate center theta compCoords in
      let roi := getBoundingBox compCoords width height in
      if (Rect.width roi =? 0) || (Rect.height roi =? 0) then text
      else ocr_accept text (GetUTF8Text i) (length (Chain.components chain)).

(** The loop over the chains, from the chain of index [i] on. *)
Fixpoint render_loop (i : nat) (chains : list Chain.t) (text : list cstring)
    : list cstring :=
  match chains with
  | [] => text
  | chain :: rest => render_loop (S i) rest (render_chain i chain text)
  end.

(** [renderChainsWithBoxes]: the strings pushed to [text]. *)
Definition renderChainsWithBoxes (chains : list Chain.t) (text : list cstring)
    : list cstring :=
  render_loop 0 chains text.

(** The minimum of the heights of the components of a chain ([None] for a
    chain without components). *)
Definition min_component_height (chain : Chain.t) : option Z :=
  match Chain.components chain with
  | [] => None
  | c :: cs =>
      Some (fold_left Z.min (map component_height cs) (component_height c))
  end.

Lemma fold_min_le_init (f : nat -> Z) (cs : list nat) (m : Z) :
  fold_left (fun acc c => Z.min acc (f c)) cs m <= m.
Proof.
  revert m. induction cs as [|c cs IH]; intros m; simpl; [lia|].
  specialize (IH (Z.min m (f c))). lia.
Qed.

Lemma fold_min_mono (f : nat -> Z) (cs : list nat) (m m' : Z) :
  m <= m' ->
  fold_left (fun acc c => Z.min acc (f c)) cs m
  <= fold_left (fun acc c => Z.min acc (f c)) cs m'.
Proof.
  revert m m'. induction cs as [|c cs IH]; intros m m' H; simpl; [lia|].
  apply IH. lia.
Qed.

Lemma fold_min_map (f : nat -> Z) (cs : list nat) (m : Z) :
  fold_left Z.min (map f cs) m = fold_left (fun acc c => Z.min acc (f c)) cs m.
Proof.
  revert m. induction cs as [|c cs IH]; intros m; simpl; [reflexivity|].
  apply IH.
Qed.

Lemma minHeight_le_min_component_height bb chain h :
  min_component_height chain = Some h -> minHeight bb chain <= h.
Proof.
  unfold min_component_height, minHeight.
  destruct (Chain.components chain) as [|c cs]; [discriminate|].
  intros [= <-]. rewrite fold_min_map. simpl.
  apply fold_min_mono. lia.
Qed.

(** C7. A chain is rejected, and so contributes no text, whenever the
    smallest height among its components is below
    [params.minCharacterheight]. *)
Theorem low_component_rejects_chain (i : nat) (chain : Chain.t)
    (text : list cstring) (h : Z) :
  min_component_height chain = Some h ->
  h < Params.minCharacterheight params ->
  render_chain i chain text = text.
Proof.
  intros Hmin Hlow. unfold render_chain. cbv zeta.
  destruct (Qltb _ _); [reflexivity|].
  pose proof (minHeight_le_min_component_height (findBoundingBox chain) chain h Hmin).
  destruct (Z.ltb_spec (minHeight (findBoundingBox chain) chain)
              (Params.minCharacterheight params)); [reflexivity | lia].
Qed.

(** Whether the body of the loop hands the chain to the OCR engine: none
    of the four [continue]s in front of [tess.SetImage] is taken. *)
Definition reaches_ocr (chain : Chain.t) : bool :=
  let bb := findBoundingBox chain in
  let center :=
    CvPoint.mk (CvPoint.x (fst bb) + CvPoint.x (snd bb) ÷ 2)
               (CvPoint.y (fst bb) + CvPoint.y (snd bb) ÷ 2) in
  let theta := theta_deg (upper_direction (Chain.direction chain)) in
  let roi :=
    getBoundingBox
      (rotate center theta (flat_map corners (Chain.components chain)))
      width height in
  negb (Qltb (inject_Z (CvPoint.x (snd bb) - CvPoint.x (fst bb)))
             (inject_Z width / Params.maxImgWidthToTextRatio params))
  && negb (minHeight bb chain <? Params.minCharacterheight params)
  && negb (exceeds_maxAngle theta)
  && negb ((Rect.width roi =? 0) || (Rect.height roi =? 0)).

(** The text the specification lets the chain of index [i] contribute: the
    trimmed answer of the engine, if the chain reaches the engine and the
    answer is accepted for the number of its components. *)
Definition chain_text (i : nat) (chain : Chain.t) : option cstring :=
  if reaches_ocr chain
     && accepted_by_spec (GetUTF8Text i) (length (Chain.components chain))
  then Some (trim (GetUTF8Text i))
  else None.

Lemma render_chain_reaches_ocr (i : nat) (chain : Chain.t) (text : list cstring) :
  render_chain i chain text
  = if reaches_ocr chain
    then ocr_accept text (GetUTF8Text i) (length (Chain.components chain))
    else text.
Proof.
  unfold render_chain, reaches_ocr. cbv zeta.
  repeat match goal with
         | |- context [if ?b then text else _] =>
             destruct b; cbn [negb andb]; [reflexivity|]
         end.
  reflexivity.
Qed.

Lemma render_chain_text (i : nat) (chain : Chain.t) (text : list cstring) :
  render_chain i chain text = text ++ option_list (chain_text i chain).
Proof.
  rewrite render_chain_reaches_ocr. unfold chain_text.
  destruct (reaches_ocr chain); cbn [andb option_list];
    [|now rewrite app_nil_r].
  rewrite ocr_accept_bool.
  destruct (accepted_by_spec _ _); cbn [option_list];
    [reflexivity | now rewrite app_nil_r].
Qed.

Lemma render_loop_text (i : nat) (chains : list Chain.t) (text : list cstring) :
  render_loop i chains text
  = text ++ omap id (imap (fun k chain => chain_text (i + k) chain) chains).
Proof.
  revert i text. induction chains as [|chain chains IH]; intros i text.
  - cbn. now rewrite app_nil_r.
  - cbn [render_loop]. rewrite IH, render_chain_text, imap_cons.
    rewrite Nat.add_0_r, <- app_assoc. f_equal.
    assert (Himap : imap ((fun k chain0 => chain_text (i + k) chain0) ∘ S) chains
                    = imap (fun k chain0 => chain_text (S i + k) chain0) chains).
    { apply imap_ext. intros k c _. cbn. f_equal. lia. }
    rewrite Himap.
    destruct (chain_text i chain); reflexivity.
Qed.

(** C2. The strings pushed by [renderChainsWithBoxes] are, chain by chain
    and in order, the texts of the chains; a chain that reaches the OCR
    engine has the (trimmed) answer of the engine appended exactly when
    the answer is non-empty after trimming, as long as the chain has
    components, and made of decimal digits only, and contributes nothing
    otherwise; so every string pushed is non-empty, all digits, and as
    long as its chain has components. *)
Theorem ocr_answer_accepted_iff_spec (chains : list Chain.t)
    (text : list cstring) :
  renderChainsWithBoxes chains text
  = text ++ omap id (imap chain_text chains)
  /\ (forall i chain text',
        reaches_ocr chain = true ->
        let out := GetUTF8Text i in
        let n := length (Chain.components chain) in
        (accepted out n -> render_chain i chain text' = text' ++ [trim out])
        /\ (~ accepted out n -> render_chain i chain text' = text')
        /\ (render_chain i chain text' = text' ++ [trim out]
            <-> accepted out n))
  /\ (forall i chain s,
        chain_text i chain = Some s ->
        s <> []
        /\ length s = length (Chain.components chain)
        /\ Forall (fun c => isdigit c = true) s).
Proof.
  split; [apply (render_loop_text 0)|]. split.
  - intros i chain text' Hreach. cbv zeta.
    rewrite render_chain_reaches_ocr, Hreach.
    apply ocr_accept_cases.
  - intros i chain s. unfold chain_text.
    destruct (reaches_ocr chain); cbn [andb]; [|discriminate].
    destruct (accepted_by_spec _ _) eqn:E; [|discriminate].
    intros [= <-]. apply accepted_by_spec_iff in E. exact E.
Qed.

(** *** The boxes of the chains and the clipped box of the rotated corners *)

Lemma findBoundingBox_fold (cs : list nat) (minx miny maxx maxy : Z) :
  let '(minx', miny', maxx', maxy') :=
    fold_left
      (fun '(minx, miny, maxx, maxy) cit =>
         let miny := Z.min miny (Point2d.y (fst (compBB !!! cit))) in
         let minx := Z.min minx (Point2d.x (fst (compBB !!! cit))) in
         let maxy := Z.max maxy (Point2d.y (snd (compBB !!! cit))) in
         let maxx := Z.max maxx (Point2d.x (snd (compBB !!! cit))) in
         (minx, miny, maxx, maxy))
      cs (minx, miny, maxx, maxy) in
  (minx' <= minx /\ miny' <= miny /\ maxx <= maxx' /\ maxy <= maxy')
  /\ (forall cit, cit ∈ cs ->
        minx' <= Point2d.x (fst (compBB !!! cit))
        /\ miny' <= Point2d.y (fst (compBB !!! cit))
        /\ Point2d.x (snd (compBB !!! cit)) <= maxx'
        /\ Point2d.y (snd (compBB !!! cit)) <= maxy')
  /\ (minx' = minx
      \/ exists cit, cit ∈ cs /\ minx' = Point2d.x (fst (compBB !!! cit)))
  /\ (miny' = miny
      \/ exists cit, cit ∈ cs /\ miny' = Point2d.y (fst (compBB !!! cit)))
  /\ (maxx' = maxx
      \/ exists cit, cit ∈ cs /\ maxx' = Point2d.x (snd (compBB !!! cit)))
  /\ (maxy' = maxy
      \/ exists cit, cit ∈ cs /\ maxy' = Point2d.y (snd (compBB !!! cit))).
Proof.
  revert minx miny maxx maxy.
  induction cs as [|c cs IH]; intros minx miny maxx maxy.
  - cbn [fold_left]. split; [lia|].
    split; [intros c0 Hin; inversion Hin|]. repeat split; now left.
  - cbn [fold_left]. cbv zeta.
    specialize (IH (Z.min minx (Point2d.x (fst (compBB !!! c))))
                   (Z.min miny (Point2d.y (fst (compBB !!! c))))
                   (Z.max maxx (Point2d.x (snd (compBB !!! c))))
                   (Z.max maxy (Point2d.y (snd (compBB !!! c))))).
    destruct (fold_left _ cs _) as [[[minx' miny'] maxx'] maxy'].
    destruct IH as ((L1 & L2 & L3 & L4) & Hall & A1 & A2 & A3 & A4).
    split; [lia|]. split.
    { intros c0 Hin. apply elem_of_cons in Hin as [->|Hin]; [lia|].
      now apply Hall. }
    repeat split.
    + destruct A1 as [->|(cit & Hin & ->)].
      * destruct (Z.min_spec minx (Point2d.x (fst (compBB !!! c))))
          as [[_ ->]|[_ ->]]; [now left|].
        right. exists c. split; [left | reflexivity].
      * right. exists cit. split; [now right | reflexivity].
    + destruct A2 as [->|(cit & Hin & ->)].
      * destruct (Z.min_spec miny (Point2d.y (fst (compBB !!! c))))
          as [[_ ->]|[_ ->]]; [now left|].
        right. exists c. split; [left | reflexivity].
      * right. exists cit. split; [now right | reflexivity].
    + destruct A3 as [->|(cit & Hin & ->)].
      * destruct (Z.max_spec maxx (Point2d.x (snd (compBB !!! c))))
          as [[_ ->]|[_ ->]]; [|now left].
        right. exists c. split; [left | reflexivity].
      * right. exists cit. split; [now right | reflexivity].
    + destruct A4 as [->|(cit & Hin & ->)].
      * destruct (Z.max_spec maxy (Point2d.y (snd (compBB !!! c))))
          as [[_ ->]|[_ ->]]; [|now left].
        right. exists c. split; [left | reflexivity].
      * right. exists cit. split; [now right | reflexivity].
Qed.

(** X1. The box [findBoundingBoxes] computes for a chain encloses the
    bounding box of every component of the chain.  Each of its four
    bounds is the bound of one of the components or the value the search
    starts from (the width and the height of the image for the smallest
    corner, 0 for the largest), which it never passes; a chain without
    components gets the inverted box from (width, height) to (0, 0). *)
Theorem findBoundingBox_encloses (chain : Chain.t) :
  let bb := findBoundingBox chain in
  let cs := Chain.components chain in
  (forall cit, cit ∈ cs ->
     CvPoint.x (fst bb) <= Point2d.x (fst (compBB !!! cit))
     /\ CvPoint.y (fst bb) <= Point2d.y (fst (compBB !!! cit))
     /\ Point2d.x (snd (compBB !!! cit)) <= CvPoint.x (snd bb)
     /\ Point2d.y (snd (compBB !!! cit)) <= CvPoint.y (snd bb))
  /\ (CvPoint.x (fst bb) <= width /\ CvPoint.y (fst bb) <= height
      /\ 0 <= CvPoint.x (snd bb) /\ 0 <= CvPoint.y (snd bb))
  /\ (CvPoint.x (fst bb) = width
      \/ exists cit, cit ∈ cs
           /\ CvPoint.x (fst bb) = Point2d.x (fst (compBB !!! cit)))
  /\ (CvPoint.y (fst bb) = height
      \/ exists cit, cit ∈ cs
           /\ CvPoint.y (fst bb) = Point2d.y (fst (compBB !!! cit)))
  /\ (CvPoint.x (snd bb) = 0
      \/ exists cit, cit ∈ cs
           /\ CvPoint.x (snd bb) = Point2d.x (snd (compBB !!! cit)))
  /\ (CvPoint.y (snd bb) = 0
      \/ exists cit, cit ∈ cs
           /\ CvPoint.y (snd bb) = Point2d.y (snd (compBB !!! cit)))
  /\ (cs = [] -> bb = (CvPoint.mk width height, CvPoint.mk 0 0)).
Proof.
  cbv zeta. unfold findBoundingBox.
  pose proof (findBoundingBox_fold (Chain.components chain) width height 0 0)
    as Hfold.
  destruct (Chain.components chain) as [|c cs] eqn:Hcs.
  - cbn [fold_left fst snd CvPoint.x CvPoint.y].
    split; [intros c0 Hin; inversion Hin|]. split; [lia|].
    repeat split; now left.
  - rewrite <- Hcs in *.
    destruct (fold_left _ (Chain.components chain) _)
      as [[[minx' miny'] maxx'] maxy'].
    cbn [fst snd CvPoint.x CvPoint.y].
    destruct Hfold as (Hle & Hall & A1 & A2 & A3 & A4).
    split; [exact Hall|]. split; [lia|].
    split; [exact A1|]. split; [exact A2|]. split; [exact A3|].
    split; [exact A4|]. rewrite Hcs. discriminate.
Qed.

(** A coordinate brought into [0 .. hi]. *)
Definition clamp (hi v : Z) : Z := Z.max 0 (Z.min v hi).

Lemma getBoundingBox_fold (vec : list CvPoint.t) (cw ch : Z)
    (minx miny maxx maxy : Z) :
  0 <= minx <= cw - 1 -> 0 <= miny <= ch - 1 ->
  0 <= maxx <= cw - 1 -> 0 <= maxy <= ch - 1 ->
  let '(minx', miny', maxx', maxy') :=
    fold_left
      (fun '(minx, miny, maxx, maxy) it =>
         let minx := if CvPoint.x it <? minx then Z.max (CvPoint.x it) 0 else minx in
         let miny := if CvPoint.y it <? miny then Z.max (CvPoint.y it) 0 else miny in
         let maxx := if maxx <? CvPoint.x it
                     then Z.min (CvPoint.x it) (cw - 1) else maxx in
         let maxy := if maxy <? CvPoint.y it
                     then Z.min (CvPoint.y it) (ch - 1) else maxy in
         (minx, miny, maxx, maxy))
      vec (minx, miny, maxx, maxy) in
  (0 <= minx' <= minx /\ 0 <= miny' <= miny
   /\ maxx <= maxx' <= cw - 1 /\ maxy <= maxy' <= ch - 1)
  /\ forall it, it ∈ vec ->
       minx' <= clamp (cw - 1) (CvPoint.x it) <= maxx'
       /\ miny' <= clamp (ch - 1) (CvPoint.y it) <= maxy'.
Proof.
  revert minx miny maxx maxy.
  induction vec as [|p vec IH]; intros minx miny maxx maxy H1 H2 H3 H4.
  - cbn [fold_left]. split; [lia|]. intros it Hin; inversion Hin.
  - cbn [fold_left]. cbv zeta.
    set (minx1 := if CvPoint.x p <? minx then Z.max (CvPoint.x p) 0 else minx).
    set (miny1 := if CvPoint.y p <? miny then Z.max (CvPoint.y p) 0 else miny).
    set (maxx1 := if maxx <? CvPoint.x p
                  then Z.min (CvPoint.x p) (cw - 1) else maxx).
    set (maxy1 := if maxy <? CvPoint.y p
                  then Z.min (CvPoint.y p) (ch - 1) else maxy).
    assert (B1 : 0 <= minx1 <= minx /\ minx1 <= clamp (cw - 1) (CvPoint.x p))
      by (subst minx1; unfold clamp;
          destruct (Z.ltb_spec (CvPoint.x p) minx); lia).
    assert (B2 : 0 <= miny1 <= miny /\ miny1 <= clamp (ch - 1) (CvPoint.y p))
      by (subst miny1; unfold clamp;
          destruct (Z.ltb_spec (CvPoint.y p) miny); lia).
    assert (B3 : maxx <= maxx1 <= cw - 1 /\ clamp (cw - 1) (CvPoint.x p) <= maxx1)
      by (subst maxx1; unfold clamp;
          destruct (Z.ltb_spec maxx (CvPoint.x p)); lia).
    assert (B4 : maxy <= maxy1 <= ch - 1 /\ clamp (ch - 1) (CvPoint.y p) <= maxy1)
      by (subst maxy1; unfold clamp;
          destruct (Z.ltb_spec maxy (CvPoint.y p)); lia).
    clearbody minx1 miny1 maxx1 maxy1.
    specialize (IH minx1 miny1 maxx1 maxy1).
    destruct (fold_left _ vec _) as [[[minx' miny'] maxx'] maxy'].
    destruct IH as [Hle Hall]; try lia.
    split; [lia|].
    intros it Hin. apply elem_of_cons in Hin as [->|Hin]; [lia|].
    now apply Hall.
Qed.

(** X2. For a clip area of at least one pixel each way, the rectangle
    [getBoundingBox] returns lies inside the area: its corner is not
    negative and its far sides stay within [width - 1] and [height - 1].
    It holds every point of the vector once the point is brought into the
    area; for an empty vector it is the whole area. *)
Theorem getBoundingBox_inside_clip (vec : list CvPoint.t) (cw ch : Z) :
  1 <= cw -> 1 <= ch ->
  let roi := getBoundingBox vec cw ch in
  (0 <= Rect.x roi /\ 0 <= Rect.y roi
   /\ 0 <= Rect.width roi /\ 0 <= Rect.height roi
   /\ Rect.x roi + Rect.width roi <= cw - 1
   /\ Rect.y roi + Rect.height roi <= ch - 1)
  /\ (forall it, it ∈ vec ->
        Rect.x roi <= clamp (cw - 1) (CvPoint.x it) <= Rect.x roi + Rect.width roi
        /\ Rect.y roi <= clamp (ch - 1) (CvPoint.y it)
           <= Rect.y roi + Rect.height roi)
  /\ (vec = [] -> roi = Rect.mk 0 0 (cw - 1) (ch - 1)).
Proof.
  intros Hw Hh. cbv zeta. unfold getBoundingBox.
  pose proof (getBoundingBox_fold vec cw ch (cw - 1) (ch - 1) 0 0) as Hfold.
  destruct vec as [|p vec].
  - cbn [fold_left]. unfold Rect_of_points.
    cbn [CvPoint.x CvPoint.y Rect.x Rect.y Rect.width Rect.height].
    split; [lia|]. split; [intros it Hin; inversion Hin|].
    intros _. f_equal; lia.
  - destruct (fold_left _ (p :: vec) _) as [[[minx' miny'] maxx'] maxy'].
    destruct Hfold as [Hle Hall]; try lia.
    pose proof (Hall p (list_elem_of_here _ _)) as Hp.
    unfold Rect_of_points.
    cbn [CvPoint.x CvPoint.y Rect.x Rect.y Rect.width Rect.height].
    split; [lia|]. split; [|discriminate].
    intros it Hin. specialize (Hall it Hin). lia.
Qed.

Lemma omap_length_le {A B} (f : A -> option B) (l : list A) :
  (length (omap f l) <= length l)%nat.
Proof.
  induction l as [|a l IH]; [reflexivity|].
  cbn [omap list_omap]. destruct (f a); cbn [length]; lia.
Qed.

(** X3. [renderChainsWithBoxes] only appends to [text]: the strings that
    were there stay in front, in order, and each chain adds at most one
    string; without chains nothing is added. *)
Theorem renderChainsWithBoxes_appends (chains : list Chain.t)
    (text : list cstring) :
  exists new,
    renderChainsWithBoxes chains text = text ++ new
    /\ (length new <= length chains)%nat
    /\ (chains = [] -> new = []).
Proof.
  exists (omap id (imap chain_text chains)). split.
  - apply (render_loop_text 0).
  - split.
    + etransitivity; [apply omap_length_le|]. now rewrite length_imap.
    + intros ->. reflexivity.
Qed.

End Render.


(** *** Running minima and maxima *)

Lemma fold_min_spec {A} (f : A -> Z) (l : list A) (init : Z) :
  let m := fold_left (fun m a => Z.min m (f a)) l init in
  m <= init
  /\ (forall a, a ∈ l -> m <= f a)
  /\ (m = init \/ exists a, a ∈ l /\ m = f a).
Proof.
  revert init. induction l as [|a l IH]; intros init; cbn [fold_left]; cbv zeta.
  - split; [lia|]. split; [intros a Ha; inversion Ha | now left].
  - destruct (IH (Z.min init (f a))) as (Hle & Hall & Hat). cbv zeta in *.
    split; [lia|]. split.
    + intros b Hb. apply elem_of_cons in Hb as [->|Hb]; [lia | now apply Hall].
    + destruct Hat as [Heq|(b & Hb & Heq)].
      * destruct (Z.min_spec init (f a)) as [[_ Hm]|[_ Hm]].
        -- left. congruence.
        -- right. exists a. split; [left | congruence].
      * right. exists b. split; [now right | exact Heq].
Qed.

Lemma fold_max_spec {A} (f : A -> Z) (l : list A) (init : Z) :
  let m := fold_left (fun m a => Z.max m (f a)) l init in
  init <= m
  /\ (forall a, a ∈ l -> f a <= m)
  /\ (m = init \/ exists a, a ∈ l /\ m = f a).
Proof.
  revert init. induction l as [|a l IH]; intros init; cbn [fold_left]; cbv zeta.
  - split; [lia|]. split; [intros a Ha; inversion Ha | now left].
  - destruct (IH (Z.max init (f a))) as (Hle & Hall & Hat). cbv zeta in *.
    split; [lia|]. split.
    + intros b Hb. apply elem_of_cons in Hb as [->|Hb]; [lia | now apply Hall].
    + destruct Hat as [Heq|(b & Hb & Heq)].
      * destruct (Z.max_spec init (f a)) as [[_ Hm]|[_ Hm]].
        -- right. exists a. split; [left | congruence].
        -- left. congruence.
      * right. exists b. split; [now right | exact Heq].
Qed.

(** *** The box of a component ([findBoundingBoxes], second overload) *)

(** The body of the outer loop of
    [findBoundingBoxes(components, output)]: the box of one component. *)
Definition findBoundingBox_pixels (width height : Z) (compit : list Point2d.t)
    : CvPoint.t * CvPoint.t :=
  let '(minx, miny, maxx, maxy) :=
    fold_left
      (fun '(minx, miny, maxx, maxy) it =>
         let miny := Z.min miny (Point2d.y it) in
         let minx := Z.min minx (Point2d.x it) in
         let maxy := Z.max maxy (Point2d.y it) in
         let maxx := Z.max maxx (Point2d.x it) in
         (minx, miny, maxx, maxy))
      compit (width, height, 0, 0) in
  (CvPoint.mk minx miny, CvPoint.mk maxx maxy).

(** [findBoundingBoxes(components, output)] *)
Definition findBoundingBoxes_components (components : list (list Point2d.t))
    (width height : Z) : list (CvPoint.t * CvPoint.t) :=
  map (findBoundingBox_pixels width height) components.

Lemma findBoundingBox_pixels_folds (width height : Z) (compit : list Point2d.t) :
  findBoundingBox_pixels width height compit
  = (CvPoint.mk (fold_left (fun m it => Z.min m (Point2d.x it)) compit width)
                (fold_left (fun m it => Z.min m (Point2d.y it)) compit height),
     CvPoint.mk (fold_left (fun m it => Z.max m (Point2d.x it)) compit 0)
                (fold_left (fun m it => Z.max m (Point2d.y it)) compit 0)).
Proof.
  unfold findBoundingBox_pixels.
  assert (Hgen : forall minx miny maxx maxy,
    fold_left
      (fun '(minx, miny, maxx, maxy) it =>
         let miny := Z.min miny (Point2d.y it) in
         let minx := Z.min minx (Point2d.x it) in
         let maxy := Z.max maxy (Point2d.y it) in
         let maxx := Z.max maxx (Point2d.x it) in
         (minx, miny, maxx, maxy))
      compit (minx, miny, maxx, maxy)
    = (fold_left (fun m it => Z.min m (Point2d.x it)) compit minx,
       fold_left (fun m it => Z.min m (Point2d.y it)) compit miny,
       fold_left (fun m it => Z.max m (Point2d.x it)) compit maxx,
       fold_left (fun m it => Z.max m (Point2d.y it)) compit maxy)).
  { induction compit as [|it compit IH]; intros minx miny maxx maxy;
      [reflexivity|].
    cbn [fold_left]. cbv zeta. apply IH. }
  rewrite Hgen. reflexivity.
Qed.

(** X4. For a component that is not empty and whose pixels lie in the
    image, the box of [findBoundingBoxes] is the smallest box that holds
    its pixels: every pixel lies inside, and each of the four bounds is
    the coordinate of one of the pixels. *)
Theorem findBoundingBox_pixels_tight (width height : Z)
    (compit : list Point2d.t) :
  compit <> [] ->
  (forall it, it ∈ compit ->
     0 <= Point2d.x it <= width /\ 0 <= Point2d.y it <= height) ->
  let bb := findBoundingBox_pixels width height compit in
  (forall it, it ∈ compit ->
     CvPoint.x (fst bb) <= Point2d.x it <= CvPoint.x (snd bb)
     /\ CvPoint.y (fst bb) <= Point2d.y it <= CvPoint.y (snd bb))
  /\ (exists it, it ∈ compit /\ CvPoint.x (fst bb) = Point2d.x it)
  /\ (exists it, it ∈ compit /\ CvPoint.y (fst bb) = Point2d.y it)
  /\ (exists it, it ∈ compit /\ CvPoint.x (snd bb) = Point2d.x it)
  /\ (exists it, it ∈ compit /\ CvPoint.y (snd bb) = Point2d.y it).
Proof.
  intros Hne Hin. cbv zeta. rewrite findBoundingBox_pixels_folds.
  cbn [fst snd CvPoint.x CvPoint.y].
  destruct (fold_min_spec Point2d.x compit width) as (_ & X1 & X2).
  destruct (fold_min_spec Point2d.y compit height) as (_ & Y1 & Y2).
  destruct (fold_max_spec Point2d.x compit 0) as (_ & X3 & X4).
  destruct (fold_max_spec Point2d.y compit 0) as (_ & Y3 & Y4).
  cbv zeta in *.
  destruct compit as [|p0 compit]; [congruence|].
  pose proof (Hin p0 (list_elem_of_here _ _)) as Hp0.
  pose proof (X1 p0 (list_elem_of_here _ _)) as X1p.
  pose proof (Y1 p0 (list_elem_of_here _ _)) as Y1p.
  pose proof (X3 p0 (list_elem_of_here _ _)) as X3p.
  pose proof (Y3 p0 (list_elem_of_here _ _)) as Y3p.
  split; [|split; [|split; [|split]]].
  - intros it Hit. specialize (X1 it Hit). specialize (Y1 it Hit).
    specialize (X3 it Hit). specialize (Y3 it Hit). lia.
  - destruct X2 as [Heq|H]; [|exact H].
    exists p0. split; [left | lia].
  - destruct Y2 as [Heq|H]; [|exact H].
    exists p0. split; [left | lia].
  - destruct X4 as [Heq|H]; [|exact H].
    exists p0. split; [left | lia].
  - destruct Y4 as [Heq|H]; [|exact H].
    exists p0. split; [left | lia].
Qed.

(** *** The components that take part in a chain
    ([renderChains], [renderChainsWithBoxes]) *)

(** The flags [included] after the loop over the chains. *)
Definition mark_included (n : nat) (chains : list Chain.t) : list bool :=
  fold_left
    (fun included it =>
       fold_left (fun included cit => <[cit := true]> included)
         (Chain.components it) included)
    chains (replicate n false).

(** [componentsRed]: the components whose flag is set, in order. *)
Definition componentsRed (components : list (list Point2d.t))
    (chains : list Chain.t) : list (list Point2d.t) :=
  let included := mark_included (length components) chains in
  flat_map
    (fun i : nat => if (included !!! i : bool) then [components !!! i] else [])
    (seq 0 (length components)).

Lemma mark_one_chain (cs : list nat) (included : list bool) (i : nat) :
  (i < length included)%nat ->
  let included' :=
    fold_left (fun included cit => <[cit := true]> included) cs included in
  length included' = length included
  /\ (included' !!! i = true <-> included !!! i = true \/ i ∈ cs).
Proof.
  revert included. induction cs as [|c cs IH]; intros included Hi; cbn [fold_left].
  - split; [reflexivity|]. split; [now left|].
    intros [H|H]; [exact H | inversion H].
  - destruct (IH (<[c := true]> included)) as [Hlen Hiff];
      [now rewrite length_insert|].
    cbv zeta in *. rewrite length_insert in Hlen.
    split; [exact Hlen|]. rewrite Hiff.
    destruct (decide (c = i)) as [->|Hne].
    + rewrite list_lookup_total_insert_eq by exact Hi.
      split; [intros _; right; left | now left].
    + rewrite list_lookup_total_insert_ne by exact Hne.
      rewrite elem_of_cons. split.
      * intros [H|H]; [now left | right; now right].
      * intros [H|[H|H]]; [now left | congruence | now right].
Qed.

Lemma mark_included_spec (n : nat) (chains : list Chain.t) (i : nat) :
  (i < n)%nat ->
  mark_included n chains !!! i = true
  <-> Exists (fun it => i ∈ Chain.components it) chains.
Proof.
  intros Hi. unfold mark_included.
  assert (Hgen : forall included,
    length included = n ->
    fold_left
      (fun included it =>
         fold_left (fun included cit => <[cit := true]> included)
           (Chain.components it) included) chains included !!! i = true
    <-> included !!! i = true
        \/ Exists (fun it => i ∈ Chain.components it) chains).
  { induction chains as [|it chains IH]; intros included Hlen; cbn [fold_left].
    - split; [now left|]. intros [H|H]; [exact H | inversion H].
    - destruct (mark_one_chain (Chain.components it) included i) as [Hlen' Hiff];
        [lia|]. cbv zeta in *.
      rewrite IH by lia. rewrite Hiff, Exists_cons. tauto. }
  rewrite Hgen by apply length_replicate.
  rewrite lookup_total_replicate_2 by exact Hi.
  split; [intros [H|H]; [discriminate | exact H] | now right].
Qed.

(** X5. Where every index of a chain is the index of a component,
    [componentsRed] holds, in their order, the components whose index
    occurs in one of the chains, and no other; it is a subsequence of the
    components. *)
Theorem componentsRed_spec (components : list (list Point2d.t))
    (chains : list Chain.t) :
  Forall (fun it =>
            Forall (fun cit => (cit < length components)%nat)
              (Chain.components it)) chains ->
  componentsRed components chains
  = map (fun i => components !!! i)
      (filter (fun i => Exists (fun it => i ∈ Chain.components it) chains)
         (seq 0 (length components)))
  /\ sublist (componentsRed components chains) components.
Proof.
  intros _.
  assert (Heq : componentsRed components chains
    = map (fun i => components !!! i)
        (filter (fun i => Exists (fun it => i ∈ Chain.components it) chains)
           (seq 0 (length components)))).
  { unfold componentsRed. cbv zeta.
    assert (Hgen : forall l, Forall (fun i => (i < length components)%nat) l ->
      flat_map
        (fun i : nat =>
           if (mark_included (length components) chains !!! i : bool)
           then [components !!! i] else []) l
      = map (fun i => components !!! i)
          (filter (fun i => Exists (fun it => i ∈ Chain.components it) chains) l)).
    { induction l as [|i l IH]; intros Hl; [reflexivity|].
      apply Forall_cons in Hl as [Hi Hl].
      cbn [flat_map]. rewrite filter_cons, (IH Hl).
      pose proof (mark_included_spec (length components) chains i Hi) as Hspec.
      destruct (mark_included (length components) chains !!! i).
      - rewrite decide_True by (now apply Hspec). reflexivity.
      - rewrite decide_False; [reflexivity|].
        intros H. apply Hspec in H. discriminate. }
    apply Hgen. apply Forall_forall. intros i Hi.
    apply elem_of_seq in Hi. lia. }
  split; [exact Heq|]. rewrite Heq.
  assert (Hall : map (fun i => components !!! i) (seq 0 (length components))
                 = components).
  { clear. apply list_eq. intros i. rewrite list_lookup_fmap.
    destruct (decide (i < length components)%nat).
    - rewrite lookup_seq_lt by lia. cbn. symmetry.
      apply list_lookup_lookup_total_lt. lia.
    - rewrite lookup_seq_ge by lia. cbn. symmetry.
      apply lookup_ge_None_2. lia. }
  rewrite <- Hall at 2. apply fmap_sublist, sublist_filter.
Qed.



(** ** The component filter ([componentStats], [filterComponents]) *)

(** *** The angles of the rotated bounding box, bit for bit

    [float increment = 1. / 36.;
     for (float theta = increment * PI; theta < PI / 2.0; theta += increment * PI)]

    [theta] and [increment] are binary32, [PI] and the products, sums and
    the comparison are binary64: whether the loop runs a last time near 90
    degrees is decided by the rounding, so these few operations are
    evaluated on IEEE-754 numbers (round to nearest, ties to even). *)
Module Angle.

Definition f64_of_Z (z : Z) : spec_float := binary_normalize 53 1024 z 0 false.

(** The conversions [(float) d] and [(double) f]. *)
Definition to_f32 (d : spec_float) : spec_float :=
  match d with
  | S754_finite s m e => binary_round 24 128 s m e
  | _ => d
  end.

Definition to_f64 (f : spec_float) : spec_float :=
  match f with
  | S754_finite s m e => binary_round 53 1024 s m e
  | _ => f
  end.

(** The literal [3.14159265] as a double. *)
Definition PI64 : spec_float :=
  SFdiv 53 1024 (f64_of_Z 314159265) (f64_of_Z 100000000).

Definition increment : spec_float :=
  to_f32 (SFdiv 53 1024 (f64_of_Z 1) (f64_of_Z 36)).

(** [increment * PI] *)
Definition step : spec_float := SFmul 53 1024 (to_f64 increment) PI64.

(** [PI / 2.0] *)
Definition half_PI : spec_float := SFdiv 53 1024 PI64 (f64_of_Z 2).

(** The values [theta] takes in the body of the loop, from [theta] on;
    [None] if the loop has not left after [fuel] tests. *)
Fixpoint theta_loop (fuel : nat) (theta : spec_float)
    : option (list spec_float) :=
  match fuel with
  | O => None
  | S fuel' =>
      if SFltb (to_f64 theta) half_PI
      then cons theta <$>
             theta_loop fuel' (to_f32 (SFadd 53 1024 (to_f64 theta) step))
      else Some []
  end.

(** The angles at which the body of the loop runs. *)
Definition rotation_angles : list spec_float :=
  default [] (theta_loop 64 (to_f32 step)).

(** The rational a finite float denotes. *)
Definition F2Q (f : spec_float) : Q :=
  match f with
  | S754_finite s m e =>
      let v := if 0 <=? e then inject_Z (Zpos m * 2 ^ e)
               else (inject_Z (Zpos m) / inject_Z (2 ^ (- e)))%Q in
      if s then (- v)%Q else v
  | _ => 0%Q
  end.

(** An angle in degrees, with the program's own [PI]. *)
Definition degrees (theta : spec_float) : Q := (F2Q theta * 180 / PI)%Q.

End Angle.

(** What [componentStats] returns through its reference parameters. *)
Module Stats.
Record t := mk {
  mean : Q; variance : Q; median : Q;
  minx : Z; miny : Z; maxx : Z; maxy : Z
}.
End Stats.

(** One row of the five vectors [validComponents], [compCenters],
    [compMedians], [compDimensions], [compBB]: [filterComponents] pushes to
    the five together and filters the five together, so the embedding
    keeps one vector of rows. *)
Module Component.
Record t := mk {
  pixels : list Point2d.t;
  center : Point2dFloat.t;
  median : Q;
  dimensions : Point2d.t;
  bb : BBox
}.
End Component.

Section Filter.

(** [cos] and [sin] of the C library at a binary32 angle. *)
Variables cos sin : spec_float -> Q.
Variable params : Params.t.
Variable SWTImage : IplImage.t Q.

(** [componentStats] *)
Definition componentStats (component : list Point2d.t) : Stats.t :=
  let temp :=
    map (fun it => CV_IMAGE_ELEM SWTImage (Point2d.y it) (Point2d.x it))
      component in
  let size := inject_Z (Z.of_nat (length component)) in
  let mean := (fold_left Qplus temp 0 / size)%Q in
  let variance :=
    (fold_left (fun v t => v + (t - mean) * (t - mean)) temp 0 / size)%Q in
  let sorted := Sort.sort Qltb temp in
  Stats.mk mean variance (sorted !!! (length sorted / 2)%nat)
    (fold_left (fun m it => Z.min m (Point2d.x it)) component 1000000)
    (fold_left (fun m it => Z.min m (Point2d.y it)) component 1000000)
    (fold_left (fun m it => Z.max m (Point2d.x it)) component 0)
    (fold_left (fun m it => Z.max m (Point2d.y it)) component 0).

(** The coordinates of a pixel rotated by [theta] about the origin:
    [xtemp] and [ytemp]. *)
Definition rotate_pixel (theta : spec_float) (pt : Point2d.t) : Q * Q :=
  (inject_Z (Point2d.x pt) * cos theta + inject_Z (Point2d.y pt) * - sin theta,
   inject_Z (Point2d.x pt) * sin theta + inject_Z (Point2d.y pt) * cos theta)%Q.

(** The inner loop over the pixels: [(xmin, xmax, ymin, ymax)]. *)
Definition rotated_extremes (component : list Point2d.t) (theta : spec_float)
    : Q * Q * Q * Q :=
  fold_left
    (fun '(xmin, xmax, ymin, ymax) pt =>
       let '(xtemp, ytemp) := rotate_pixel theta pt in
       (fmin xtemp xmin, fmax xtemp xmax, fmin ytemp ymin, fmax ytemp ymax))
    component (1000000, 0, 1000000, 0)%Q.

(** [ltemp] and [wtemp] at one angle. *)
Definition rotated_box (component : list Point2d.t) (theta : spec_float)
    : Q * Q :=
  let '(xmin, xmax, ymin, ymax) := rotated_extremes component theta in
  (xmax - xmin + 1, ymax - ymin + 1)%Q.

(** The body of the loop over [theta], on [(area, length, width)]. *)
Definition rotation_step (component : list Point2d.t)
    (st : Q * Q * Q) (theta : spec_float) : Q * Q * Q :=
  let '(area, length, width) := st in
  let '(ltemp, wtemp) := rotated_box component theta in
  if Qltb (ltemp * wtemp) area then ((ltemp * wtemp)%Q, ltemp, wtemp)
  else st.

(** The search of the rotated bounding box: from the axis-aligned
    [length] and [width], the loop over the angles. *)
Definition rotated_bounding_box (component : list Point2d.t)
    (length width : Q) : Q * Q * Q :=
  fold_left (rotation_step component) Angle.rotation_angles
    ((length * width)%Q, length, width).

(** The body of the first loop of [filterComponents]: the row pushed for
    the component, [None] where the loop [continue]s. *)
Definition filter_one (component : list Point2d.t) : option Component.t :=
  let st := componentStats component in
  let minx := Stats.minx st in let miny := Stats.miny st in
  let maxx := Stats.maxx st in let maxy := Stats.maxy st in
  let length := inject_Z (maxx - minx + 1) in
  let width := inject_Z (maxy - miny + 1) in
  if Qltb 300 width then None
  else if (miny <? Params.topBorder params)
          || (IplImage.height SWTImage - Params.bottomBorder params <? maxy)
  then None
  else
    let '(area, length, width) := rotated_bounding_box component length width in
    if negb (ratio_within (length / width) COM_MAX_ASPECT_RATIO) then None
    else
      Some (Component.mk component
              (Point2dFloat.mk (inject_Z (maxx + minx) / 2)
                               (inject_Z (maxy + miny) / 2))
              (Stats.median st)
              (Point2d.mk (maxx - minx + 1) (maxy - miny + 1) 0)
              (Point2d.mk minx miny 0, Point2d.mk maxx maxy 0)).

(** The first loop: the rows of the components it keeps, in order. *)
Definition first_pass (components : list (list Point2d.t))
    : list Component.t :=
  omap filter_one components.

End Filter.

(** *** The second loop: the containment filter *)

(** [compBB[i].first.x <= compCenters[j].x && compBB[i].second.x >= compCenters[j].x
     && compBB[i].first.y <= compCenters[j].y && compBB[i].second.y >= compCenters[j].y] *)
Definition contains (bbi : BBox) (cj : Point2dFloat.t) : bool :=
  Qle_bool (inject_Z (Point2d.x (fst bbi))) (Point2dFloat.x cj)
  && Qle_bool (Point2dFloat.x cj) (inject_Z (Point2d.x (snd bbi)))
  && Qle_bool (inject_Z (Point2d.y (fst bbi))) (Point2dFloat.y cj)
  && Qle_bool (Point2dFloat.y cj) (inject_Z (Point2d.y (snd bbi))).

(** The loop over [j], from index [j] on: how often [count++] runs. *)
Fixpoint count_contained (i : nat) (bbi : BBox) (j : nat)
    (rest : list Component.t) : nat :=
  match rest with
  | [] => 0
  | cj :: rest' =>
      (if negb (i =? j)%nat && contains bbi (Component.center cj)
       then 1 else 0)
      + count_contained i bbi (S j) rest'
  end.

(** The loop over [i], from index [i] on: the rows pushed to the [temp]
    vectors.  [valid] is the whole vector, which the loop does not change. *)
Fixpoint containment_loop (valid : list Component.t) (i : nat)
    (rest : list Component.t) : list Component.t :=
  match rest with
  | [] => []
  | ci :: rest' =>
      if (count_contained i (Component.bb ci) 0 valid <? 2)%nat
      then ci :: containment_loop valid (S i) rest'
      else containment_loop valid (S i) rest'
  end.

Definition containment_filter (valid : list Component.t) : list Component.t :=
  containment_loop valid 0 valid.

(** [filterComponents]: the five vectors after the two loops. *)
Definition filterComponents (cos sin : spec_float -> Q) (params : Params.t)
    (SWTImage : IplImage.t Q) (components : list (list Point2d.t))
    : list Component.t :=
  containment_filter (first_pass cos sin params SWTImage components).

(** *** Properties of the rotated bounding box *)

Lemma fmax_ge_l a b : (a <= fmax a b)%Q.
Proof.
  unfold fmax. destruct (Qltb a b) eqn:E.
  - apply Qltb_lt in E. lra.
  - lra.
Qed.

Lemma fmax_ge_r a b : (b <= fmax a b)%Q.
Proof.
  unfold fmax. destruct (Qltb a b) eqn:E.
  - lra.
  - apply Qltb_ge in E. lra.
Qed.

Lemma theta_loop_fuel (n k : nat) (theta : spec_float) (l : list spec_float) :
  Angle.theta_loop n theta = Some l -> Angle.theta_loop (n + k) theta = Some l.
Proof.
  revert theta l. induction n as [|n IH]; intros theta l; simpl; [discriminate|].
  destruct (SFltb _ _); [|trivial].
  destruct (Angle.theta_loop n _) as [l'|] eqn:E; [|discriminate].
  intros [= <-]. now rewrite (IH _ _ E).
Qed.

Lemma rotation_angles_loop :
  Angle.theta_loop 19 (Angle.to_f32 Angle.step) = Some Angle.rotation_angles.
Proof. vm_compute. reflexivity. Qed.

Section RotatedBox.

Variables cos sin : spec_float -> Q.

(** The box tracked at one angle encloses every rotated pixel. *)
Lemma rotated_extremes_enclose (component : list Point2d.t)
    (theta : spec_float) (pt : Point2d.t) :
  pt ∈ component ->
  let '(xmin, xmax, ymin, ymax) := rotated_extremes cos sin component theta in
  let '(xtemp, ytemp) := rotate_pixel cos sin theta pt in
  (xmin <= xtemp /\ xtemp <= xmax /\ ymin <= ytemp /\ ytemp <= ymax)%Q.
Proof.
  unfold rotated_extremes.
  generalize (1000000%Q, 0%Q, 1000000%Q, 0%Q).
  induction component as [|a component IH]; intros init Hin.
  - inversion Hin.
  - cbn [fold_left].
    assert (Hmono : forall l (st : Q * Q * Q * Q) (x y : Q),
      (let '(xmin, xmax, ymin, ymax) := st in
       xmin <= x /\ x <= xmax /\ ymin <= y /\ y <= ymax)%Q ->
      (let '(xmin, xmax, ymin, ymax) :=
         fold_left
           (fun '(xmin, xmax, ymin, ymax) pt =>
              let '(xtemp, ytemp) := rotate_pixel cos sin theta pt in
              (fmin xtemp xmin, fmax xtemp xmax, fmin ytemp ymin, fmax ytemp ymax))
           l st in
       xmin <= x /\ x <= xmax /\ ymin <= y /\ y <= ymax)%Q).
    { clear. induction l as [|b l IHl]; intros st x y H; [exact H|].
      cbn [fold_left]. apply IHl.
      destruct st as [[[xmin xmax] ymin] ymax].
      destruct (rotate_pixel cos sin theta b) as [xt yt].
      destruct H as (H1 & H2 & H3 & H4).
      pose proof (fmin_le_r xt xmin). pose proof (fmax_ge_r xt xmax).
      pose proof (fmin_le_r yt ymin). pose proof (fmax_ge_r yt ymax).
      repeat split; lra. }
    apply elem_of_cons in Hin as [->|Hin].
    + specialize (Hmono component
        (let '(xmin, xmax, ymin, ymax) := init in
         let '(xtemp, ytemp) := rotate_pixel cos sin theta a in
         (fmin xtemp xmin, fmax xtemp xmax, fmin ytemp ymin, fmax ytemp ymax))
        (fst (rotate_pixel cos sin theta a)) (snd (rotate_pixel cos sin theta a))).
      destruct init as [[[xmin xmax] ymin] ymax].
      destruct (rotate_pixel cos sin theta a) as [xt yt]. cbn [fst snd] in Hmono.
      apply Hmono.
      pose proof (fmin_le_l xt xmin). pose proof (fmax_ge_l xt xmax).
      pose proof (fmin_le_l yt ymin). pose proof (fmax_ge_l yt ymax).
      repeat split; lra.
    + apply IH. exact Hin.
Qed.

(** The candidate of one angle: its area and its two dimensions. *)
Definition candidate (component : list Point2d.t) (theta : spec_float)
    : Q * Q * Q :=
  let '(ltemp, wtemp) := rotated_box cos sin component theta in
  ((ltemp * wtemp)%Q, ltemp, wtemp).

Definition area_of (c : Q * Q * Q) : Q := fst (fst c).

Lemma rotation_step_candidate component st theta :
  rotation_step cos sin component st theta
  = if Qltb (area_of (candidate component theta)) (area_of st)
    then candidate component theta else st.
Proof.
  unfold rotation_step, candidate, area_of.
  destruct st as [[area length] width].
  destruct (rotated_box cos sin component theta) as [ltemp wtemp].
  reflexivity.
Qed.

(** The loop keeps a candidate of least area, whatever the angles are. *)
Lemma rotation_fold_least component (angles : list spec_float) (st : Q * Q * Q) :
  let best := fold_left (rotation_step cos sin component) angles st in
  best ∈ st :: map (candidate component) angles
  /\ forall c, c ∈ st :: map (candidate component) angles ->
       (area_of best <= area_of c)%Q.
Proof.
  revert st. induction angles as [|theta angles IH]; intros st; cbn zeta.
  - split; [left|]. intros c Hc. apply list_elem_of_singleton in Hc as ->.
    cbn [fold_left]. lra.
  - cbn [fold_left map]. rewrite rotation_step_candidate.
    destruct (Qltb _ _) eqn:E.
    + apply Qltb_lt in E.
      destruct (IH (candidate component theta)) as [Hin Hle].
      split.
      * apply elem_of_cons in Hin as [->|Hin]; [right; left|].
        do 2 right. exact Hin.
      * intros c Hc.
        apply elem_of_cons in Hc as [->|Hc].
        -- specialize (Hle _ (list_elem_of_here _ _)). lra.
        -- apply Hle. exact Hc.
    + apply Qltb_ge in E.
      destruct (IH st) as [Hin Hle].
      split.
      * apply elem_of_cons in Hin as [->|Hin]; [left|].
        do 2 right. exact Hin.
      * intros c Hc.
        apply elem_of_cons in Hc as [->|Hc]; [apply Hle; left|].
        apply elem_of_cons in Hc as [->|Hc].
        -- specialize (Hle _ (list_elem_of_here _ _)). lra.
        -- apply Hle. right. exact Hc.
Qed.

End RotatedBox.

(** C6, as the code has it.  The loop visits 18 angles, 5 degrees apart,
    from 5 degrees to just below 90 degrees (the 18th turn is owed to the
    rounding of the binary32 sum); at each angle every pixel of the
    component is rotated about the origin and lies inside the tracked
    extremes; the dimensions kept are those of least area among the
    axis-aligned box the search starts from and the boxes of the 18
    angles. *)
Theorem rotated_bounding_box_search (cos sin : spec_float -> Q)
    (component : list Point2d.t) (length0 width0 : Q) :
  Angle.theta_loop 19 (Angle.to_f32 Angle.step) = Some Angle.rotation_angles
  /\ length Angle.rotation_angles = 18%nat
  /\ Forall2
       (fun theta deg =>
          (Qabs (Angle.degrees theta - inject_Z deg) < 1 # 10000)%Q
          /\ SFltb (Angle.f64_of_Z 0) (Angle.to_f64 theta) = true
          /\ SFltb (Angle.to_f64 theta) Angle.half_PI = true)
       Angle.rotation_angles
       [5; 10; 15; 20; 25; 30; 35; 40; 45; 50; 55; 60; 65; 70; 75; 80; 85; 90]
  /\ (forall theta pt,
        theta ∈ Angle.rotation_angles -> pt ∈ component ->
        let '(xmin, xmax, ymin, ymax) :=
          rotated_extremes cos sin component theta in
        let '(xtemp, ytemp) := rotate_pixel cos sin theta pt in
        (xmin <= xtemp /\ xtemp <= xmax /\ ymin <= ytemp /\ ytemp <= ymax)%Q)
  /\ (let best := rotated_bounding_box cos sin component length0 width0 in
      let candidates :=
        ((length0 * width0)%Q, length0, width0)
        :: map (candidate cos sin component) Angle.rotation_angles in
      best ∈ candidates
      /\ forall c, c ∈ candidates -> (area_of best <= area_of c)%Q).
Proof.
  split; [exact rotation_angles_loop|].
  split; [vm_compute; reflexivity|].
  split.
  { let v := eval vm_compute in Angle.rotation_angles in
    assert (Hv : Angle.rotation_angles = v) by (vm_compute; reflexivity);
    rewrite Hv.
    repeat (constructor; [vm_compute; repeat split; reflexivity|]).
    constructor. }
  split.
  { intros theta pt _ Hpt. now apply rotated_extremes_enclose. }
  apply rotation_fold_least.
Qed.

(** C6, against the count the claim gives: the loop does not take 36
    samples. *)
Lemma rotation_angles_not_36 :
  (length Angle.rotation_angles =? 36)%nat = false.
Proof. vm_compute. reflexivity. Qed.

(** The extremes start from [xmax = 0]: a pixel whose rotated abscissa is
    negative gets a box that reaches to the origin.  With [cos = 4/5] and
    [sin = 3/5], the one pixel (0, 10) has [ltemp = 7], not 1. *)
Example rotated_box_reaches_origin :
  let '(ltemp, wtemp) :=
    rotated_box (fun _ => 4 # 5)%Q (fun _ => 3 # 5)%Q
      [Point2d.mk 0 10 0] (Angle.to_f32 Angle.step) in
  (ltemp == 7 /\ wtemp == 1)%Q.
Proof. vm_compute. split; reflexivity. Qed.

(** *** Properties of the containment filter *)

#[export] Instance Component_inhabited : Inhabited Component.t :=
  populate (Component.mk [] inhabitant 0%Q inhabitant (inhabitant, inhabitant)).

(** The components of [l] whose centre lies in the box [bbi]. *)
Definition inside_total (bbi : BBox) (l : list Component.t) : nat :=
  length (List.filter (fun c => contains bbi (Component.center c)) l).

(** Whether the component of index [i] itself is one of them, for the loop
    that starts at index [j]. *)
Definition inside_own (bbi : BBox) (i j : nat) (l : list Component.t) : nat :=
  match l !! (i - j)%nat with
  | Some c => if (j <=? i)%nat && contains bbi (Component.center c) then 1 else 0
  | None => 0
  end%nat.

Lemma count_contained_total (i : nat) (bbi : BBox) (j : nat)
    (l : list Component.t) :
  (count_contained i bbi j l + inside_own bbi i j l = inside_total bbi l)%nat.
Proof.
  revert j. induction l as [|c l IH]; intros j; [reflexivity|].
  unfold inside_total, inside_own in *. cbn [count_contained List.filter].
  specialize (IH (S j)).
  destruct (Nat.lt_trichotomy i j) as [Hlt|[->|Hgt]].
  - replace (i - j)%nat with 0%nat by lia.
    replace (i - S j)%nat with 0%nat in IH by lia.
    cbn [lookup list_lookup].
    destruct (Nat.leb_spec j i); [lia|].
    destruct (Nat.leb_spec (S j) i); [lia|].
    destruct (Nat.eqb_spec i j); [lia|]. cbn [negb andb] in *.
    destruct (l !! 0%nat); destruct (contains bbi (Component.center c));
      cbn [length]; lia.
  - replace (j - j)%nat with 0%nat by lia.
    replace (j - S j)%nat with 0%nat in IH by lia.
    cbn [lookup list_lookup].
    rewrite Nat.eqb_refl, Nat.leb_refl. cbn [negb andb].
    destruct (Nat.leb_spec (S j) j); [lia|]. cbn [andb] in IH.
    destruct (l !! 0%nat); destruct (contains bbi (Component.center c));
      cbn [length]; lia.
  - replace (i - j)%nat with (S (i - S j)) by lia.
    cbn [lookup list_lookup].
    destruct (Nat.eqb_spec i j); [lia|].
    destruct (Nat.leb_spec j i); [|lia].
    destruct (Nat.leb_spec (S j) i); [|lia]. cbn [negb andb] in *.
    change (list_lookup (i - S j)%nat l) with (l !! (i - S j)%nat).
    destruct (l !! (i - S j)%nat);
      destruct (contains bbi (Component.center c)); cbn [length]; lia.
Qed.

Lemma inside_total_sublist (bbi : BBox) (l1 l2 : list Component.t) :
  sublist l1 l2 -> (inside_total bbi l1 <= inside_total bbi l2)%nat.
Proof.
  unfold inside_total. induction 1 as [|c l1 l2 _ IH|c l1 l2 _ IH];
    cbn [List.filter]; [lia| |];
    destruct (contains bbi (Component.center c)); cbn [length]; lia.
Qed.

Lemma containment_loop_sublist valid i rest :
  sublist (containment_loop valid i rest) rest.
Proof.
  revert i. induction rest as [|c rest IH]; intros i; cbn [containment_loop].
  - constructor.
  - destruct (_ <? 2)%nat; [apply sublist_skip | apply sublist_cons]; apply IH.
Qed.

(** A row of the result is a row of the input, kept for its count. *)
Lemma containment_loop_origin valid i rest k ck :
  containment_loop valid i rest !! k = Some ck ->
  exists m, rest !! m = Some ck
    /\ (count_contained (i + m) (Component.bb ck) 0 valid < 2)%nat.
Proof.
  revert i k. induction rest as [|c rest IH]; intros i k; cbn [containment_loop].
  - intros H. inversion H.
  - destruct (Nat.ltb_spec (count_contained i (Component.bb c) 0 valid) 2).
    + destruct k as [|k]; cbn [lookup list_lookup].
      * intros [= <-]. exists 0%nat. split; [reflexivity|].
        now rewrite Nat.add_0_r.
      * intros Hk. destruct (IH (S i) k Hk) as (m & Hm & Hc).
        exists (S m). split; [exact Hm|].
        now replace (i + S m)%nat with (S i + m)%nat by lia.
    + intros Hk. destruct (IH (S i) k Hk) as (m & Hm & Hc).
      exists (S m). split; [exact Hm|].
      now replace (i + S m)%nat with (S i + m)%nat by lia.
Qed.

Lemma drop_cons_inv {A} (l : list A) (i : nat) (c : A) (rest : list A) :
  drop i l = c :: rest -> l !! i = Some c /\ drop (S i) l = rest.
Proof.
  intros Hdrop. split.
  - rewrite <- (Nat.add_0_r i), <- lookup_drop, Hdrop. reflexivity.
  - replace (S i) with (i + 1)%nat by lia.
    rewrite <- drop_drop, Hdrop. reflexivity.
Qed.

(** The loop keeps exactly the rows whose count is below 2. *)
Lemma containment_loop_filter valid i rest :
  drop i valid = rest ->
  containment_loop valid i rest
  = map (fun i => valid !!! i)
      (filter (fun i => (count_contained i (Component.bb (valid !!! i)) 0 valid < 2)%nat)
         (seq i (length rest))).
Proof.
  revert i. induction rest as [|c rest IH]; intros i Hdrop; [reflexivity|].
  cbn [containment_loop length seq].
  destruct (drop_cons_inv _ _ _ _ Hdrop) as [Hc Hrest].
  apply list_lookup_total_correct in Hc.
  rewrite filter_cons, Hc.
  destruct (Nat.ltb_spec (count_contained i (Component.bb c) 0 valid) 2).
  - rewrite decide_True by assumption. cbn [map]. rewrite Hc.
    f_equal. apply IH, Hrest.
  - rewrite decide_False by lia. apply IH, Hrest.
Qed.

(** C8. The containment filter is one pass over the fixed vector of the
    first-pass survivors; it keeps, in order, exactly the components whose
    box holds the centres of fewer than 2 other survivors, and so discards
    a component exactly when that count is 2 or more.  In the vector it
    returns, no box holds the centres of 2 or more other components. *)
Theorem containment_filter_spec (valid : list Component.t) :
  containment_filter valid
  = map (fun i => valid !!! i)
      (filter (fun i => (count_contained i (Component.bb (valid !!! i)) 0 valid < 2)%nat)
         (seq 0 (length valid)))
  /\ (forall i ci, valid !! i = Some ci ->
        (count_contained i (Component.bb ci) 0 valid
         = length (filter (fun j => j <> i
                     /\ contains (Component.bb ci)
                          (Component.center (valid !!! j)) = true)
                     (seq 0 (length valid))))%nat)
  /\ (forall k ck, containment_filter valid !! k = Some ck ->
        (count_contained k (Component.bb ck) 0 (containment_filter valid) < 2)%nat).
Proof.
  split; [apply containment_loop_filter; reflexivity|].
  split.
  { intros i ci _. generalize (Component.bb ci) as bbi. intros bbi.
    assert (H : forall j l, drop j valid = l ->
      count_contained i bbi j l
      = length (filter (fun j => j <> i
                  /\ contains bbi (Component.center (valid !!! j)) = true)
                  (seq j (length l)))).
    { intros j l. revert j. induction l as [|c l IH]; intros j Hdrop; [reflexivity|].
      cbn [count_contained length seq].
      destruct (drop_cons_inv _ _ _ _ Hdrop) as [Hc Hrest].
      apply list_lookup_total_correct in Hc.
      rewrite filter_cons, Hc, (IH _ Hrest).
      destruct (Nat.eqb_spec i j) as [->|Hne]; cbn [negb andb].
      - rewrite decide_False by tauto. reflexivity.
      - destruct (contains bbi (Component.center c)) eqn:E.
        + rewrite decide_True by (split; [congruence | reflexivity]). reflexivity.
        + rewrite decide_False by (intros [_ ?]; congruence). reflexivity. }
    apply H. reflexivity. }
  intros k ck Hk. unfold containment_filter in *.
  destruct (containment_loop_origin _ _ _ _ _ Hk) as (m & Hm & Hcount).
  cbn [Nat.add] in Hcount.
  pose proof (count_contained_total k (Component.bb ck) 0
                (containment_loop valid 0 valid)) as Hout.
  pose proof (count_contained_total m (Component.bb ck) 0 valid) as Hin.
  pose proof (inside_total_sublist (Component.bb ck) _ _
                (containment_loop_sublist valid 0 valid)) as Hsub.
  unfold inside_own in Hout, Hin.
  rewrite Nat.sub_0_r in Hout, Hin. rewrite Hk in Hout. rewrite Hm in Hin.
  cbn [Nat.leb andb] in Hout, Hin.
  destruct (contains (Component.bb ck) (Component.center ck)); lia.
Qed.

(** *** The order a sort leaves *)

(** [Sort.sort] orders by any relation the comparison decides: where
    [comp y x] fails [x] may stand before [y], where it holds [y] may
    stand before [x]. *)
Lemma sort_StronglySorted {A} (comp : A -> A -> bool) (R : A -> A -> Prop)
    (l : list A) :
  (forall x y z, R x y -> R y z -> R x z) ->
  (forall x y, comp y x = true -> R y x) ->
  (forall x y, comp y x = false -> R x y) ->
  StronglySorted R (Sort.sort comp l).
Proof.
  intros Htrans Hyes Hno.
  assert (Hins : forall x l0, StronglySorted R l0 ->
            StronglySorted R (Sort.insert comp x l0)).
  { intros x l0. induction 1 as [|y l0 Hl IH Hy]; cbn [Sort.insert].
    - repeat constructor.
    - destruct (comp y x) eqn:E.
      + constructor; [exact IH|].
        rewrite List.Forall_forall in *. intros z Hz.
        apply list_elem_of_In in Hz. rewrite Sort.insert_perm in Hz.
        apply elem_of_cons in Hz as [->|Hz]; [now apply Hyes|].
        apply Hy, list_elem_of_In, Hz.
      + constructor; [now constructor|].
        constructor; [now apply Hno|].
        rewrite List.Forall_forall in *. intros z Hz.
        eapply Htrans; [apply Hno, E | apply Hy, Hz]. }
  induction l as [|x l IH]; cbn; [constructor | now apply Hins].
Qed.

Lemma sort_Qltb_sorted (l : list Q) : StronglySorted Qle (Sort.sort Qltb l).
Proof.
  apply sort_StronglySorted.
  - intros x y z. apply Qle_trans.
  - intros x y H. apply Qltb_lt in H. now apply Qlt_le_weak.
  - intros x y H. now apply Qltb_ge in H.
Qed.

Lemma filter_length_perm {A} (P : A -> bool) (l l' : list A) :
  l ≡ₚ l' -> length (List.filter P l) = length (List.filter P l').
Proof.
  induction 1 as [|x l l' _ IH|x y l|l l' l'' _ IH1 _ IH2];
    cbn [List.filter]; [reflexivity| | |congruence].
  - destruct (P x); cbn [length]; congruence.
  - destruct (P x), (P y); reflexivity.
Qed.

Lemma filter_none {A} (P : A -> bool) (l : list A) :
  (forall a, a ∈ l -> P a = false) -> List.filter P l = [].
Proof.
  induction l as [|a l IH]; intros H; [reflexivity|].
  cbn [List.filter]. rewrite (H a) by left.
  apply IH. intros b Hb. apply H. now right.
Qed.

Lemma filter_length_le {A} (P : A -> bool) (l : list A) :
  (length (List.filter P l) <= length l)%nat.
Proof.
  induction l as [|a l IH]; [reflexivity|].
  cbn [List.filter]. destruct (P a); cbn [length]; lia.
Qed.

(** The element in the middle of the sorted values has at most half of
    the values below it and fewer than half above it. *)
Lemma middle_of_sorted (temp : list Q) :
  temp <> [] ->
  let sorted := Sort.sort Qltb temp in
  let median := sorted !!! (length sorted / 2)%nat in
  median ∈ temp
  /\ (length (List.filter (fun t => Qltb t median) temp)
      <= length temp / 2)%nat
  /\ (length (List.filter (fun t => Qltb median t) temp)
      <= length temp - 1 - length temp / 2)%nat.
Proof.
  intros Hne. cbv zeta.
  pose proof (sort_Qltb_sorted temp) as Hsorted.
  pose proof (Sort.sort_perm Qltb temp) as Hperm.
  pose proof (Sort.sort_length Qltb temp) as Hlen.
  set (sorted := Sort.sort Qltb temp) in *.
  assert (Hpos : (0 < length temp)%nat)
    by (destruct temp; [congruence | cbn; lia]).
  assert (Hk : (length sorted / 2 < length sorted)%nat)
    by (rewrite Hlen; apply Nat.div_lt; lia).
  set (k := (length sorted / 2)%nat) in *.
  destruct (lookup_lt_is_Some_2 sorted k Hk) as [m Hm].
  rewrite (list_lookup_total_correct _ _ _ Hm).
  pose proof (take_drop_middle sorted k m Hm) as Hsplit.
  split; [|split].
  - rewrite <- Hperm. eapply list_elem_of_lookup_2, Hm.
  - rewrite <- (filter_length_perm _ _ _ Hperm), <- Hsplit, List.filter_app.
    rewrite (filter_none _ (m :: drop (S k) sorted)).
    + rewrite app_nil_r. etransitivity; [apply filter_length_le|].
      rewrite length_take. subst k. rewrite Hlen. lia.
    + intros t Ht. apply Qltb_ge.
      apply elem_of_cons in Ht as [->|Ht]; [apply Qle_refl|].
      rewrite <- Hsplit in Hsorted.
      apply StronglySorted_app_1_r in Hsorted.
      apply StronglySorted_inv in Hsorted as [_ Hall].
      rewrite List.Forall_forall in Hall. apply Hall, list_elem_of_In, Ht.
  - rewrite <- (filter_length_perm _ _ _ Hperm), <- Hsplit, List.filter_app.
    rewrite (filter_none _ (take k sorted)).
    + cbn [app List.filter].
      assert (Hmm : Qltb m m = false) by (apply Qltb_ge, Qle_refl).
      rewrite Hmm. etransitivity; [apply filter_length_le|].
      rewrite length_drop. subst k. rewrite Hlen. lia.
    + intros t Ht. apply Qltb_ge.
      rewrite <- Hsplit in Hsorted.
      eapply (StronglySorted_app_1_elem_of _ _ _ t m Hsorted Ht). left.
Qed.

(** *** Properties of [componentStats] and of the first loop *)

Section FilterProperties.

Variables cos sin : spec_float -> Q.
Variable params : Params.t.
Variable SWTImage : IplImage.t Q.

Lemma Qsquare_nonneg (x : Q) : (0 <= x * x)%Q.
Proof.
  destruct (Qlt_le_dec x 0).
  - assert (H : (x * x == (- x) * (- x))%Q) by ring.
    rewrite H. apply Qmult_le_0_compat; lra.
  - apply Qmult_le_0_compat; lra.
Qed.

Lemma sum_squares_nonneg (mean : Q) (temp : list Q) (v : Q) :
  (0 <= v)%Q ->
  (0 <= fold_left (fun v t => v + (t - mean) * (t - mean)) temp v)%Q.
Proof.
  revert v. induction temp as [|t temp IH]; intros v Hv; [exact Hv|].
  cbn [fold_left]. apply IH.
  pose proof (Qsquare_nonneg (t - mean)). lra.
Qed.

(** X6. [componentStats]: the box it returns holds every pixel of the
    component; for a component that is not empty, with coordinates
    between 0 and 1000000, each bound of the box is the coordinate of a
    pixel, the median is the stroke width of one of the pixels, with at
    most half of the widths below it and fewer than half above; the
    variance is never negative. *)
Theorem componentStats_spec (component : list Point2d.t) :
  let st := componentStats SWTImage component in
  (forall it, it ∈ component ->
     Stats.minx st <= Point2d.x it <= Stats.maxx st
     /\ Stats.miny st <= Point2d.y it <= Stats.maxy st)
  /\ (component <> [] ->
      (forall it, it ∈ component ->
         0 <= Point2d.x it <= 1000000 /\ 0 <= Point2d.y it <= 1000000) ->
      (exists it, it ∈ component /\ Stats.minx st = Point2d.x it)
      /\ (exists it, it ∈ component /\ Stats.miny st = Point2d.y it)
      /\ (exists it, it ∈ component /\ Stats.maxx st = Point2d.x it)
      /\ (exists it, it ∈ component /\ Stats.maxy st = Point2d.y it))
  /\ (component <> [] ->
      let swt := fun it => CV_IMAGE_ELEM SWTImage (Point2d.y it) (Point2d.x it) in
      let temp := map swt component in
      (exists it, it ∈ component /\ Stats.median st = swt it)
      /\ (length (List.filter (fun t => Qltb t (Stats.median st)) temp)
          <= length component / 2)%nat
      /\ (length (List.filter (fun t => Qltb (Stats.median st) t) temp)
          <= length component - 1 - length component / 2)%nat)
  /\ (0 <= Stats.variance st)%Q.
Proof.
  cbv zeta. unfold componentStats. cbv zeta.
  cbn [Stats.minx Stats.miny Stats.maxx Stats.maxy Stats.median Stats.variance].
  destruct (fold_min_spec Point2d.x component 1000000) as (_ & X1 & X2).
  destruct (fold_min_spec Point2d.y component 1000000) as (_ & Y1 & Y2).
  destruct (fold_max_spec Point2d.x component 0) as (_ & X3 & X4).
  destruct (fold_max_spec Point2d.y component 0) as (_ & Y3 & Y4).
  cbv zeta in *.
  split; [|split; [|split]].
  - intros it Hit. specialize (X1 it Hit). specialize (Y1 it Hit).
    specialize (X3 it Hit). specialize (Y3 it Hit). lia.
  - intros Hne Hin. destruct component as [|p0 component]; [congruence|].
    pose proof (Hin p0 (list_elem_of_here _ _)) as Hp0.
    pose proof (X1 p0 (list_elem_of_here _ _)) as X1p.
    pose proof (Y1 p0 (list_elem_of_here _ _)) as Y1p.
    pose proof (X3 p0 (list_elem_of_here _ _)) as X3p.
    pose proof (Y3 p0 (list_elem_of_here _ _)) as Y3p.
    split; [|split; [|split]].
    + destruct X2 as [Heq|H]; [|exact H]. exists p0. split; [left | lia].
    + destruct Y2 as [Heq|H]; [|exact H]. exists p0. split; [left | lia].
    + destruct X4 as [Heq|H]; [|exact H]. exists p0. split; [left | lia].
    + destruct Y4 as [Heq|H]; [|exact H]. exists p0. split; [left | lia].
  - intros Hne.
    set (swt := fun it => CV_IMAGE_ELEM SWTImage (Point2d.y it) (Point2d.x it)).
    assert (Htemp : map swt component <> [])
      by (destruct component; [congruence | discriminate]).
    destruct (middle_of_sorted _ Htemp) as (Hin & Hlow & Hhigh).
    cbv zeta in *. rewrite length_map in Hlow, Hhigh.
    split; [|split; assumption].
    apply list_elem_of_fmap in Hin as (it & Heq & Hit).
    exists it. split; [exact Hit | exact Heq].
  - set (temp := map _ component).
    set (size := inject_Z (Z.of_nat (length component))).
    set (mean := (fold_left Qplus temp 0 / size)%Q).
    pose proof (sum_squares_nonneg mean temp 0 (Qle_refl 0)) as Hsum.
    assert (Hsize : (0 <= size)%Q).
    { subst size. change 0%Q with (inject_Z 0). rewrite <- Zle_Qle. lia. }
    destruct (Qlt_le_dec 0 size) as [Hpos|Hzero].
    + apply Qle_shift_div_l; [exact Hpos | lra].
    + assert (Hs0 : (size == 0)%Q) by lra.
      unfold Qdiv. rewrite Hs0. unfold Qinv at 1. cbn [Qnum]. lra.
Qed.

(** The rows the first loop pushes, one by one. *)
Lemma filter_one_spec (component : list Point2d.t) (r : Component.t) :
  filter_one cos sin params SWTImage component = Some r ->
  let st := componentStats SWTImage component in
  Component.pixels r = component
  /\ Component.bb r
     = (Point2d.mk (Stats.minx st) (Stats.miny st) 0,
        Point2d.mk (Stats.maxx st) (Stats.maxy st) 0)
  /\ Component.dimensions r
     = Point2d.mk (Stats.maxx st - Stats.minx st + 1)
                  (Stats.maxy st - Stats.miny st + 1) 0
  /\ Component.center r
     = Point2dFloat.mk (inject_Z (Stats.maxx st + Stats.minx st) / 2)
                       (inject_Z (Stats.maxy st + Stats.miny st) / 2)
  /\ Component.median r = Stats.median st
  /\ Stats.maxy st - Stats.miny st + 1 <= 300
  /\ Params.topBorder params <= Stats.miny st
  /\ Stats.maxy st <= IplImage.height SWTImage - Params.bottomBorder params
  /\ (let '(_, length, width) :=
        rotated_bounding_box cos sin component
          (inject_Z (Stats.maxx st - Stats.minx st + 1))
          (inject_Z (Stats.maxy st - Stats.miny st + 1)) in
      1 / 2 < length / width /\ length / width < 2)%Q.
Proof.
  unfold filter_one. cbv zeta.
  set (st := componentStats SWTImage component).
  destruct (Qltb 300 _) eqn:E300; [discriminate|].
  destruct (Z.ltb_spec (Stats.miny st) (Params.topBorder params));
    [discriminate|].
  destruct (Z.ltb_spec (IplImage.height SWTImage - Params.bottomBorder params)
              (Stats.maxy st)); [discriminate|].
  cbn [orb].
  destruct (rotated_bounding_box _ _ _ _ _) as [[area length] width].
  destruct (ratio_within _ _) eqn:Eratio; [|discriminate].
  cbn [negb]. intros [= <-].
  cbn [Component.pixels Component.bb Component.dimensions Component.center
       Component.median].
  repeat (split; [reflexivity|]).
  apply Qltb_ge in E300. change 300%Q with (inject_Z 300) in E300.
  rewrite <- Zle_Qle in E300.
  split; [exact E300|]. split; [assumption|]. split; [assumption|].
  unfold ratio_within in Eratio. apply andb_true_iff in Eratio as [E1 E2].
  apply Qltb_lt in E1, E2. unfold COM_MAX_ASPECT_RATIO in *.
  split; [exact E2 | exact E1].
Qed.

Lemma omap_sublist {A B} (f : A -> option B) (g : B -> A) (l : list A) :
  (forall a b, f a = Some b -> g b = a) ->
  sublist (map g (omap f l)) l.
Proof.
  intros Hfg. induction l as [|a l IH]; [constructor|].
  cbn [omap list_omap]. destruct (f a) as [b|] eqn:E.
  - cbn [map]. rewrite (Hfg a b E). now constructor.
  - now constructor.
Qed.

(** X7. What [filterComponents] returns.  The pixel lists of the rows are
    a subsequence of the components it was given.  Each row is one of the
    components with the box, the dimensions and the centre of
    [componentStats]: the box is no higher than 300 and keeps clear of the
    top and bottom borders, the rotated box found for it has an aspect
    ratio strictly between 1/2 and 2, and, for a component that is not
    empty, the box holds its pixels and the centre lies in the box. *)
Theorem filterComponents_rows (components : list (list Point2d.t)) :
  let rows := filterComponents cos sin params SWTImage components in
  sublist (map Component.pixels rows) components
  /\ forall r, r ∈ rows ->
       let st := componentStats SWTImage (Component.pixels r) in
       let bb := Component.bb r in
       Component.pixels r ∈ components
       /\ bb = (Point2d.mk (Stats.minx st) (Stats.miny st) 0,
                Point2d.mk (Stats.maxx st) (Stats.maxy st) 0)
       /\ Component.dimensions r
          = Point2d.mk (Point2d.x (snd bb) - Point2d.x (fst bb) + 1)
                       (Point2d.y (snd bb) - Point2d.y (fst bb) + 1) 0
       /\ Component.median r = Stats.median st
       /\ Point2d.y (snd bb) - Point2d.y (fst bb) + 1 <= 300
       /\ Params.topBorder params <= Point2d.y (fst bb)
       /\ Point2d.y (snd bb)
          <= IplImage.height SWTImage - Params.bottomBorder params
       /\ (let '(_, length, width) :=
             rotated_bounding_box cos sin (Component.pixels r)
               (inject_Z (Point2d.x (Component.dimensions r)))
               (inject_Z (Point2d.y (Component.dimensions r))) in
           1 / 2 < length / width /\ length / width < 2)%Q
       /\ (Component.pixels r <> [] ->
           (forall it, it ∈ Component.pixels r ->
              Point2d.x (fst bb) <= Point2d.x it <= Point2d.x (snd bb)
              /\ Point2d.y (fst bb) <= Point2d.y it <= Point2d.y (snd bb))
           /\ contains bb (Component.center r) = true).
Proof.
  cbv zeta. unfold filterComponents, containment_filter.
  set (valid := first_pass cos sin params SWTImage components).
  pose proof (containment_loop_sublist valid 0 valid) as Hsub.
  assert (Hfirst : sublist (map Component.pixels valid) components).
  { subst valid. unfold first_pass. apply omap_sublist.
    intros c r Hr. now apply filter_one_spec in Hr as [Hp _]. }
  split.
  { etransitivity; [|exact Hfirst]. now apply fmap_sublist. }
  intros r Hr.
  assert (Hvalid : r ∈ valid) by (eapply elem_of_sublist; eassumption).
  subst valid. unfold first_pass in Hvalid.
  apply list_elem_of_omap in Hvalid as (c & Hc & Hone).
  apply filter_one_spec in Hone. cbv zeta in Hone.
  destruct Hone as (Hp & Hbb & Hdim & Hcen & Hmed & H300 & Htop & Hbot & Hrat).
  rewrite Hp, Hbb, Hdim. cbn [fst snd Point2d.x Point2d.y].
  split; [exact Hc|]. split; [reflexivity|]. split; [reflexivity|].
  split; [exact Hmed|]. split; [exact H300|]. split; [exact Htop|].
  split; [exact Hbot|]. split; [exact Hrat|].
  intros Hne.
  destruct (componentStats_spec c) as (Hin & _). cbv zeta in Hin.
  split; [exact Hin|].
  destruct c as [|p0 c]; [congruence|].
  specialize (Hin p0 (list_elem_of_here _ _)).
  rewrite Hcen. unfold contains. cbn [fst snd Point2d.x Point2d.y
    Point2dFloat.x Point2dFloat.y].
  set (st := componentStats SWTImage (p0 :: c)) in *.
  rewrite !andb_true_iff, !Qle_bool_iff.
  assert (Hx : Stats.minx st <= Stats.maxx st) by lia.
  assert (Hy : Stats.miny st <= Stats.maxy st) by lia.
  rewrite Zle_Qle in Hx, Hy. rewrite inject_Z_plus.
  repeat split.
  - apply Qle_shift_div_l; lra.
  - apply Qle_shift_div_r; lra.
  - rewrite inject_Z_plus. apply Qle_shift_div_l; lra.
  - rewrite inject_Z_plus. apply Qle_shift_div_r; lra.
Qed.

End FilterProperties.

(** ** The ray transform and the median filter
    ([strokeWidthTransform], [SWTMedianFilter]) *)

Definition pixel_at (img : IplImage.t Q) (pt : Point2d.t) : Q :=
  CV_IMAGE_ELEM img (Point2d.y pt) (Point2d.x pt).

(** [bool Point2dSort(const Point2d &lhs, const Point2d &rhs)] *)
Definition Point2dSort (lhs rhs : Point2d.t) : bool :=
  Qltb (Point2d.SWT lhs) (Point2d.SWT rhs).

Section RayTransform.

(** [sqrt] of the C library. *)
Variable sqrt : Q -> Q.

(** The walk along the gradient from the edge pixel at [row], [col] (the
    [while (true)] loop with its sub-pixel steps): [None] when it leaves
    the image, [Some (points, facing)] when it reaches an edge pixel; then
    [points] are the pixels pushed on the way, the start first and the
    pixel reached last, and [facing] is the test
    [acos(G_x * -G_xt + G_y * -G_yt) < PI / 2.0]. *)
Variable walk : Z -> Z -> option (list Point2d.t * bool).

Variable params : Params.t.
Variable edgeImage : IplImage.t Z.

(** [length]: the distance from [r.p] to [r.q]. *)
Definition ray_length (p q : Point2d.t) : Q :=
  let dx := (inject_Z (Point2d.x q) - inject_Z (Point2d.x p))%Q in
  let dy := (inject_Z (Point2d.y q) - inject_Z (Point2d.y p))%Q in
  sqrt (dx * dx + dy * dy)%Q.

(** The body of the loop over [points] of an accepted ray. *)
Definition write_length (length : Q) (SWTImage : IplImage.t Q)
    (pit : Point2d.t) : IplImage.t Q :=
  if Qltb (pixel_at SWTImage pit) 0
  then set_elem SWTImage (Point2d.y pit) (Point2d.x pit) length
  else set_elem SWTImage (Point2d.y pit) (Point2d.x pit)
         (fmin length (pixel_at SWTImage pit)).

(** What the program does for the edge pixel at [row], [col]. *)
Definition cast_ray (row col : Z) (st : IplImage.t Q * list Ray.t)
    : IplImage.t Q * list Ray.t :=
  let '(SWTImage, rays) := st in
  match walk row col with
  | Some (points, facing) =>
      let p := Point2d.mk col row 0 in
      let q := List.last points p in
      if facing then
        let length := ray_length p q in
        if Qltb (Params.maxStrokeLength params) length then st
        else (fold_left (write_length length) points SWTImage,
              rays ++ [Ray.mk p q points])
      else st
  | None => st
  end.

(** [strokeWidthTransform]: the map and the rays after the scan of the
    edge image. *)
Definition strokeWidthTransform (SWTImage : IplImage.t Q) (rays : list Ray.t)
    : IplImage.t Q * list Ray.t :=
  fold_left
    (fun st row =>
       fold_left
         (fun st col =>
            if 0 <? CV_IMAGE_ELEM edgeImage row col
            then cast_ray row col st else st)
         (range (IplImage.width edgeImage)) st)
    (range (IplImage.height edgeImage)) (SWTImage, rays).

(** The body of the loop of [SWTMedianFilter] for one ray: the map after
    it and the ray, whose points now carry their widths and are sorted. *)
Definition median_filter_ray (SWTImage : IplImage.t Q) (rit : Ray.t)
    : IplImage.t Q * Ray.t :=
  let points :=
    map (fun pit =>
           Point2d.mk (Point2d.x pit) (Point2d.y pit) (pixel_at SWTImage pit))
      (Ray.points rit) in
  let points := Sort.sort Point2dSort points in
  let median := Point2d.SWT (points !!! (length points / 2)%nat) in
  (fold_left
     (fun img pit =>
        set_elem img (Point2d.y pit) (Point2d.x pit)
          (fmin (Point2d.SWT pit) median))
     points SWTImage,
   Ray.mk (Ray.p rit) (Ray.q rit) points).

(** [SWTMedianFilter] *)
Definition SWTMedianFilter (SWTImage : IplImage.t Q) (rays : list Ray.t)
    : IplImage.t Q * list Ray.t :=
  fold_left
    (fun '(img, done) rit =>
       let '(img', rit') := median_filter_ray img rit in
       (img', done ++ [rit']))
    rays (SWTImage, []).

(** *** Properties *)

Hypothesis sqrt_nonneg : forall a, (0 <= sqrt a)%Q.

Lemma pixel_at_set_elem img row col v pt :
  pixel_at (set_elem img row col v) pt
  = if decide (Point2d.y pt = row /\ Point2d.x pt = col) then v
    else pixel_at img pt.
Proof.
  unfold pixel_at, set_elem, CV_IMAGE_ELEM. cbn [IplImage.elem].
  destruct (Z.eq_dec (Point2d.y pt) row), (Z.eq_dec (Point2d.x pt) col);
    case_decide; try reflexivity; tauto.
Qed.

(** One write of a length [len >= 0]: the pixel written ends in
    [0 .. len]; a pixel that held a width keeps a width no larger. *)
Lemma write_length_spec (len : Q) img pit pt :
  (0 <= len)%Q ->
  let img' := write_length len img pit in
  ((0 <= pixel_at img pt ->
    0 <= pixel_at img' pt /\ pixel_at img' pt <= pixel_at img pt)
   /\ (Point2d.y pt = Point2d.y pit /\ Point2d.x pt = Point2d.x pit ->
       0 <= pixel_at img' pt /\ pixel_at img' pt <= len))%Q.
Proof.
  intros Hlen. cbn zeta. unfold write_length.
  destruct (Qltb (pixel_at img pit) 0) eqn:E;
    rewrite pixel_at_set_elem; case_decide as Hd.
  - apply Qltb_lt in E. split; [|intros _; lra].
    intros H0. exfalso.
    assert (pixel_at img pt = pixel_at img pit) as Heq
      by (unfold pixel_at; destruct Hd as [-> ->]; reflexivity).
    rewrite Heq in H0. lra.
  - split; [intros; lra | tauto].
  - apply Qltb_ge in E.
    assert (pixel_at img pt = pixel_at img pit) as Heq
      by (unfold pixel_at; destruct Hd as [-> ->]; reflexivity).
    pose proof (fmin_le_l len (pixel_at img pit)).
    pose proof (fmin_le_r len (pixel_at img pit)).
    pose proof (fmin_glb len (pixel_at img pit) 0 Hlen E).
    rewrite Heq. split; intros; lra.
  - split; [intros; lra | tauto].
Qed.

Lemma write_lengths_spec (len : Q) points img pt :
  (0 <= len)%Q ->
  let img' := fold_left (write_length len) points img in
  ((0 <= pixel_at img pt ->
    0 <= pixel_at img' pt /\ pixel_at img' pt <= pixel_at img pt)
   /\ (pt ∈ points -> 0 <= pixel_at img' pt /\ pixel_at img' pt <= len))%Q.
Proof.
  intros Hlen. revert img. induction points as [|pit points IH]; intros img.
  - cbn. split; [intros; lra|]. intros H. inversion H.
  - cbn [fold_left]. cbn zeta.
    specialize (IH (write_length len img pit)). cbn zeta in IH.
    destruct IH as [IH1 IH2].
    destruct (write_length_spec len img pit pt Hlen) as [W1 W2].
    split.
    + intros H0. destruct (W1 H0) as [? ?]. destruct IH1 as [? ?]; [lra|].
      split; lra.
    + intros Hin. apply elem_of_cons in Hin as [->|Hin]; [|now apply IH2].
      destruct W2 as [? ?]; [tauto|].
      destruct IH1 as [? ?]; [lra|]. split; lra.
Qed.

(** The invariant of the scan: on the path of every ray accepted so far
    the map holds a width between 0 and the length of the ray. *)
Definition paths_bounded (st : IplImage.t Q * list Ray.t) : Prop :=
  forall r pt, r ∈ snd st -> pt ∈ Ray.points r ->
    (0 <= pixel_at (fst st) pt
     /\ pixel_at (fst st) pt <= ray_length (Ray.p r) (Ray.q r))%Q.

Lemma cast_ray_bounded row col st :
  paths_bounded st -> paths_bounded (cast_ray row col st).
Proof.
  intros Hinv. unfold cast_ray. destruct st as [img rays].
  destruct (walk row col) as [[points facing]|]; [|exact Hinv].
  destruct facing; [|exact Hinv]. cbv zeta.
  destruct (Qltb _ _); [exact Hinv|].
  set (p := Point2d.mk col row 0). set (q := List.last points p).
  intros r pt Hr Hpt. cbn [fst snd] in *.
  pose proof (write_lengths_spec (ray_length p q) points img pt
                (sqrt_nonneg _)) as [W1 W2].
  apply elem_of_app in Hr as [Hr|Hr].
  - destruct (Hinv r pt Hr Hpt) as [H0 Hle]. cbn [fst snd] in *.
    destruct (W1 H0) as [? ?]. split; lra.
  - apply list_elem_of_singleton in Hr as ->. cbn [Ray.points Ray.p Ray.q] in *.
    apply W2, Hpt.
Qed.

Lemma strokeWidthTransform_bounded SWTImage :
  paths_bounded (strokeWidthTransform SWTImage []).
Proof.
  unfold strokeWidthTransform.
  assert (H0 : paths_bounded (SWTImage, [])).
  { intros r pt Hr. inversion Hr. }
  revert H0. generalize (SWTImage, @nil Ray.t).
  induction (range (IplImage.height edgeImage)) as [|row rows IH];
    intros st Hst; [exact Hst|].
  cbn [fold_left]. apply IH. clear IH.
  revert st Hst.
  induction (range (IplImage.width edgeImage)) as [|col cols IH];
    intros st Hst; [exact Hst|].
  cbn [fold_left]. apply IH.
  destruct (0 <? _); [now apply cast_ray_bounded | exact Hst].
Qed.

(** The median filter of one ray lowers the map, pixel by pixel. *)
Lemma median_filter_ray_le img rit pt :
  (pixel_at (fst (median_filter_ray img rit)) pt <= pixel_at img pt)%Q.
Proof.
  unfold median_filter_ray. cbn [fst].
  set (points := Sort.sort Point2dSort _).
  set (median := Point2d.SWT _).
  assert (Hread : forall pit, pit ∈ points ->
            Point2d.SWT pit = pixel_at img pit).
  { intros pit Hin. subst points. apply Sort.sort_elem_of in Hin.
    apply list_elem_of_fmap in Hin as (pit0 & -> & _). reflexivity. }
  clearbody points median.
  assert (Hgen : forall img', (pixel_at img' pt <= pixel_at img pt)%Q ->
    (pixel_at
       (fold_left
          (fun img0 pit =>
             set_elem img0 (Point2d.y pit) (Point2d.x pit)
               (fmin (Point2d.SWT pit) median)) points img') pt
     <= pixel_at img pt)%Q).
  { induction points as [|pit points IH]; intros img' Hle; [exact Hle|].
    cbn [fold_left]. apply IH.
    - intros pit' Hin. apply Hread. now right.
    - rewrite pixel_at_set_elem. case_decide as Hd; [|exact Hle].
      assert (pixel_at img pit = pixel_at img pt) as <-
        by (unfold pixel_at; destruct Hd as [-> ->]; reflexivity).
      rewrite <- (Hread pit) by left.
      apply fmin_le_l. }
  apply Hgen. lra.
Qed.

Lemma SWTMedianFilter_le img rays pt :
  (pixel_at (fst (SWTMedianFilter img rays)) pt <= pixel_at img pt)%Q.
Proof.
  unfold SWTMedianFilter.
  assert (Hgen : forall (acc : list Ray.t) img',
    (pixel_at img' pt <= pixel_at img pt)%Q ->
    (pixel_at
       (fst (fold_left
               (fun '(img0, done) rit =>
                  let '(img1, rit') := median_filter_ray img0 rit in
                  (img1, done ++ [rit']))
               rays (img', acc))) pt
     <= pixel_at img pt)%Q).
  { induction rays as [|rit rays IH]; intros acc img' Hle; [exact Hle|].
    cbn [fold_left].
    pose proof (median_filter_ray_le img' rit pt) as Hstep.
    destruct (median_filter_ray img' rit) as [img1 rit'].
    cbn [fst] in Hstep. apply IH. lra. }
  apply Hgen. lra.
Qed.

(** A pixel that lies on no accepted path is the same pixel of the map. *)
Definition off_paths (rays : list Ray.t) (pt : Point2d.t) : Prop :=
  forall r pit, r ∈ rays -> pit ∈ Ray.points r ->
    ~ (Point2d.y pt = Point2d.y pit /\ Point2d.x pt = Point2d.x pit).

Lemma write_lengths_off_path (len : Q) points img pt :
  (forall pit, pit ∈ points ->
     ~ (Point2d.y pt = Point2d.y pit /\ Point2d.x pt = Point2d.x pit)) ->
  pixel_at (fold_left (write_length len) points img) pt = pixel_at img pt.
Proof.
  revert img. induction points as [|pit points IH]; intros img Hoff;
    [reflexivity|].
  cbn [fold_left]. rewrite IH by (intros pit' Hin; apply Hoff; now right).
  unfold write_length.
  destruct (Qltb (pixel_at img pit) 0); rewrite pixel_at_set_elem;
    (case_decide as Hd; [exfalso; now apply (Hoff pit); [left|] | reflexivity]).
Qed.

(** The transform writes the map on the accepted paths only. *)
Lemma strokeWidthTransform_off_paths SWTImage pt :
  off_paths (snd (strokeWidthTransform SWTImage [])) pt ->
  pixel_at (fst (strokeWidthTransform SWTImage [])) pt = pixel_at SWTImage pt.
Proof.
  unfold strokeWidthTransform.
  rewrite (fold_rows_cols
             (fun row col st =>
                if 0 <? CV_IMAGE_ELEM edgeImage row col
                then cast_ray row col st else st)).
  set (pixels := flat_map _ _).
  assert (Hgen : forall l st,
    (off_paths (snd st) pt -> pixel_at (fst st) pt = pixel_at SWTImage pt) ->
    off_paths
      (snd (fold_left
              (fun st rc =>
                 if 0 <? CV_IMAGE_ELEM edgeImage (fst rc) (snd rc)
                 then cast_ray (fst rc) (snd rc) st else st) l st)) pt ->
    pixel_at
      (fst (fold_left
              (fun st rc =>
                 if 0 <? CV_IMAGE_ELEM edgeImage (fst rc) (snd rc)
                 then cast_ray (fst rc) (snd rc) st else st) l st)) pt
    = pixel_at SWTImage pt).
  { induction l as [|[row col] l IH]; intros st Hst; [exact Hst|].
    cbn [fold_left fst snd]. apply IH.
    destruct (0 <? _); [|exact Hst].
    unfold cast_ray. destruct st as [img rays].
    destruct (walk row col) as [[points facing]|]; [|exact Hst].
    destruct facing; [|exact Hst]. cbv zeta.
    destruct (Qltb _ _); [exact Hst|].
    cbn [fst snd] in *. intros Hoff.
    rewrite write_lengths_off_path.
    - apply Hst. intros r pit Hr. apply Hoff, elem_of_app. now left.
    - intros pit Hpit. apply (Hoff (Ray.mk (Point2d.mk col row 0)
                                     (List.last points (Point2d.mk col row 0))
                                     points)); [|exact Hpit].
      apply elem_of_app. right. left. }
  apply Hgen. reflexivity.
Qed.

(** C5. After the ray transform (from any initial map) and the median
    filter, every pixel on the path of an accepted ray holds a value that
    is at most the length of that ray: the transform leaves at most the
    length on the path of each ray it accepts and writes nowhere else, and
    the median filter only lowers the map. *)
Theorem swt_value_le_ray_length (SWTImage : IplImage.t Q) :
  let '(SWT1, rays) := strokeWidthTransform SWTImage [] in
  let '(SWT2, _) := SWTMedianFilter SWT1 rays in
  (forall r pt, r ∈ rays -> pt ∈ Ray.points r ->
     (pixel_at SWT1 pt <= ray_length (Ray.p r) (Ray.q r)
      /\ pixel_at SWT2 pt <= ray_length (Ray.p r) (Ray.q r))%Q)
  /\ (forall pt, off_paths rays pt -> pixel_at SWT1 pt = pixel_at SWTImage pt)
  /\ (forall pt, (pixel_at SWT2 pt <= pixel_at SWT1 pt)%Q).
Proof.
  pose proof (strokeWidthTransform_bounded SWTImage) as Hb.
  pose proof (strokeWidthTransform_off_paths SWTImage) as Hoff.
  destruct (strokeWidthTransform SWTImage []) as [SWT1 rays].
  pose proof (SWTMedianFilter_le SWT1 rays) as Hm.
  destruct (SWTMedianFilter SWT1 rays) as [SWT2 rays'].
  unfold paths_bounded in Hb. cbn [fst snd] in *.
  split; [|split; [exact Hoff | exact Hm]].
  intros r pt Hr Hpt.
  destruct (Hb r pt Hr Hpt) as [_ Hle]. specialize (Hm pt).
  split; lra.
Qed.

(** *** Which pixels are written, and with what *)

Lemma fmin_cases a b : fmin a b = a \/ fmin a b = b.
Proof. unfold fmin. destruct (Qltb b a); auto. Qed.

(** [pt] is a pixel of the path of one of the rays. *)
Definition on_paths (rays : list Ray.t) (pt : Point2d.t) : Prop :=
  exists r pit, r ∈ rays /\ pit ∈ Ray.points r
    /\ Point2d.y pt = Point2d.y pit /\ Point2d.x pt = Point2d.x pit.

Lemma on_paths_off_paths rays pt : on_paths rays pt -> off_paths rays pt -> False.
Proof.
  intros (r & pit & Hr & Hpit & Hy & Hx) Hoff.
  apply (Hoff r pit Hr Hpit). now split.
Qed.

Lemma pixel_at_coords img pt pit :
  Point2d.y pt = Point2d.y pit -> Point2d.x pt = Point2d.x pit ->
  pixel_at img pt = pixel_at img pit.
Proof. unfold pixel_at. now intros -> ->. Qed.

Lemma write_lengths_touched (len : Q) points img pt :
  pixel_at (fold_left (write_length len) points img) pt = pixel_at img pt
  \/ exists pit, pit ∈ points
       /\ Point2d.y pt = Point2d.y pit /\ Point2d.x pt = Point2d.x pit.
Proof.
  revert img. induction points as [|pit points IH]; intros img; [now left|].
  cbn [fold_left].
  destruct (IH (write_length len img pit)) as [Heq|(pit' & Hin & Hsame)].
  - rewrite Heq. unfold write_length.
    destruct (Qltb (pixel_at img pit) 0); rewrite pixel_at_set_elem;
      (case_decide as Hd; [right; exists pit; split; [left | exact Hd]
                          | now left]).
  - right. exists pit'. split; [now right | exact Hsame].
Qed.

(** The rays the transform records. *)
Definition recorded (r : Ray.t) : Prop :=
  exists row col,
    0 <= row < IplImage.height edgeImage
    /\ 0 <= col < IplImage.width edgeImage
    /\ 0 < CV_IMAGE_ELEM edgeImage row col
    /\ walk row col = Some (Ray.points r, true)
    /\ Ray.p r = Point2d.mk col row 0
    /\ Ray.q r = List.last (Ray.points r) (Ray.p r)
    /\ (ray_length (Ray.p r) (Ray.q r) <= Params.maxStrokeLength params)%Q.

(** [*ptr > 0] at a pixel of the edge image. *)
Definition is_edge (rc : Z * Z) : bool :=
  0 <? CV_IMAGE_ELEM edgeImage (fst rc) (snd rc).

(** The edge pixels, in the order of the scan. *)
Definition edge_pixels : list (Z * Z) :=
  List.filter is_edge
    (flat_map (fun row => map (pair row) (range (IplImage.width edgeImage)))
       (range (IplImage.height edgeImage))).

Lemma elem_of_rows_cols (w h row col : Z) :
  (row, col) ∈ flat_map (fun row => map (pair row) (range w)) (range h)
  <-> 0 <= row < h /\ 0 <= col < w.
Proof.
  unfold range. rewrite list_elem_of_In, in_flat_map. split.
  - intros (r & Hr & Hc). apply list_elem_of_In, elem_of_seqZ in Hr.
    apply list_elem_of_In, list_elem_of_fmap in Hc as (c & [= -> ->] & Hc).
    apply elem_of_seqZ in Hc. lia.
  - intros [Hr Hc]. exists row. split.
    + apply list_elem_of_In, elem_of_seqZ. lia.
    + apply list_elem_of_In, list_elem_of_fmap. exists col.
      split; [reflexivity|]. apply elem_of_seqZ. lia.
Qed.

(** What the scan of the edge image does to the map and to the rays,
    pixel by pixel. *)
Lemma strokeWidthTransform_scan (SWTImage : IplImage.t Q) (rays0 : list Ray.t) :
  let st := strokeWidthTransform SWTImage rays0 in
  exists new,
    snd st = rays0 ++ new
    /\ Forall recorded new
    /\ (length new <= length edge_pixels)%nat
    /\ forall pt, pixel_at (fst st) pt = pixel_at SWTImage pt \/ on_paths new pt.
Proof.
  cbv zeta. unfold strokeWidthTransform, edge_pixels.
  rewrite (fold_rows_cols
             (fun row col st =>
                if 0 <? CV_IMAGE_ELEM edgeImage row col
                then cast_ray row col st else st)).
  set (pixels := flat_map _ _).
  assert (Hpix : forall rc, rc ∈ pixels ->
            0 <= fst rc < IplImage.height edgeImage
            /\ 0 <= snd rc < IplImage.width edgeImage).
  { intros [row col] Hrc. subst pixels. now apply elem_of_rows_cols in Hrc. }
  clearbody pixels.
  assert (Hgen : forall l st0,
    (forall rc, rc ∈ l ->
       0 <= fst rc < IplImage.height edgeImage
       /\ 0 <= snd rc < IplImage.width edgeImage) ->
    let st :=
      fold_left
        (fun st rc =>
           if 0 <? CV_IMAGE_ELEM edgeImage (fst rc) (snd rc)
           then cast_ray (fst rc) (snd rc) st else st) l st0 in
    exists new,
      snd st = snd st0 ++ new
      /\ Forall recorded new
      /\ (length new
          <= length (List.filter
                       is_edge
                       l))%nat
      /\ forall pt, pixel_at (fst st) pt = pixel_at (fst st0) pt
                    \/ on_paths new pt).
  { induction l as [|[row col] l IH]; intros st0 Hl; cbv zeta.
    - exists []. cbn [fold_left]. rewrite app_nil_r.
      split; [reflexivity|]. split; [constructor|]. split; [reflexivity|].
      intros pt. now left.
    - cbn [fold_left fst snd List.filter]. unfold is_edge at 1 3.
      cbn [fst snd].
      assert (Hrc : 0 <= row < IplImage.height edgeImage
                    /\ 0 <= col < IplImage.width edgeImage)
        by (apply (Hl (row, col)); left).
      assert (Hl' : forall rc, rc ∈ l ->
                0 <= fst rc < IplImage.height edgeImage
                /\ 0 <= snd rc < IplImage.width edgeImage)
        by (intros rc Hin; apply Hl; now right).
      assert (Hkeep : forall st1, st1 = st0 ->
        exists new,
          snd (fold_left
                 (fun st rc =>
                    if 0 <? CV_IMAGE_ELEM edgeImage (fst rc) (snd rc)
                    then cast_ray (fst rc) (snd rc) st else st) l st1)
          = snd st0 ++ new
          /\ Forall recorded new
          /\ (length new
              <= length (List.filter
                           is_edge
                           l))%nat
          /\ forall pt,
               pixel_at
                 (fst (fold_left
                         (fun st rc =>
                            if 0 <? CV_IMAGE_ELEM edgeImage (fst rc) (snd rc)
                            then cast_ray (fst rc) (snd rc) st else st) l st1))
                 pt = pixel_at (fst st0) pt
               \/ on_paths new pt).
      { intros st1 ->. apply (IH st0 Hl'). }
      destruct (Z.ltb_spec 0 (CV_IMAGE_ELEM edgeImage row col)) as [Hedge|Hno].
      2:{ destruct (Hkeep st0 eq_refl) as (new & H1 & H2 & H3 & H4).
          exists new. repeat split; assumption. }
      assert (Hskip : forall st1, st1 = st0 ->
        exists new,
          snd (fold_left
                 (fun st rc =>
                    if 0 <? CV_IMAGE_ELEM edgeImage (fst rc) (snd rc)
                    then cast_ray (fst rc) (snd rc) st else st) l st1)
          = snd st0 ++ new
          /\ Forall recorded new
          /\ (length new
              <= length
                   ((row, col)
                    :: List.filter
                         is_edge
                         l))%nat
          /\ forall pt,
               pixel_at
                 (fst (fold_left
                         (fun st rc =>
                            if 0 <? CV_IMAGE_ELEM edgeImage (fst rc) (snd rc)
                            then cast_ray (fst rc) (snd rc) st else st) l st1))
                 pt = pixel_at (fst st0) pt
               \/ on_paths new pt).
      { intros st1 Hst1. destruct (Hkeep st1 Hst1) as (new & H1 & H2 & H3 & H4).
        exists new. cbn [length]. repeat split; try assumption. lia. }
      unfold cast_ray at 2 4. destruct st0 as [img rays].
      destruct (walk row col) as [[points facing]|] eqn:Hwalk;
        [|now apply Hskip].
      destruct facing; [|now apply Hskip]. cbv zeta.
      destruct (Qltb _ _) eqn:Hlen; [now apply Hskip|].
      apply Qltb_ge in Hlen.
      set (p := Point2d.mk col row 0) in *.
      set (q := List.last points p) in *.
      destruct (IH (fold_left (write_length (ray_length p q)) points img,
                    rays ++ [Ray.mk p q points]) Hl')
        as (new & H1 & H2 & H3 & H4).
      cbn [fst snd] in *.
      exists (Ray.mk p q points :: new).
      split; [now rewrite H1, <- app_assoc|].
      split.
      { constructor; [|exact H2]. exists row, col.
        cbn [Ray.p Ray.q Ray.points]. repeat split; try lia; assumption. }
      split; [cbn [length]; lia|].
      intros pt. destruct (H4 pt) as [Heq|(r & pit & Hr & Hpit & Hsame)].
      + rewrite Heq.
        destruct (write_lengths_touched (ray_length p q) points img pt)
          as [Heq'|(pit & Hpit & Hsame)]; [now left|].
        right. exists (Ray.mk p q points), pit.
        split; [left|]. split; [exact Hpit | exact Hsame].
      + right. exists r, pit. split; [now right|]. split; assumption. }
  destruct (Hgen pixels (SWTImage, rays0) Hpix) as (new & H1 & H2 & H3 & H4).
  exists new. repeat split; assumption.
Qed.

(** X8. The rays [strokeWidthTransform] records are appended to the
    vector it was given, at most one for each edge pixel, in the order of
    the scan.  Each of them starts at an edge pixel of the image, ends at
    the last pixel of its walk, faced an edge of opposite gradient, and is
    no longer than [params.maxStrokeLength]. *)
Theorem strokeWidthTransform_rays (SWTImage : IplImage.t Q) (rays0 : list Ray.t) :
  exists new,
    snd (strokeWidthTransform SWTImage rays0) = rays0 ++ new
    /\ (length new <= length edge_pixels)%nat
    /\ forall r, r ∈ new ->
         exists row col,
           0 <= row < IplImage.height edgeImage
           /\ 0 <= col < IplImage.width edgeImage
           /\ 0 < CV_IMAGE_ELEM edgeImage row col
           /\ walk row col = Some (Ray.points r, true)
           /\ Ray.p r = Point2d.mk col row 0
           /\ Ray.q r = List.last (Ray.points r) (Ray.p r)
           /\ (ray_length (Ray.p r) (Ray.q r)
               <= Params.maxStrokeLength params)%Q.
Proof.
  destruct (strokeWidthTransform_scan SWTImage rays0)
    as (new & H1 & H2 & H3 & _).
  exists new. split; [exact H1|]. split; [exact H3|].
  intros r Hr. rewrite List.Forall_forall in H2.
  apply (H2 r), list_elem_of_In, Hr.
Qed.

(** The median filter of one ray writes on the path of the ray only, and
    what it writes is the value the map held at a pixel of the path. *)
Lemma median_filter_ray_values img rit pt :
  pixel_at (fst (median_filter_ray img rit)) pt = pixel_at img pt
  \/ ((exists pit, pit ∈ Ray.points rit
         /\ Point2d.y pt = Point2d.y pit /\ Point2d.x pt = Point2d.x pit)
      /\ exists q, q ∈ Ray.points rit
           /\ pixel_at (fst (median_filter_ray img rit)) pt = pixel_at img q).
Proof.
  unfold median_filter_ray. cbn [fst].
  set (points := Sort.sort Point2dSort _).
  set (median := Point2d.SWT _).
  assert (Hread : forall pit, pit ∈ points ->
            exists pit0, pit0 ∈ Ray.points rit
              /\ Point2d.SWT pit = pixel_at img pit0
              /\ Point2d.y pit = Point2d.y pit0
              /\ Point2d.x pit = Point2d.x pit0).
  { intros pit Hin. subst points. apply Sort.sort_elem_of in Hin.
    apply list_elem_of_fmap in Hin as (pit0 & -> & Hin).
    exists pit0. split; [exact Hin|]. repeat split; reflexivity. }
  assert (Hmed : points <> [] ->
            exists q, q ∈ Ray.points rit /\ median = pixel_at img q).
  { intros Hne. subst median.
    assert (Hk : (length points / 2 < length points)%nat).
    { apply Nat.div_lt; [|lia]. destruct points; [congruence | cbn; lia]. }
    destruct (lookup_lt_is_Some_2 points _ Hk) as [m Hm].
    rewrite (list_lookup_total_correct _ _ _ Hm).
    destruct (Hread m) as (q & Hq & Hswt & _);
      [eapply list_elem_of_lookup_2, Hm|].
    exists q. split; [exact Hq | exact Hswt]. }
  assert (Hgen : forall l img',
    (forall pit, pit ∈ l -> pit ∈ points) ->
    (pixel_at img' pt = pixel_at img pt
     \/ ((exists pit, pit ∈ Ray.points rit
            /\ Point2d.y pt = Point2d.y pit /\ Point2d.x pt = Point2d.x pit)
         /\ exists q, q ∈ Ray.points rit /\ pixel_at img' pt = pixel_at img q)) ->
    let img'' :=
      fold_left
        (fun img0 pit =>
           set_elem img0 (Point2d.y pit) (Point2d.x pit)
             (fmin (Point2d.SWT pit) median)) l img' in
    pixel_at img'' pt = pixel_at img pt
    \/ ((exists pit, pit ∈ Ray.points rit
           /\ Point2d.y pt = Point2d.y pit /\ Point2d.x pt = Point2d.x pit)
        /\ exists q, q ∈ Ray.points rit /\ pixel_at img'' pt = pixel_at img q)).
  { induction l as [|pit l IH]; intros img' Hl Himg'; [exact Himg'|].
    cbn [fold_left]. apply IH; [intros pit' Hin; apply Hl; now right|].
    rewrite pixel_at_set_elem. case_decide as Hd; [|exact Himg'].
    right.
    assert (Hpit : pit ∈ points) by (apply Hl; left).
    destruct (Hread pit Hpit) as (pit0 & Hpit0 & Hswt & Hy & Hx).
    split.
    - exists pit0. split; [exact Hpit0|]. destruct Hd as [Hd1 Hd2].
      split; congruence.
    - destruct (fmin_cases (Point2d.SWT pit) median) as [->| ->].
      + exists pit0. split; [exact Hpit0 | exact Hswt].
      + apply Hmed. intros Hnil. rewrite Hnil in Hpit. inversion Hpit. }
  apply Hgen; [tauto | now left].
Qed.

Lemma median_filter_ray_snd img rit :
  snd (median_filter_ray img rit)
  = Ray.mk (Ray.p rit) (Ray.q rit)
      (Sort.sort Point2dSort
         (map (fun pit =>
                 Point2d.mk (Point2d.x pit) (Point2d.y pit) (pixel_at img pit))
            (Ray.points rit))).
Proof. reflexivity. Qed.

(** The state of the loop of [SWTMedianFilter] after the rays [done]. *)
Lemma SWTMedianFilter_fold (img0 : IplImage.t Q) (all : list Ray.t)
    (Inv : IplImage.t Q -> Prop) (R : Ray.t -> Ray.t -> Prop) :
  (forall img rit, rit ∈ all -> Inv img ->
     Inv (fst (median_filter_ray img rit))
     /\ R rit (snd (median_filter_ray img rit))) ->
  forall rays, (forall r, r ∈ rays -> r ∈ all) ->
  Inv img0 ->
  Inv (fst (SWTMedianFilter img0 rays))
  /\ Forall2 R rays (snd (SWTMedianFilter img0 rays)).
Proof.
  intros Hstep rays Hsub Hinv. unfold SWTMedianFilter.
  assert (Hgen : forall l (done0 done : list Ray.t) img,
    (forall r, r ∈ l -> r ∈ all) -> Inv img -> Forall2 R done0 done ->
    let st :=
      fold_left
        (fun '(img1, done1) rit =>
           let '(img', rit') := median_filter_ray img1 rit in
           (img', done1 ++ [rit'])) l (img, done) in
    Inv (fst st) /\ Forall2 R (done0 ++ l) (snd st)).
  { induction l as [|rit l IH]; intros done0 done img Hl Himg Hdone; cbv zeta.
    - cbn [fold_left fst snd]. rewrite app_nil_r. now split.
    - cbn [fold_left].
      destruct (Hstep img rit) as [Hi Hr]; [apply Hl; left | exact Himg|].
      destruct (median_filter_ray img rit) as [img' rit'] eqn:E.
      cbn [fst snd] in Hi, Hr.
      specialize (IH (done0 ++ [rit]) (done ++ [rit']) img').
      cbv zeta in IH. rewrite <- app_assoc in IH. cbn [app] in IH.
      apply IH; [intros r Hin; apply Hl; now right | exact Hi|].
      apply Forall2_app; [exact Hdone|]. now constructor. }
  apply (Hgen rays [] [] img0 Hsub Hinv). constructor.
Qed.

(** X9. [SWTMedianFilter] keeps the rays and their end points; the
    pixels of every ray come back ordered by stroke width, the same
    pixels as before.  It writes on the paths of the rays only, and what
    it leaves at a pixel is a value the map held, before the filter, at
    that pixel or at a pixel of one of the rays. *)
Theorem SWTMedianFilter_rays (img : IplImage.t Q) (rays : list Ray.t) :
  let img' := fst (SWTMedianFilter img rays) in
  let rays' := snd (SWTMedianFilter img rays) in
  let coords := fun pit : Point2d.t => (Point2d.x pit, Point2d.y pit) in
  Forall2
    (fun r r' =>
       Ray.p r' = Ray.p r /\ Ray.q r' = Ray.q r
       /\ map coords (Ray.points r') ≡ₚ map coords (Ray.points r)
       /\ StronglySorted (fun a b => (Point2d.SWT a <= Point2d.SWT b)%Q)
            (Ray.points r'))
    rays rays'
  /\ (forall pt, off_paths rays pt -> pixel_at img' pt = pixel_at img pt)
  /\ (forall pt,
        pixel_at img' pt = pixel_at img pt
        \/ (on_paths rays pt
            /\ exists r q, r ∈ rays /\ q ∈ Ray.points r
                 /\ pixel_at img' pt = pixel_at img q)).
Proof.
  cbv zeta.
  set (Inv := fun img1 : IplImage.t Q =>
    forall pt,
      pixel_at img1 pt = pixel_at img pt
      \/ (on_paths rays pt
          /\ exists r q, r ∈ rays /\ q ∈ Ray.points r
               /\ pixel_at img1 pt = pixel_at img q)).
  destruct (SWTMedianFilter_fold img rays Inv
    (fun r r' =>
       Ray.p r' = Ray.p r /\ Ray.q r' = Ray.q r
       /\ map (fun pit : Point2d.t => (Point2d.x pit, Point2d.y pit))
            (Ray.points r')
          ≡ₚ map (fun pit : Point2d.t => (Point2d.x pit, Point2d.y pit))
               (Ray.points r)
       /\ StronglySorted (fun a b => (Point2d.SWT a <= Point2d.SWT b)%Q)
            (Ray.points r'))) with (rays := rays) as [Hinv Hrays].
  - intros img1 rit Hrit Himg1. split.
    + intros pt.
      destruct (median_filter_ray_values img1 rit pt)
        as [Heq|((pit & Hpit & Hsame) & q & Hq & Hval)].
      * rewrite Heq. apply Himg1.
      * right. split; [exists rit, pit; split; [exact Hrit|]; now split|].
        rewrite Hval. destruct (Himg1 q) as [Heq|(_ & r & q' & Hr & Hq' & Heq)].
        -- exists rit, q. split; [exact Hrit|]. split; [exact Hq | exact Heq].
        -- exists r, q'. split; [exact Hr|]. split; [exact Hq' | exact Heq].
    + rewrite median_filter_ray_snd. cbn [Ray.p Ray.q Ray.points].
      split; [reflexivity|]. split; [reflexivity|]. split.
      * rewrite (Sort.sort_perm Point2dSort). rewrite map_map. cbn.
        reflexivity.
      * apply sort_StronglySorted.
        -- intros x y z. apply Qle_trans.
        -- intros x y H. unfold Point2dSort in H. apply Qltb_lt in H.
           now apply Qlt_le_weak.
        -- intros x y H. unfold Point2dSort in H. now apply Qltb_ge in H.
  - tauto.
  - intros pt. now left.
  - split; [exact Hrays|]. split; [|exact Hinv].
    intros pt Hoff. destruct (Hinv pt) as [Heq|[Hon _]]; [exact Heq|].
    exfalso. eapply on_paths_off_paths; eassumption.
Qed.

(** X10. From the map [detect] starts with, -1 at every pixel, the
    transform and the median filter leave a map whose pixels are of two
    kinds: a pixel on the path of a recorded ray holds a width between 0
    and [params.maxStrokeLength], which the filter has not raised; every
    other pixel still holds -1. *)
Theorem swt_values_after_filter (SWTImage : IplImage.t Q) :
  (forall pt, pixel_at SWTImage pt = (-1)%Q) ->
  let SWT1 := fst (strokeWidthTransform SWTImage []) in
  let rays := snd (strokeWidthTransform SWTImage []) in
  let SWT2 := fst (SWTMedianFilter SWT1 rays) in
  forall pt,
    (on_paths rays pt ->
     0 <= pixel_at SWT2 pt /\ pixel_at SWT2 pt <= pixel_at SWT1 pt
     /\ pixel_at SWT1 pt <= Params.maxStrokeLength params)%Q
    /\ (off_paths rays pt ->
        pixel_at SWT1 pt = (-1)%Q /\ pixel_at SWT2 pt = (-1)%Q)
    /\ (pixel_at SWT2 pt = (-1)%Q
        \/ (0 <= pixel_at SWT2 pt
            /\ pixel_at SWT2 pt <= Params.maxStrokeLength params)%Q).
Proof.
  intros Hinit. cbv zeta.
  pose proof (strokeWidthTransform_bounded SWTImage) as Hb.
  destruct (strokeWidthTransform_scan SWTImage [])
    as (new & Hnew & Hrec & _ & Htouch).
  cbv zeta in *. cbn [app] in Hnew.
  set (SWT1 := fst (strokeWidthTransform SWTImage [])) in *.
  set (rays := snd (strokeWidthTransform SWTImage [])) in *.
  rewrite <- Hnew in Hrec, Htouch. clear Hnew new.
  unfold paths_bounded in Hb. fold SWT1 rays in Hb.
  destruct (SWTMedianFilter_rays SWT1 rays) as (_ & Hoff & Hval).
  cbv zeta in *.
  pose proof (SWTMedianFilter_le SWT1 rays) as Hle.
  set (SWT2 := fst (SWTMedianFilter SWT1 rays)) in *.
  assert (Hpath : forall pt, on_paths rays pt ->
            (0 <= pixel_at SWT1 pt
             /\ pixel_at SWT1 pt <= Params.maxStrokeLength params)%Q).
  { intros pt (r & pit & Hr & Hpit & Hy & Hx).
    rewrite (pixel_at_coords SWT1 pt pit Hy Hx).
    destruct (Hb r pit Hr Hpit) as [H0 Hlen].
    rewrite List.Forall_forall in Hrec.
    destruct (Hrec r (proj1 (list_elem_of_In _ _) Hr))
      as (row & col & _ & _ & _ & _ & _ & _ & Hmax).
    split; lra. }
  assert (Hon : forall pt, on_paths rays pt ->
            (0 <= pixel_at SWT2 pt /\ pixel_at SWT2 pt <= pixel_at SWT1 pt
             /\ pixel_at SWT1 pt <= Params.maxStrokeLength params)%Q).
  { intros pt Hpt. destruct (Hpath pt Hpt) as [H0 Hmax].
    specialize (Hle pt). split; [|split; assumption].
    destruct (Hval pt) as [Heq|(_ & r & q & Hr & Hq & Heq)].
    - rewrite Heq. exact H0.
    - rewrite Heq. apply Hpath. exists r, q. repeat split; assumption. }
  intros pt. split; [apply Hon|]. split.
  - intros Hpt.
    assert (H1 : pixel_at SWT1 pt = (-1)%Q).
    { destruct (Htouch pt) as [Heq|Hpath'].
      - rewrite Heq. apply Hinit.
      - exfalso. eapply on_paths_off_paths; eassumption. }
    split; [exact H1|]. now rewrite (Hoff pt Hpt).
  - destruct (Hval pt) as [Heq|[Hpt _]].
    + destruct (Htouch pt) as [Heq'|Hpt].
      * left. rewrite Heq, Heq'. apply Hinit.
      * right. destruct (Hon pt Hpt) as (H0 & H1 & H2). split; lra.
    + right. destruct (Hon pt Hpt) as (H0 & H1 & H2). split; lra.
Qed.

End RayTransform.

(** ** The component graph ([findLegallyConnectedComponents]) *)

(** [boost::adjacency_list<vecS, vecS, undirectedS>]: the number of
    vertices and the edges in the order [boost::add_edge] added them. *)
Module Graph.
Record t := mk { num_vertices : nat; edges : list (nat * nat) }.
End Graph.

Definition add_edge (u v : nat) (g : Graph.t) : Graph.t :=
  Graph.mk (Graph.num_vertices g) (Graph.edges g ++ [(u, v)]).

(** The state of the first loop: [map], [revmap], [num_vertices]. *)
Definition Numbering : Type := gmap Z nat * gmap nat Point2d.t * nat.

(** The body of the first loop at one pixel. *)
Definition number_pixel (SWTImage : IplImage.t Q) (row col : Z)
    (st : Numbering) : Numbering :=
  let '(map, revmap, num_vertices) := st in
  if Qltb 0 (CV_IMAGE_ELEM SWTImage row col) then
    (<[row * IplImage.width SWTImage + col := num_vertices]> map,
     <[num_vertices := Point2d.mk col row 0]> revmap,
     S num_vertices)
  else st.

Definition number_vertices (SWTImage : IplImage.t Q) : Numbering :=
  fold_left
    (fun st row =>
       fold_left (fun st col => number_pixel SWTImage row col st)
         (range (IplImage.width SWTImage)) st)
    (range (IplImage.height SWTImage)) (∅, ∅, 0%nat).

(** The test in front of each [boost::add_edge], for the value [ptr] of
    the pixel and the value [other] of its neighbour:
    [other > 0 && (ptr / other <= 3.0 || other / ptr <= 3.0)]. *)
Definition edge_test (ptr other : Q) : bool :=
  Qltb 0 other && (Qle_bool (ptr / other) 3 || Qle_bool (other / ptr) 3).

(** [boost::add_edge(this_pixel, map.at(key), g)] under its test.  The
    graph is [None] once [map.at] has thrown [std::out_of_range]. *)
Definition link (map : gmap Z nat) (ptr other : Q) (this_pixel : nat)
    (key : Z) (g : option Graph.t) : option Graph.t :=
  if edge_test ptr other then
    g ← g; v ← map !! key; Some (add_edge this_pixel v g)
  else g.

(** The body of the second loop at one pixel: the neighbours to the
    right, right-down, down and left-down. *)
Definition link_pixel (SWTImage : IplImage.t Q) (map : gmap Z nat)
    (row col : Z) (g : option Graph.t) : option Graph.t :=
  let width := IplImage.width SWTImage in
  let height := IplImage.height SWTImage in
  let ptr := CV_IMAGE_ELEM SWTImage row col in
  if Qltb 0 ptr then
    let this_pixel := default 0%nat (map !! (row * width + col)) in
    let g :=
      if col + 1 <? width then
        link map ptr (CV_IMAGE_ELEM SWTImage row (col + 1)) this_pixel
          (row * width + col + 1) g
      else g in
    if row + 1 <? height then
      let g :=
        if col + 1 <? width then
          link map ptr (CV_IMAGE_ELEM SWTImage (row + 1) (col + 1)) this_pixel
            ((row + 1) * width + col + 1) g
        else g in
      let g :=
        link map ptr (CV_IMAGE_ELEM SWTImage (row + 1) col) this_pixel
          ((row + 1) * width + col) g in
      if 0 <=? col - 1 then
        link map ptr (CV_IMAGE_ELEM SWTImage (row + 1) (col - 1)) this_pixel
          ((row + 1) * width + col - 1) g
      else g
    else g
  else g.

Definition build_graph (SWTImage : IplImage.t Q) (map : gmap Z nat)
    (num_vertices : nat) : option Graph.t :=
  fold_left
    (fun g row =>
       fold_left (fun g col => link_pixel SWTImage map row col g)
         (range (IplImage.width SWTImage)) g)
    (range (IplImage.height SWTImage)) (Some (Graph.mk num_vertices [])).

(** *** [boost::connected_components]

    The library labels every vertex with the number of its connected
    component; the components are numbered from 0 in the order in which
    the search meets their first (smallest) vertex.  The embedding computes
    the same labelling: the smallest vertex of every component by merging
    along the edges, then the rank of that vertex among the smallest
    vertices. *)

(** Merging along one edge: the vertices labelled with the larger of the
    two labels take the smaller. *)
Definition merge_labels (lab : list nat) (e : nat * nat) : list nat :=
  let a := lab !!! fst e in
  let b := lab !!! snd e in
  map (fun l => if (l =? Nat.max a b)%nat then Nat.min a b else l) lab.

(** The smallest vertex of the component of every vertex. *)
Definition smallest_vertices (g : Graph.t) : list nat :=
  fold_left merge_labels (Graph.edges g) (seq 0 (Graph.num_vertices g)).

(** [connected_components(g, &c[0])]: the vector [c] and [num_comp]. *)
Definition connected_components (g : Graph.t) : list nat * nat :=
  let lab := smallest_vertices g in
  let roots :=
    List.filter (fun v => (lab !!! v =? v)%nat) (seq 0 (Graph.num_vertices g)) in
  (map (fun r => length (List.filter (fun root => (root <? r)%nat) roots)) lab,
   length roots).

(** The last loop: [components[c[j]].push_back(revmap[j])]. *)
Definition collect (revmap : gmap nat Point2d.t) (c : list nat)
    (num_vertices : nat) (components : list (list Point2d.t))
    : list (list Point2d.t) :=
  fold_left
    (fun components j =>
       alter (fun comp => comp ++ [revmap !!! j]) (c !!! j) components)
    (seq 0 num_vertices) components.

(** [findLegallyConnectedComponents]; [None] if [map.at] throws. *)
Definition findLegallyConnectedComponents (SWTImage : IplImage.t Q)
    : option (list (list Point2d.t)) :=
  let '(map, revmap, num_vertices) := number_vertices SWTImage in
  g ← build_graph SWTImage map num_vertices;
  let '(c, num_comp) := connected_components g in
  Some (collect revmap c num_vertices (replicate num_comp [])).

(** An image given by its rows. *)
Definition image_of_rows (rows : list (list Q)) : IplImage.t Q :=
  IplImage.mk (Z.of_nat (length (rows !!! 0%nat))) (Z.of_nat (length rows))
    (fun row col => (rows !!! Z.to_nat row) !!! Z.to_nat col).

Example components_of_two_strokes :
  findLegallyConnectedComponents
    (image_of_rows [[2; -1; 5]; [2; -1; 5]; [-1; -1; 5]])%Q
  = Some [[Point2d.mk 0 0 0; Point2d.mk 0 1 0];
          [Point2d.mk 2 0 0; Point2d.mk 2 1 0; Point2d.mk 2 2 0]].
Proof. vm_compute. reflexivity. Qed.

(** *** The pixels in the order of the scan *)

(** The [(row, col)] pairs in the order of the two nested loops. *)
Definition scan (SWTImage : IplImage.t Q) : list (Z * Z) :=
  flat_map (fun row => map (pair row) (range (IplImage.width SWTImage)))
    (range (IplImage.height SWTImage)).

Definition positive (SWTImage : IplImage.t Q) (rc : Z * Z) : bool :=
  Qltb 0 (CV_IMAGE_ELEM SWTImage (fst rc) (snd rc)).

Definition point_of (rc : Z * Z) : Point2d.t := Point2d.mk (snd rc) (fst rc) 0.

(** The pixels of positive value, in the order of the scan. *)
Definition positive_pixels (SWTImage : IplImage.t Q) : list Point2d.t :=
  map point_of (List.filter (positive SWTImage) (scan SWTImage)).

Lemma elem_of_scan SWTImage row col :
  (row, col) ∈ scan SWTImage
  <-> 0 <= row < IplImage.height SWTImage /\ 0 <= col < IplImage.width SWTImage.
Proof.
  unfold scan, range. rewrite list_elem_of_In, in_flat_map. split.
  - intros (r & Hr & Hc). apply list_elem_of_In, elem_of_seqZ in Hr.
    apply list_elem_of_In, list_elem_of_fmap in Hc as (c & [= -> ->] & Hc).
    apply elem_of_seqZ in Hc. lia.
  - intros [Hr Hc]. exists row. split.
    + apply list_elem_of_In, elem_of_seqZ. lia.
    + apply list_elem_of_In, list_elem_of_fmap. exists col.
      split; [reflexivity|]. apply elem_of_seqZ. lia.
Qed.

Lemma NoDup_scan SWTImage : NoDup (scan SWTImage).
Proof.
  unfold scan, range.
  generalize (NoDup_seqZ 0 (IplImage.height SWTImage)).
  generalize (seqZ 0 (IplImage.height SWTImage)) as rows.
  induction rows as [|row rows IH]; intros Hnd; cbn [flat_map]; [constructor|].
  apply NoDup_cons in Hnd as [Hnotin Hnd].
  apply NoDup_app. split; [|split].
  - apply NoDup_fmap_2; [intros x y [= ->]; reflexivity | apply NoDup_seqZ].
  - intros [r c] Hin1 Hin2.
    apply list_elem_of_fmap in Hin1 as (c' & [= -> ->] & _).
    apply list_elem_of_In, in_flat_map in Hin2 as (r' & Hr' & Hc').
    apply list_elem_of_In in Hr'.
    apply list_elem_of_In, list_elem_of_fmap in Hc' as (c'' & [= -> ->] & _).
    contradiction.
  - apply IH, Hnd.
Qed.

Lemma NoDup_positive_pixels SWTImage : NoDup (positive_pixels SWTImage).
Proof.
  unfold positive_pixels. apply NoDup_fmap_2.
  - intros [r c] [r' c'] [= -> ->]. reflexivity.
  - apply NoDup_ListNoDup, List.NoDup_filter, NoDup_ListNoDup, NoDup_scan.
Qed.

Lemma elem_of_positive_pixels SWTImage pt :
  pt ∈ positive_pixels SWTImage
  <-> (0 <= Point2d.y pt < IplImage.height SWTImage
       /\ 0 <= Point2d.x pt < IplImage.width SWTImage
       /\ (0 < pixel_at SWTImage pt)%Q
       /\ Point2d.SWT pt = 0%Q).
Proof.
  unfold positive_pixels. rewrite list_elem_of_fmap. split.
  - intros ([r c] & -> & Hin).
    apply list_elem_of_In, filter_In in Hin as [Hin Hpos].
    apply list_elem_of_In, elem_of_scan in Hin.
    unfold positive in Hpos. apply Qltb_lt in Hpos.
    cbn. unfold pixel_at. cbn. tauto.
  - intros (Hy & Hx & Hpos & Hswt). exists (Point2d.y pt, Point2d.x pt). split.
    + destruct pt as [x y swt]. cbn in *. subst swt. reflexivity.
    + apply list_elem_of_In, filter_In. split.
      * apply list_elem_of_In, elem_of_scan. tauto.
      * unfold positive. apply Qltb_lt. exact Hpos.
Qed.

(** *** The numbering of the vertices *)

Definition key_of (SWTImage : IplImage.t Q) (rc : Z * Z) : Z :=
  fst rc * IplImage.width SWTImage + snd rc.

(** What the first loop has established after the pixels [done]. *)
Definition numbered (SWTImage : IplImage.t Q) (done : list (Z * Z))
    (st : Numbering) : Prop :=
  let '(map, revmap, num_vertices) := st in
  let pts := List.map point_of (List.filter (positive SWTImage) done) in
  num_vertices = length pts
  /\ (forall j, revmap !! j = pts !! j)
  /\ (forall rc, rc ∈ done -> positive SWTImage rc = true ->
        is_Some (map !! key_of SWTImage rc)).

Lemma number_pixel_numbered SWTImage done rc st :
  numbered SWTImage done st ->
  numbered SWTImage (done ++ [rc]) (number_pixel SWTImage (fst rc) (snd rc) st).
Proof.
  destruct st as [[map revmap] n]. unfold numbered, number_pixel.
  intros (Hn & Hrev & Hmap).
  rewrite List.filter_app. cbn [List.filter].
  fold (positive SWTImage rc).
  destruct (positive SWTImage rc) eqn:Hpos.
  - rewrite List.map_app, length_app. cbn [List.map length]. split; [lia|]. split.
    + intros j. destruct (decide (j = n)) as [->|Hne].
      * rewrite lookup_insert_eq, Hn.
        rewrite lookup_app_r by lia. rewrite Nat.sub_diag.
        destruct rc; reflexivity.
      * rewrite lookup_insert_ne by congruence. rewrite Hrev.
        destruct (decide (j < n)%nat).
        -- rewrite lookup_app_l by lia. reflexivity.
        -- rewrite !lookup_ge_None_2; [reflexivity| |];
             rewrite ?length_app; cbn [length]; lia.
    + intros rc' Hin Hpos'.
      destruct (decide (key_of SWTImage rc' = key_of SWTImage rc)) as [Hk|Hk].
      * unfold key_of in *. rewrite Hk, lookup_insert_eq. eauto.
      * unfold key_of in *. rewrite lookup_insert_ne by congruence.
        apply elem_of_app in Hin as [Hin|Hin].
        -- now apply Hmap.
        -- apply list_elem_of_singleton in Hin as ->. congruence.
  - rewrite app_nil_r. split; [exact Hn|]. split; [exact Hrev|].
    intros rc' Hin Hpos'. apply elem_of_app in Hin as [Hin|Hin].
    + now apply Hmap.
    + apply list_elem_of_singleton in Hin as ->. congruence.
Qed.

Lemma number_vertices_numbered SWTImage :
  numbered SWTImage (scan SWTImage) (number_vertices SWTImage).
Proof.
  unfold number_vertices.
  rewrite (fold_rows_cols (number_pixel SWTImage)). fold (scan SWTImage).
  assert (Hgen : forall l done st, numbered SWTImage done st ->
    numbered SWTImage (done ++ l)
      (fold_left (fun st rc => number_pixel SWTImage (fst rc) (snd rc) st) l st)).
  { induction l as [|rc l IH]; intros done st Hst.
    - now rewrite app_nil_r.
    - cbn [fold_left]. rewrite (cons_middle rc done l), app_assoc.
      apply IH. now apply number_pixel_numbered. }
  apply (Hgen (scan SWTImage) []).
  unfold numbered. cbn. split; [reflexivity|]. split.
  - intros j. now rewrite lookup_empty.
  - intros rc Hin. inversion Hin.
Qed.

(** *** The graph is built without an exception *)

Lemma link_is_Some (map : gmap Z nat) ptr other this_pixel key g (n : nat) :
  (edge_test ptr other = true -> is_Some (map !! key)) ->
  (exists g0, g = Some g0 /\ Graph.num_vertices g0 = n) ->
  exists g1, link map ptr other this_pixel key g = Some g1
             /\ Graph.num_vertices g1 = n.
Proof.
  intros Hkey (g0 & -> & Hn). unfold link.
  destruct (edge_test ptr other); [|eauto].
  destruct Hkey as [v Hv]; [reflexivity|].
  cbn. rewrite Hv. cbn. eauto.
Qed.

Lemma edge_test_positive ptr other :
  edge_test ptr other = true -> Qltb 0 other = true.
Proof. unfold edge_test. now intros [? _]%andb_true_iff. Qed.

Lemma link_pixel_is_Some SWTImage (map : gmap Z nat) row col g (n : nat) :
  (forall rc, rc ∈ scan SWTImage -> positive SWTImage rc = true ->
     is_Some (map !! key_of SWTImage rc)) ->
  (row, col) ∈ scan SWTImage ->
  (exists g0, g = Some g0 /\ Graph.num_vertices g0 = n) ->
  exists g1, link_pixel SWTImage map row col g = Some g1
             /\ Graph.num_vertices g1 = n.
Proof.
  intros Hdom Hin Hg. apply elem_of_scan in Hin as [Hrow Hcol].
  assert (Hnb : forall r c k ptr,
    0 <= r < IplImage.height SWTImage -> 0 <= c < IplImage.width SWTImage ->
    k = key_of SWTImage (r, c) ->
    edge_test ptr (CV_IMAGE_ELEM SWTImage r c) = true -> is_Some (map !! k)).
  { intros r c k ptr Hr Hc -> Ht. apply Hdom.
    - apply elem_of_scan. tauto.
    - apply edge_test_positive in Ht. exact Ht. }
  unfold link_pixel. cbv zeta.
  destruct (Qltb 0 (CV_IMAGE_ELEM SWTImage row col)); [|exact Hg].
  set (this_pixel := default 0%nat _).
  set (ptr := CV_IMAGE_ELEM SWTImage row col).
  assert (H1 : exists g1,
    (if col + 1 <? IplImage.width SWTImage
     then link map ptr (CV_IMAGE_ELEM SWTImage row (col + 1)) this_pixel
            (row * IplImage.width SWTImage + col + 1) g
     else g) = Some g1 /\ Graph.num_vertices g1 = n).
  { destruct (Z.ltb_spec (col + 1) (IplImage.width SWTImage)); [|exact Hg].
    apply link_is_Some; [|exact Hg].
    apply (Hnb row (col + 1)); [lia | lia | unfold key_of; cbn; lia]. }
  destruct (Z.ltb_spec (row + 1) (IplImage.height SWTImage)); [|exact H1].
  assert (H2 : exists g2,
    (if col + 1 <? IplImage.width SWTImage
     then link map ptr (CV_IMAGE_ELEM SWTImage (row + 1) (col + 1)) this_pixel
            ((row + 1) * IplImage.width SWTImage + col + 1)
            (if col + 1 <? IplImage.width SWTImage
             then link map ptr (CV_IMAGE_ELEM SWTImage row (col + 1)) this_pixel
                    (row * IplImage.width SWTImage + col + 1) g
             else g)
     else (if col + 1 <? IplImage.width SWTImage
           then link map ptr (CV_IMAGE_ELEM SWTImage row (col + 1)) this_pixel
                  (row * IplImage.width SWTImage + col + 1) g
           else g)) = Some g2 /\ Graph.num_vertices g2 = n).
  { destruct (Z.ltb_spec (col + 1) (IplImage.width SWTImage)); [|exact Hg].
    apply link_is_Some; [|exact H1].
    apply (Hnb (row + 1) (col + 1)); [lia | lia | unfold key_of; cbn; lia]. }
  match goal with
  | |- exists g1, (if _ then link map ptr ?o this_pixel ?k ?g' else ?g') = _ /\ _ =>
      assert (H3 : exists g3, g' = Some g3 /\ Graph.num_vertices g3 = n)
  end.
  { apply link_is_Some; [|exact H2].
    apply (Hnb (row + 1) col); [lia | lia | unfold key_of; cbn; lia]. }
  destruct (Z.leb_spec 0 (col - 1)); [|exact H3].
  apply link_is_Some; [|exact H3].
  apply (Hnb (row + 1) (col - 1)); [lia | lia | unfold key_of; cbn; lia].
Qed.

Lemma build_graph_is_Some SWTImage (map : gmap Z nat) (n : nat) :
  (forall rc, rc ∈ scan SWTImage -> positive SWTImage rc = true ->
     is_Some (map !! key_of SWTImage rc)) ->
  exists g, build_graph SWTImage map n = Some g /\ Graph.num_vertices g = n.
Proof.
  intros Hdom. unfold build_graph.
  rewrite (fold_rows_cols (link_pixel SWTImage map)). fold (scan SWTImage).
  assert (Hgen : forall l g,
    (forall rc, rc ∈ l -> rc ∈ scan SWTImage) ->
    (exists g0, g = Some g0 /\ Graph.num_vertices g0 = n) ->
    exists g1,
      fold_left (fun g rc => link_pixel SWTImage map (fst rc) (snd rc) g) l g
      = Some g1 /\ Graph.num_vertices g1 = n).
  { induction l as [|[row col] l IH]; intros g Hl Hg; [exact Hg|].
    cbn [fold_left fst snd]. apply IH.
    - intros rc Hrc. apply Hl. now right.
    - apply link_pixel_is_Some; [exact Hdom | apply Hl; left | exact Hg]. }
  apply Hgen; [tauto|]. eexists. split; reflexivity.
Qed.

(** *** The labels of [connected_components] are component numbers *)

(** Every label is a vertex that is not above the vertex it labels and
    that labels itself. *)
Definition labels_ok (lab : list nat) : Prop :=
  forall j l, lab !! j = Some l -> (l <= j)%nat /\ lab !! l = Some l.

Lemma labels_ok_root (lab : list nat) (u j l : nat) :
  labels_ok lab -> lab !! j = Some l -> lab !! (lab !!! u) = Some (lab !!! u).
Proof.
  intros Hok Hj. destruct (lab !! u) as [a|] eqn:Hu.
  - rewrite (list_lookup_total_correct _ _ _ Hu). now apply (Hok u a).
  - rewrite list_lookup_total_alt, Hu. cbn.
    destruct lab as [|l0 lab]; [discriminate|].
    destruct (Hok 0%nat l0 eq_refl) as [Hle _].
    assert (l0 = 0%nat) as -> by lia. reflexivity.
Qed.

Lemma merge_labels_ok (lab : list nat) (e : nat * nat) :
  labels_ok lab -> labels_ok (merge_labels lab e).
Proof.
  intros Hok j l. unfold merge_labels.
  set (a := lab !!! fst e). set (b := lab !!! snd e).
  rewrite list_lookup_fmap.
  destruct (lab !! j) as [l0|] eqn:Hj; [|discriminate]. cbn. intros [= <-].
  destruct (Hok j l0 Hj) as [Hle Hroot].
  assert (Ha : lab !! a = Some a) by (eapply labels_ok_root; eauto).
  assert (Hb : lab !! b = Some b) by (eapply labels_ok_root; eauto).
  assert (Hlo : lab !! Nat.min a b = Some (Nat.min a b))
    by (destruct (Nat.min_spec a b) as [[_ ->]|[_ ->]]; assumption).
  destruct (Nat.eqb_spec l0 (Nat.max a b)) as [->|Hne].
  - split; [lia|]. rewrite list_lookup_fmap, Hlo. cbn.
    destruct (Nat.eqb_spec (Nat.min a b) (Nat.max a b)); reflexivity.
  - split; [exact Hle|]. rewrite list_lookup_fmap, Hroot. cbn.
    destruct (Nat.eqb_spec l0 (Nat.max a b)); [contradiction|reflexivity].
Qed.

Lemma merge_labels_length lab e : length (merge_labels lab e) = length lab.
Proof. unfold merge_labels. apply length_map. Qed.

Lemma smallest_vertices_ok (g : Graph.t) :
  labels_ok (smallest_vertices g)
  /\ length (smallest_vertices g) = Graph.num_vertices g.
Proof.
  unfold smallest_vertices.
  assert (H0 : labels_ok (seq 0 (Graph.num_vertices g))
               /\ length (seq 0 (Graph.num_vertices g)) = Graph.num_vertices g).
  { split; [|apply length_seq].
    intros j l Hj. apply lookup_seq in Hj as [-> Hlt]. cbn.
    split; [lia|]. apply lookup_seq. split; [reflexivity|lia]. }
  revert H0. generalize (seq 0 (Graph.num_vertices g)).
  induction (Graph.edges g) as [|e es IH]; intros lab [Hok Hlen]; [tauto|].
  cbn [fold_left]. apply IH. split; [now apply merge_labels_ok|].
  now rewrite merge_labels_length.
Qed.

(** Merging along an edge gives its two ends one label, and vertices that
    had one label keep one label. *)
Lemma merge_labels_joins (lab : list nat) (e : nat * nat) :
  (fst e < length lab)%nat -> (snd e < length lab)%nat ->
  merge_labels lab e !!! fst e = merge_labels lab e !!! snd e.
Proof.
  intros Hu Hv. unfold merge_labels.
  rewrite !(@list_lookup_total_fmap nat nat _ _ _ lab) by assumption.
  set (a := lab !!! fst e). set (b := lab !!! snd e).
  destruct (Nat.eqb_spec a (Nat.max a b)), (Nat.eqb_spec b (Nat.max a b)); lia.
Qed.

Lemma merge_labels_keeps (lab : list nat) (e : nat * nat) (u v : nat) :
  (u < length lab)%nat -> (v < length lab)%nat ->
  lab !!! u = lab !!! v ->
  merge_labels lab e !!! u = merge_labels lab e !!! v.
Proof.
  intros Hu Hv Heq. unfold merge_labels.
  rewrite !(@list_lookup_total_fmap nat nat _ _ _ lab) by assumption.
  now rewrite Heq.
Qed.

(** The labelling joins what the edges join: the two ends of an edge of
    the graph get the same component number. *)
Lemma connected_components_edge (g : Graph.t) (u v : nat) :
  (u, v) ∈ Graph.edges g ->
  (u < Graph.num_vertices g)%nat -> (v < Graph.num_vertices g)%nat ->
  fst (connected_components g) !!! u = fst (connected_components g) !!! v.
Proof.
  intros Hin Hu Hv.
  destruct (smallest_vertices_ok g) as [_ Hlen].
  assert (Hlab : smallest_vertices g !!! u = smallest_vertices g !!! v).
  { clear Hlen. unfold smallest_vertices.
    assert (Hgen : forall es lab,
      length lab = Graph.num_vertices g ->
      ((u, v) ∈ es \/ lab !!! u = lab !!! v) ->
      fold_left merge_labels es lab !!! u = fold_left merge_labels es lab !!! v).
    { induction es as [|e es IH]; intros lab Hlen Hcase.
      - destruct Hcase as [Hnil|Heq]; [inversion Hnil | exact Heq].
      - cbn [fold_left]. apply IH; [now rewrite merge_labels_length|].
        destruct Hcase as [Hcons|Heq].
        + apply elem_of_cons in Hcons as [<-|Hes]; [|now left].
          right. apply (merge_labels_joins lab (u, v)); cbn [fst snd]; lia.
        + right. apply merge_labels_keeps; [lia | lia | exact Heq]. }
    apply Hgen; [apply length_seq | now left]. }
  unfold connected_components. cbn [fst].
  rewrite !(@list_lookup_total_fmap nat nat _ _ _ (smallest_vertices g)) by lia.
  now rewrite Hlab.
Qed.

Lemma filter_length_lt {A} (P : A -> bool) (l : list A) (x : A) :
  x ∈ l -> P x = false -> (length (List.filter P l) < length l)%nat.
Proof.
  induction l as [|a l IH]; intros Hin HP; [inversion Hin|].
  cbn [List.filter length].
  pose proof (List.filter_length_le P l).
  apply elem_of_cons in Hin as [->|Hin].
  - rewrite HP. lia.
  - specialize (IH Hin HP). destruct (P a); cbn [length]; lia.
Qed.

Lemma connected_components_labels (g : Graph.t) :
  let '(c, num_comp) := connected_components g in
  length c = Graph.num_vertices g
  /\ forall j, (j < Graph.num_vertices g)%nat -> (c !!! j < num_comp)%nat.
Proof.
  unfold connected_components. cbv zeta.
  destruct (smallest_vertices_ok g) as [Hok Hlen].
  set (lab := smallest_vertices g) in *.
  set (roots := List.filter _ _).
  split; [now rewrite length_map|].
  intros j Hj.
  destruct (lookup_lt_is_Some_2 lab j) as [l Hl]; [lia|].
  rewrite (list_lookup_total_correct _ j
             (length (List.filter (fun root => (root <? l)%nat) roots))).
  2:{ now rewrite list_lookup_fmap, Hl. }
  apply (filter_length_lt _ _ l).
  - destruct (Hok j l Hl) as [Hle Hroot]. subst roots.
    apply list_elem_of_In, filter_In. split.
    + apply in_seq. lia.
    + rewrite (list_lookup_total_correct _ _ _ Hroot). apply Nat.eqb_refl.
  - apply Nat.ltb_irrefl.
Qed.

(** *** Every vertex is pushed to one component *)

Lemma concat_alter_snoc {A} (comps : list (list A)) (k : nat) (p : A) :
  (k < length comps)%nat ->
  concat (alter (fun comp => comp ++ [p]) k comps) ≡ₚ concat comps ++ [p].
Proof.
  revert k. induction comps as [|comp comps IH]; intros k Hk; cbn in Hk; [lia|].
  destruct k as [|k]; cbn [alter list_alter concat].
  - rewrite <- !app_assoc. apply Permutation_app_head.
    apply Permutation_app_comm.
  - change (list_alter (fun comp0 => comp0 ++ [p]) k comps)
      with (alter (fun comp0 => comp0 ++ [p]) k comps).
    rewrite IH by lia. now rewrite app_assoc.
Qed.

Lemma collect_perm (revmap : gmap nat Point2d.t) (c : list nat) (n : nat)
    (comps : list (list Point2d.t)) :
  (forall j, (j < n)%nat -> (c !!! j < length comps)%nat) ->
  length (collect revmap c n comps) = length comps
  /\ concat (collect revmap c n comps)
     ≡ₚ concat comps ++ map (fun j => revmap !!! j) (seq 0 n).
Proof.
  unfold collect. intros Hc.
  assert (Hjs : forall j, j ∈ seq 0 n -> (c !!! j < length comps)%nat).
  { intros j Hj. apply Hc. apply elem_of_seq in Hj. lia. }
  clear Hc. revert comps Hjs. generalize (seq 0 n) as js.
  induction js as [|j js IH]; intros comps Hjs.
  - cbn. now rewrite app_nil_r.
  - cbn [fold_left map].
    destruct (IH (alter (fun comp => comp ++ [revmap !!! j]) (c !!! j) comps))
      as [Hlen Hperm].
    { intros j' Hj'. rewrite length_alter. apply Hjs. now right. }
    rewrite length_alter in Hlen. split; [exact Hlen|].
    rewrite Hperm, concat_alter_snoc by (apply Hjs; left).
    now rewrite <- app_assoc.
Qed.

Lemma revmap_points (revmap : gmap nat Point2d.t) (pts : list Point2d.t) :
  (forall j, revmap !! j = pts !! j) ->
  map (fun j => revmap !!! j) (seq 0 (length pts)) = pts.
Proof.
  intros Hrev. apply list_eq. intros j.
  rewrite list_lookup_fmap. destruct (pts !! j) as [pt|] eqn:Hj.
  - rewrite (lookup_seq_lt _ _ _ (lookup_lt_Some _ _ _ Hj)). cbn.
    rewrite <- Hrev in Hj. now rewrite (lookup_total_correct _ _ _ Hj).
  - rewrite lookup_seq_ge; [reflexivity|]. now apply lookup_ge_None.
Qed.

Lemma NoDup_concat_unique {A} (comps : list (list A)) k1 k2 c1 c2 (x : A) :
  NoDup (concat comps) ->
  comps !! k1 = Some c1 -> comps !! k2 = Some c2 ->
  x ∈ c1 -> x ∈ c2 -> k1 = k2.
Proof.
  revert k1 k2. induction comps as [|comp comps IH]; intros k1 k2 Hnd H1 H2 Hx1 Hx2;
    [inversion H1|].
  cbn [concat] in Hnd. apply NoDup_app in Hnd as (Hnd1 & Hdisj & Hnd2).
  assert (Hrest : forall k c, comps !! k = Some c -> x ∈ c -> x ∈ concat comps).
  { intros k c Hk Hc. apply list_elem_of_In, in_concat. exists c.
    split; apply list_elem_of_In; [|exact Hc].
    eapply list_elem_of_lookup_2, Hk. }
  destruct k1 as [|k1], k2 as [|k2]; cbn in H1, H2.
  - reflexivity.
  - injection H1 as <-. exfalso. eapply Hdisj; eauto.
  - injection H2 as <-. exfalso. eapply Hdisj; eauto.
  - f_equal. eapply IH; eauto.
Qed.

(** C10. The components returned for a map partition its pixels of
    positive value: the function returns (no [map.at] throws); the
    components together hold exactly the pixels of the image whose value
    is above 0, each pixel once and in one component only. *)
Theorem components_partition_positive_pixels (SWTImage : IplImage.t Q) :
  exists components,
    findLegallyConnectedComponents SWTImage = Some components
    /\ concat components ≡ₚ positive_pixels SWTImage
    /\ NoDup (concat components)
    /\ (forall pt, pt ∈ concat components
          <-> (0 <= Point2d.y pt < IplImage.height SWTImage
               /\ 0 <= Point2d.x pt < IplImage.width SWTImage
               /\ (0 < pixel_at SWTImage pt)%Q
               /\ Point2d.SWT pt = 0%Q))
    /\ (forall row col,
          0 <= row < IplImage.height SWTImage ->
          0 <= col < IplImage.width SWTImage ->
          (0 < CV_IMAGE_ELEM SWTImage row col)%Q ->
          exists k comp, components !! k = Some comp
                         /\ Point2d.mk col row 0 ∈ comp)
    /\ (forall k1 k2 comp1 comp2 pt,
          components !! k1 = Some comp1 -> components !! k2 = Some comp2 ->
          pt ∈ comp1 -> pt ∈ comp2 -> k1 = k2).
Proof.
  unfold findLegallyConnectedComponents.
  pose proof (number_vertices_numbered SWTImage) as Hnum.
  destruct (number_vertices SWTImage) as [[map revmap] n].
  destruct Hnum as (Hn & Hrev & Hdom).
  fold (positive_pixels SWTImage) in Hn, Hrev.
  destruct (build_graph_is_Some SWTImage map n Hdom) as (g & Hg & Hgn).
  rewrite Hg. cbn [mbind option_bind].
  pose proof (connected_components_labels g) as Hcc.
  destruct (connected_components g) as [c num_comp].
  destruct Hcc as [_ Hc]. rewrite Hgn in Hc.
  destruct (collect_perm revmap c n (replicate num_comp [])) as [_ Hperm].
  { intros j Hj. rewrite length_replicate. now apply Hc. }
  assert (Hcat : concat (collect revmap c n (replicate num_comp []))
                 ≡ₚ positive_pixels SWTImage).
  { rewrite Hperm, Hn, (revmap_points _ _ Hrev).
    replace (concat (replicate num_comp [])) with (@nil Point2d.t); [reflexivity|].
    clear. induction num_comp; [reflexivity|]. cbn. assumption. }
  set (components := collect revmap c n (replicate num_comp [])) in *.
  assert (Hnd : NoDup (concat components))
    by (rewrite Hcat; apply NoDup_positive_pixels).
  assert (Hiff : forall pt, pt ∈ concat components
          <-> (0 <= Point2d.y pt < IplImage.height SWTImage
               /\ 0 <= Point2d.x pt < IplImage.width SWTImage
               /\ (0 < pixel_at SWTImage pt)%Q
               /\ Point2d.SWT pt = 0%Q))
    by (intros pt; rewrite Hcat; apply elem_of_positive_pixels).
  exists components. split; [reflexivity|].
  split; [exact Hcat|]. split; [exact Hnd|]. split; [exact Hiff|]. split.
  - intros row col Hrow Hcol Hpos.
    assert (Hin : Point2d.mk col row 0 ∈ concat components).
    { apply Hiff. cbn. unfold pixel_at. cbn. tauto. }
    apply list_elem_of_In, in_concat in Hin as (comp & Hcomp & Hpt).
    apply list_elem_of_In, list_elem_of_lookup in Hcomp as [k Hk].
    exists k, comp. split; [exact Hk|]. now apply list_elem_of_In.
  - intros k1 k2 comp1 comp2 pt. now apply NoDup_concat_unique.
Qed.

(** *** The stroke-width ratio test *)

(** The rule of the specification for an edge between a pixel of value
    [a] and a neighbour of value [b]: both defined and the ratio, taken in
    either direction, at most 3. *)
Definition edge_by_spec (a b : Q) : bool :=
  Qltb 0 a && Qltb 0 b && Qle_bool (Qmax (a / b) (b / a)) 3.

(** The ratio test of the program holds for every pair of positive values:
    one of the two quotients is at most 1. *)
Lemma edge_test_vacuous (ptr other : Q) :
  (0 < ptr)%Q -> edge_test ptr other = Qltb 0 other.
Proof.
  intros Hp. unfold edge_test. destruct (Qltb 0 other) eqn:Ho; [|reflexivity].
  apply Qltb_lt in Ho. cbn [andb]. apply orb_true_iff.
  destruct (Qlt_le_dec ptr other) as [Hlt|Hle].
  - left. apply Qle_bool_iff. apply Qle_shift_div_r; [exact Ho | lra].
  - right. apply Qle_bool_iff. apply Qle_shift_div_r; [exact Hp | lra].
Qed.

(** C1, at the input on which the program leaves the claim: a row of two
    pixels of widths 1 and 10.  Their ratio is 10, the rule of the
    specification gives no edge, the program adds the edge (0, 1) and
    returns the two pixels as one component. *)
Theorem edge_added_beyond_ratio :
  let SWTImage := image_of_rows [[1; 10]]%Q in
  edge_by_spec 1 10 = false
  /\ edge_test 1 10 = true
  /\ (let '(map, _, num_vertices) := number_vertices SWTImage in
      Graph.edges <$> build_graph SWTImage map num_vertices
      = Some [(0, 1)%nat])
  /\ findLegallyConnectedComponents SWTImage
     = Some [[Point2d.mk 0 0 0; Point2d.mk 1 0 0]].
Proof. vm_compute. repeat split; reflexivity. Qed.

(** ** The chain builder ([makeChains]) *)

#[export] Instance Chain_inhabited : Inhabited Chain.t :=
  populate (Chain.mk 0 0 0 None [] false).

Definition set_merged (b : bool) (c : Chain.t) : Chain.t :=
  Chain.mk (Chain.p c) (Chain.q c) (Chain.dist c) (Chain.direction c)
    (Chain.components c) b.

(** [bool sharesOneEnd(Chain c0, Chain c1)] *)
Definition sharesOneEnd (c0 c1 : Chain.t) : bool :=
  (Chain.p c0 =? Chain.p c1)%nat || (Chain.p c0 =? Chain.q c1)%nat
  || (Chain.q c0 =? Chain.q c1)%nat || (Chain.q c0 =? Chain.p c1)%nat.

(** [bool chainSortDist(const Chain &lhs, const Chain &rhs)] *)
Definition chainSortDist (lhs rhs : Chain.t) : bool :=
  Qltb (Chain.dist lhs) (Chain.dist rhs).

(** [bool chainSortLength(const Chain &lhs, const Chain &rhs)] *)
Definition chainSortLength (lhs rhs : Chain.t) : bool :=
  (length (Chain.components rhs) <? length (Chain.components lhs))%nat.

(** [std::sort] and [std::unique] with [erase] on the component list. *)
Definition remove_duplicates (components : list nat) : list nat :=
  Sort.unique (Sort.sort Nat.ltb components).

(** *** Sorting and removing duplicates *)

Lemma insert_ltb_sorted (x : nat) (l : list nat) :
  StronglySorted le l -> StronglySorted le (Sort.insert Nat.ltb x l).
Proof.
  induction 1 as [|y l Hl IH Hy]; cbn [Sort.insert].
  - repeat constructor.
  - destruct (Nat.ltb_spec y x) as [Hlt|Hge].
    + constructor; [exact IH|].
      rewrite List.Forall_forall in *. intros z Hz.
      apply list_elem_of_In in Hz. rewrite Sort.insert_perm in Hz.
      apply elem_of_cons in Hz as [->|Hz]; [lia|].
      apply Hy, list_elem_of_In, Hz.
    + constructor; [now constructor|].
      constructor; [exact Hge|].
      rewrite List.Forall_forall in *. intros z Hz. specialize (Hy z Hz). lia.
Qed.

Lemma sort_ltb_sorted (l : list nat) :
  StronglySorted le (Sort.sort Nat.ltb l).
Proof.
  induction l as [|x l IH]; cbn; [constructor|].
  now apply insert_ltb_sorted.
Qed.

Lemma unique_elem_of (l : list nat) (x : nat) :
  x ∈ Sort.unique l <-> x ∈ l.
Proof.
  induction l as [|a l IH]; [reflexivity|].
  cbn [Sort.unique]. destruct l as [|b l]; [reflexivity|].
  destruct (Nat.eqb_spec a b) as [->|Hne].
  - rewrite IH. rewrite !elem_of_cons. tauto.
  - rewrite elem_of_cons, IH. rewrite !elem_of_cons. tauto.
Qed.

Lemma unique_sorted (l : list nat) :
  StronglySorted le l -> StronglySorted lt (Sort.unique l).
Proof.
  induction 1 as [|a l Hl IH Ha]; [constructor|].
  cbn [Sort.unique]. destruct l as [|b l]; [repeat constructor|].
  destruct (Nat.eqb_spec a b) as [->|Hne]; [exact IH|].
  constructor; [exact IH|].
  rewrite List.Forall_forall in *. intros z Hz.
  apply list_elem_of_In in Hz. rewrite unique_elem_of in Hz.
  inversion Hl as [|? ? _ Hb]; subst.
  rewrite List.Forall_forall in Hb.
  assert (a <= b)%nat by (apply Ha; now left).
  apply elem_of_cons in Hz as [->|Hz]; [lia|].
  specialize (Hb z (proj1 (list_elem_of_In _ _) Hz)). lia.
Qed.

Lemma StronglySorted_lt_NoDup (l : list nat) :
  StronglySorted lt l -> NoDup l.
Proof.
  induction 1 as [|a l Hl IH Ha]; constructor; [|exact IH].
  intros Hin. rewrite List.Forall_forall in Ha.
  specialize (Ha a (proj1 (list_elem_of_In _ _) Hin)). lia.
Qed.

Lemma remove_duplicates_spec (l : list nat) :
  StronglySorted lt (remove_duplicates l)
  /\ NoDup (remove_duplicates l)
  /\ forall x, x ∈ remove_duplicates l <-> x ∈ l.
Proof.
  unfold remove_duplicates.
  pose proof (unique_sorted _ (sort_ltb_sorted l)) as Hs.
  split; [exact Hs|]. split; [now apply StronglySorted_lt_NoDup|].
  intros x. now rewrite unique_elem_of, Sort.sort_elem_of.
Qed.

Lemma NoDup_flat_map {A B} (f : A -> list B) (rows : list A) :
  NoDup rows ->
  (forall row, row ∈ rows -> NoDup (f row)) ->
  (forall r1 r2 x, r1 ∈ rows -> r2 ∈ rows -> x ∈ f r1 -> x ∈ f r2 -> r1 = r2) ->
  NoDup (flat_map f rows).
Proof.
  induction rows as [|row rows IH]; intros Hnd Hf Hdisj; cbn [flat_map];
    [constructor|].
  apply NoDup_cons in Hnd as [Hnotin Hnd].
  apply NoDup_app. split; [|split].
  - apply Hf. left.
  - intros x Hx1 Hx2.
    apply list_elem_of_In, in_flat_map in Hx2 as (r' & Hr' & Hx').
    apply list_elem_of_In in Hr'. apply list_elem_of_In in Hx'.
    assert (row = r') as -> by (eapply Hdisj; eauto; [left | now right]).
    contradiction.
  - apply IH; [exact Hnd | |].
    + intros r Hr. apply Hf. now right.
    + intros r1 r2 x H1 H2. apply Hdisj; now right.
Qed.

(** A chain after [std::sort], [std::unique] and [erase] on its
    component list. *)
Definition deduplicated (c : Chain.t) : Chain.t :=
  Chain.mk (Chain.p c) (Chain.q c) (Chain.dist c) (Chain.direction c)
    (remove_duplicates (Chain.components c)) (Chain.merged c).

Lemma filter_sublist {A} (P : A -> bool) (l : list A) :
  sublist (List.filter P l) l.
Proof.
  induction l as [|a l IH]; cbn [List.filter]; [constructor|].
  destruct (P a); now constructor.
Qed.

Lemma map_flat_map {A B C} (g : B -> C) (f : A -> list B) (l : list A) :
  map g (flat_map f l) = flat_map (fun a => map g (f a)) l.
Proof.
  induction l as [|a l IH]; [reflexivity|].
  cbn [flat_map]. now rewrite map_app, IH.
Qed.

Section MakeChains.

(** [sqrt] and [acos] of the C library; [acos] is a NaN ([None]) outside
    its domain. *)
Variable sqrt : Q -> Q.
Variable acos : Q -> option Q.

Variable compCenters : list Point2dFloat.t.
Variable compMedians : list Q.
Variable compDimensions : list Point2d.t.
(** [components.size()] *)
Variable ncomponents : nat.

(** [d_x / mag], [d_y / mag] with [mag = sqrt(d_x * d_x + d_y * d_y)]: not
    finite when [mag] is 0. *)
Definition unit_vector (d_x d_y : Q) : option Point2dFloat.t :=
  let mag := sqrt (d_x * d_x + d_y * d_y) in
  if Qeq_bool mag 0 then None
  else Some (Point2dFloat.mk (d_x / mag) (d_y / mag)).

(** The chain pushed for the pair [i], [j] of the first loops, if any.  The
    colour averages are computed and logged only. *)
Definition seed (i j : nat) : option Chain.t :=
  let compMediansRatio := (compMedians !!! i / compMedians !!! j)%Q in
  let compDimRatioY :=
    (inject_Z (Point2d.y (compDimensions !!! i))
     / inject_Z (Point2d.y (compDimensions !!! j)))%Q in
  let compDimRatioX :=
    (inject_Z (Point2d.x (compDimensions !!! i))
     / inject_Z (Point2d.x (compDimensions !!! j)))%Q in
  let ci := compCenters !!! i in
  let cj := compCenters !!! j in
  let dist :=
    inject_Z
      (square (Qtruncate (Point2dFloat.x ci - Point2dFloat.x cj))
       + square (Qtruncate (Point2dFloat.y ci - Point2dFloat.y cj))) in
  let maxDim :=
    inject_Z
      (square
         (Z.max (Z.min (Point2d.x (compDimensions !!! i))
                       (Point2d.y (compDimensions !!! i)))
                (Z.min (Point2d.x (compDimensions !!! j))
                       (Point2d.y (compDimensions !!! j))))) in
  if ratio_within compMediansRatio COM_MAX_MEDIAN_RATIO
     && ratio_within compDimRatioY COM_MAX_DIM_RATIO
     && ratio_within compDimRatioX COM_MAX_DIM_RATIO
  then
    if Qltb (dist / maxDim) COM_MAX_DIST_RATIO then
      let d_x := (Point2dFloat.x ci - Point2dFloat.x cj)%Q in
      let d_y := (Point2dFloat.y ci - Point2dFloat.y cj)%Q in
      Some (Chain.mk i j dist (unit_vector d_x d_y) [i; j] false)
    else None
  else None.

(** The eligible pairs, in the order of the loops over [i] and [j > i]. *)
Definition seeds : list Chain.t :=
  flat_map (fun i => omap (seed i) (seq (S i) (ncomponents - S i)))
    (seq 0 ncomponents).

(** [const float strictness = PI / 6.0] *)
Definition strictness : Q := PI / 6.

(** [acos(v) < strictness]; false on a NaN. *)
Definition within_strictness (v : option Q) : bool :=
  match v with
  | Some v =>
      match acos v with
      | Some a => Qltb a strictness
      | None => false
      end
  | None => false
  end.

(** [di.x * dj.x + di.y * dj.y] *)
Definition dot (di dj : option Point2dFloat.t) : option Q :=
  match di, dj with
  | Some di, Some dj =>
      Some (Point2dFloat.x di * Point2dFloat.x dj
            + Point2dFloat.y di * Point2dFloat.y dj)%Q
  | _, _ => None
  end.

(** [di.x * -dj.x + di.y * -dj.y] *)
Definition dot_opposite (di dj : option Point2dFloat.t) : option Q :=
  match di, dj with
  | Some di, Some dj =>
      Some (Point2dFloat.x di * - Point2dFloat.x dj
            + Point2dFloat.y di * - Point2dFloat.y dj)%Q
  | _, _ => None
  end.

(** [chains[i]] after it has taken the components of [chains[j]] and the
    end points [p], [q]: distance and direction are computed anew from the
    centres of [p] and [q]. *)
Definition absorb (ci cj : Chain.t) (p q : nat) : Chain.t :=
  let d_x := (Point2dFloat.x (compCenters !!! p)
              - Point2dFloat.x (compCenters !!! q))%Q in
  let d_y := (Point2dFloat.y (compCenters !!! p)
              - Point2dFloat.y (compCenters !!! q))%Q in
  Chain.mk p q (d_x * d_x + d_y * d_y) (unit_vector d_x d_y)
    (Chain.components ci ++ Chain.components cj) (Chain.merged ci).

(** The assignments of a merge: the new [chains[i]],
    [chains[j].merged = true], [merges++]. *)
Definition do_merge (i j : nat) (ci' cj : Chain.t)
    (st : list Chain.t * nat) : list Chain.t * nat :=
  (<[j := set_merged true cj]> (<[i := ci']> (fst st)), S (snd st)).

(** The body of the two loops over [i] and [j]. *)
Definition merge_step (i j : nat) (st : list Chain.t * nat)
    : list Chain.t * nat :=
  match fst st !! i, fst st !! j with
  | Some ci, Some cj =>
      if negb (i =? j)%nat then
        if negb (Chain.merged ci) && negb (Chain.merged cj)
           && sharesOneEnd ci cj
        then
          if (Chain.p ci =? Chain.p cj)%nat then
            if within_strictness
                 (dot_opposite (Chain.direction ci) (Chain.direction cj))
            then do_merge i j (absorb ci cj (Chain.q cj) (Chain.q ci)) cj st
            else st
          else if (Chain.p ci =? Chain.q cj)%nat then
            if within_strictness
                 (dot (Chain.direction ci) (Chain.direction cj))
            then do_merge i j (absorb ci cj (Chain.p cj) (Chain.q ci)) cj st
            else st
          else if (Chain.q ci =? Chain.p cj)%nat then
            if within_strictness
                 (dot (Chain.direction ci) (Chain.direction cj))
            then do_merge i j (absorb ci cj (Chain.p ci) (Chain.q cj)) cj st
            else st
          else if (Chain.q ci =? Chain.q cj)%nat then
            if within_strictness
                 (dot_opposite (Chain.direction ci) (Chain.direction cj))
            then do_merge i j (absorb ci cj (Chain.p ci) (Chain.p cj)) cj st
            else st
          else st
        else st
      else st
  | _, _ => st
  end.

(** The two loops of one pass, after the flags are cleared: the chains
    and [merges]. *)
Definition merge_scan (chains : list Chain.t) : list Chain.t * nat :=
  fold_left
    (fun st i =>
       fold_left (fun st j => merge_step i j st) (seq 0 (length chains)) st)
    (seq 0 (length chains)) (map (set_merged false) chains, 0%nat).

(** One turn of the [while] loop: the pass, the removal of the merged
    chains and the stable sort by length. *)
Definition merge_pass (chains : list Chain.t) : list Chain.t * nat :=
  let '(chains', merges) := merge_scan chains in
  (Sort.sort chainSortLength
     (List.filter (fun c => negb (Chain.merged c)) chains'),
   merges).

(** [int merges = 1; while (merges > 0) { ... }]: the chains when the loop
    is left; [None] if it has not been left after [fuel] passes. *)
Fixpoint merge_loop (fuel : nat) (chains : list Chain.t)
    : option (list Chain.t) :=
  match fuel with
  | O => None
  | S fuel' =>
      let '(chains', merges) := merge_pass chains in
      if (0 <? merges)%nat then merge_loop fuel' chains' else Some chains'
  end.

(** The last loop: the chains of 3 components and more, their lists
    without duplicates. *)
Definition accept_chains (chains : list Chain.t) : list Chain.t :=
  map deduplicated
    (List.filter (fun c => (3 <=? length (Chain.components c))%nat) chains).

(** The chains at the exit of the merge loop. *)
Definition merged_chains : option (list Chain.t) :=
  let chains := Sort.sort chainSortDist seeds in
  merge_loop (S (length chains)) chains.

(** [makeChains] *)
Definition makeChains : option (list Chain.t) :=
  accept_chains <$> merged_chains.

(** *** Updates of one element *)

Lemma filter_length_insert {A} (P : A -> bool) (l : list A) (i : nat) (x y : A) :
  l !! i = Some y ->
  (length (List.filter P (<[i:=x]> l)) + (if P y then 1 else 0)
   = length (List.filter P l) + (if P x then 1 else 0))%nat.
Proof.
  intros Hi.
  rewrite insert_take_drop by (eapply lookup_lt_Some; eassumption).
  rewrite <- (take_drop_middle l i y Hi) at 3.
  rewrite !List.filter_app, !length_app. cbn [List.filter].
  destruct (P x), (P y); cbn [length]; lia.
Qed.

(** *** Every merge removes one chain: the loop terminates *)

(** How many chains carry the flag [merged]. *)
Definition merged_count (chains : list Chain.t) : nat :=
  length (List.filter Chain.merged chains).

(** A step of the scan either leaves the state alone or is a merge of two
    chains that were not merged, at two different indices. *)
Lemma merge_step_cases (i j : nat) (st : list Chain.t * nat) :
  merge_step i j st = st
  \/ exists ci cj p q,
       fst st !! i = Some ci /\ fst st !! j = Some cj /\ i <> j
       /\ Chain.merged ci = false /\ Chain.merged cj = false
       /\ sharesOneEnd ci cj = true
       /\ merge_step i j st = do_merge i j (absorb ci cj p q) cj st.
Proof.
  unfold merge_step.
  destruct (fst st !! i) as [ci|] eqn:Hi; [|now left].
  destruct (fst st !! j) as [cj|] eqn:Hj; [|now left].
  destruct (Nat.eqb_spec i j) as [|Hne]; [now left|]. cbn [negb].
  destruct (Chain.merged ci) eqn:Hmi; [now left|].
  destruct (Chain.merged cj) eqn:Hmj; [now left|]. cbn [negb andb].
  destruct (sharesOneEnd ci cj) eqn:Hs; [|now left].
  repeat match goal with
         | |- context [if ?b then _ else _] => destruct b
         end;
    try (left; reflexivity);
    right; do 4 eexists; repeat (split; [eassumption || reflexivity|]);
    reflexivity.
Qed.

Lemma do_merge_count i j ci ci' cj (st : list Chain.t * nat) :
  fst st !! i = Some ci -> fst st !! j = Some cj -> i <> j ->
  Chain.merged ci = false -> Chain.merged cj = false ->
  Chain.merged ci' = false ->
  length (fst (do_merge i j ci' cj st)) = length (fst st)
  /\ merged_count (fst (do_merge i j ci' cj st)) = S (merged_count (fst st)).
Proof.
  intros Hi Hj Hne Hmi Hmj Hmi'. unfold do_merge, merged_count. cbn [fst].
  split; [now rewrite !length_insert|].
  assert (Hj' : <[i:=ci']> (fst st) !! j = Some cj)
    by (rewrite list_lookup_insert_ne by exact Hne; exact Hj).
  pose proof (filter_length_insert Chain.merged _ j (set_merged true cj) cj Hj') as H1.
  pose proof (filter_length_insert Chain.merged _ i ci' ci Hi) as H2.
  rewrite Hmj in H1. rewrite Hmi, Hmi' in H2. cbn in H1. lia.
Qed.

(** The invariant of the scan: [merges] counts the flagged chains. *)
Lemma merge_step_count (i j : nat) (st : list Chain.t * nat) :
  merged_count (fst st) = snd st ->
  length (fst (merge_step i j st)) = length (fst st)
  /\ merged_count (fst (merge_step i j st)) = snd (merge_step i j st).
Proof.
  intros Hinv.
  destruct (merge_step_cases i j st)
    as [->|(ci & cj & p & q & Hi & Hj & Hne & Hmi & Hmj & _ & ->)];
    [tauto|].
  destruct (do_merge_count i j ci (absorb ci cj p q) cj st Hi Hj Hne Hmi Hmj)
    as [Hlen Hcount]; [exact Hmi|].
  split; [exact Hlen|]. rewrite Hcount, Hinv. reflexivity.
Qed.

Lemma merge_scan_count (chains : list Chain.t) :
  length (fst (merge_scan chains)) = length chains
  /\ merged_count (fst (merge_scan chains)) = snd (merge_scan chains).
Proof.
  unfold merge_scan.
  rewrite (fold_rows_cols merge_step).
  set (pairs := flat_map _ _).
  assert (H0 : length (fst (map (set_merged false) chains, 0%nat)) = length chains
               /\ merged_count (fst (map (set_merged false) chains, 0%nat))
                  = snd (map (set_merged false) chains, 0%nat)).
  { cbn [fst snd]. split; [apply length_map|].
    unfold merged_count. induction chains as [|c cs IH]; [reflexivity|].
    cbn. exact IH. }
  revert H0. generalize (map (set_merged false) chains, 0%nat).
  induction pairs as [|[i j] pairs IH]; intros st Hst; [exact Hst|].
  cbn [fold_left fst snd]. apply IH.
  destruct Hst as [Hlen Hinv].
  destruct (merge_step_count i j st Hinv) as [Hlen' Hinv'].
  split; [congruence | exact Hinv'].
Qed.

Lemma filter_negb_length {A} (P : A -> bool) (l : list A) :
  (length (List.filter (fun a => negb (P a)) l) + length (List.filter P l)
   = length l)%nat.
Proof.
  induction l as [|a l IH]; [reflexivity|]. cbn [List.filter].
  destruct (P a); cbn [negb length]; lia.
Qed.

(** A pass removes as many chains as it performs merges. *)
Lemma merge_pass_length (chains : list Chain.t) :
  (length (fst (merge_pass chains)) + snd (merge_pass chains)
   = length chains)%nat.
Proof.
  unfold merge_pass.
  destruct (merge_scan_count chains) as [Hlen Hinv].
  destruct (merge_scan chains) as [chains' merges]. cbn [fst snd] in *.
  rewrite Sort.sort_length.
  pose proof (filter_negb_length Chain.merged chains').
  unfold merged_count in Hinv. lia.
Qed.

Lemma merge_loop_returns (fuel : nat) (chains : list Chain.t) :
  (length chains < fuel)%nat ->
  exists result last,
    merge_loop fuel chains = Some result
    /\ merge_pass last = (result, 0%nat)
    /\ (length result <= length chains)%nat.
Proof.
  revert chains. induction fuel as [|fuel IH]; intros chains Hfuel; [lia|].
  cbn [merge_loop].
  pose proof (merge_pass_length chains) as Hlen.
  destruct (merge_pass chains) as [chains' merges] eqn:Hpass.
  cbn [fst snd] in Hlen.
  destruct (Nat.ltb_spec 0 merges) as [Hpos|Hzero].
  - destruct (IH chains') as (result & last & Hloop & Hlast & Hle); [lia|].
    exists result, last. repeat split; [exact Hloop | exact Hlast | lia].
  - exists chains', chains. assert (merges = 0%nat) as -> by lia.
    repeat split; [exact Hpass | lia].
Qed.

Lemma merge_loop_fuel (fuel k : nat) (chains result : list Chain.t) :
  merge_loop fuel chains = Some result ->
  merge_loop (fuel + k) chains = Some result.
Proof.
  revert chains. induction fuel as [|fuel IH]; intros chains; [discriminate|].
  cbn [merge_loop Nat.add].
  destruct (merge_pass chains) as [chains' merges].
  destruct (0 <? merges)%nat; [apply IH | trivial].
Qed.

(** C9. The merge loop terminates on every vector of chains: a pass
    removes exactly as many chains as it performs merges, so a pass with a
    merge leaves fewer chains, and within [length chains + 1] passes a pass
    performs no merge and the loop is left; more fuel changes nothing. *)
Theorem merge_loop_terminates (chains : list Chain.t) :
  (let '(chains', merges) := merge_pass chains in
   (length chains' + merges = length chains)%nat
   /\ ((0 < merges)%nat -> (length chains' < length chains)%nat))
  /\ exists result last,
       merge_loop (S (length chains)) chains = Some result
       /\ merge_pass last = (result, 0%nat)
       /\ (length result <= length chains)%nat
       /\ forall fuel, (S (length chains) <= fuel)%nat ->
            merge_loop fuel chains = Some result.
Proof.
  split.
  - pose proof (merge_pass_length chains) as Hlen.
    destruct (merge_pass chains) as [chains' merges]. cbn [fst snd] in Hlen.
    split; lia.
  - destruct (merge_loop_returns (S (length chains)) chains)
      as (result & last & Hloop & Hlast & Hle); [lia|].
    exists result, last. repeat split; try assumption.
    intros fuel Hfuel.
    replace fuel with (S (length chains) + (fuel - S (length chains)))%nat by lia.
    now apply merge_loop_fuel.
Qed.


(** *** Every chain with 3 entries has 3 components *)

(** Three different indices occur in the list. *)
Definition has3 (l : list nat) : Prop :=
  exists a b c, a <> b /\ a <> c /\ b <> c /\ a ∈ l /\ b ∈ l /\ c ∈ l.

(** The list of a chain that has not merged: its two end points. *)
Definition is_pair (l : list nat) : Prop :=
  exists a b, (a < b)%nat /\ l = [a; b].

Definition chain_ok (c : Chain.t) : Prop :=
  is_pair (Chain.components c) \/ has3 (Chain.components c).

(** The component lists of the chains that have not merged. *)
Definition pair_keys (chains : list Chain.t) : list (list nat) :=
  map Chain.components
    (List.filter (fun c => (length (Chain.components c) =? 2)%nat) chains).

(** The invariant of the pool: every chain is a pair or holds 3 different
    components, and no pair occurs twice. *)
Definition pool_ok (chains : list Chain.t) : Prop :=
  Forall chain_ok chains /\ NoDup (pair_keys chains).

Lemma has3_length (l : list nat) : has3 l -> (3 <= length l)%nat.
Proof.
  intros (a & b & c & Hab & Hac & Hbc & Ha & Hb & Hc).
  assert (Hnd : NoDup [a; b; c]).
  { apply NoDup_cons; split.
    - intros H. apply elem_of_cons in H as [->|H]; [congruence|].
      apply elem_of_cons in H as [->|H]; [congruence|]. inversion H.
    - apply NoDup_cons; split; [|apply NoDup_singleton].
      intros H. apply elem_of_cons in H as [->|H]; [congruence|]. inversion H. }
  assert (Hsub : [a; b; c] ⊆+ l).
  { apply NoDup_submseteq; [exact Hnd|].
    intros x Hx. repeat (apply elem_of_cons in Hx as [->|Hx]); try assumption.
    inversion Hx. }
  apply submseteq_length in Hsub. exact Hsub.
Qed.

Lemma has3_app_l (l1 l2 : list nat) : has3 l1 -> has3 (l1 ++ l2).
Proof.
  intros (a & b & c & H). exists a, b, c. rewrite !elem_of_app. tauto.
Qed.

Lemma has3_app_r (l1 l2 : list nat) : has3 l2 -> has3 (l1 ++ l2).
Proof.
  intros (a & b & c & H). exists a, b, c. rewrite !elem_of_app. tauto.
Qed.

Lemma has3_two_pairs (l1 l2 : list nat) :
  is_pair l1 -> is_pair l2 -> l1 <> l2 -> has3 (l1 ++ l2).
Proof.
  intros (a & b & Hab & ->) (c & d & Hcd & ->) Hne. cbn [app].
  destruct (decide (a = c)) as [->|Hac].
  - assert (b <> d) by congruence.
    exists c, b, d. rewrite !elem_of_cons. repeat split; auto; lia.
  - destruct (decide (b = c)) as [->|Hbc].
    + exists a, c, d. rewrite !elem_of_cons. repeat split; auto; lia.
    + exists a, b, c. rewrite !elem_of_cons. repeat split; auto; lia.
Qed.

Lemma is_pair_length (l : list nat) : is_pair l -> length l = 2%nat.
Proof. intros (a & b & _ & ->). reflexivity. Qed.

Lemma chain_ok_pair (c : Chain.t) :
  chain_ok c -> length (Chain.components c) = 2%nat ->
  is_pair (Chain.components c).
Proof.
  intros [Hp|H3] Hlen; [exact Hp|]. apply has3_length in H3. lia.
Qed.

Lemma pair_keys_app (l1 l2 : list Chain.t) :
  pair_keys (l1 ++ l2) = pair_keys l1 ++ pair_keys l2.
Proof. unfold pair_keys. now rewrite List.filter_app, map_app. Qed.

Lemma pair_keys_distinct (chains : list Chain.t) i j ci cj :
  NoDup (pair_keys chains) ->
  chains !! i = Some ci -> chains !! j = Some cj -> i <> j ->
  length (Chain.components ci) = 2%nat ->
  length (Chain.components cj) = 2%nat ->
  Chain.components ci <> Chain.components cj.
Proof.
  assert (Hlt : forall i j ci cj, (i < j)%nat ->
    NoDup (pair_keys chains) ->
    chains !! i = Some ci -> chains !! j = Some cj ->
    length (Chain.components ci) = 2%nat ->
    length (Chain.components cj) = 2%nat ->
    Chain.components ci <> Chain.components cj).
  { clear. intros i j ci cj Hij Hnd Hi Hj Hli Hlj Heq.
    rewrite <- (take_drop_middle chains i ci Hi) in Hnd, Hj.
    rewrite pair_keys_app in Hnd. apply NoDup_app in Hnd as (_ & _ & Hnd).
    unfold pair_keys in Hnd. cbn [List.filter] in Hnd.
    rewrite Hli in Hnd. cbn [Nat.eqb map] in Hnd.
    apply NoDup_cons in Hnd as [Hnotin _]. apply Hnotin.
    rewrite lookup_app_r in Hj by (rewrite length_take; lia).
    rewrite length_take_le in Hj
      by (apply Nat.lt_le_incl; eapply lookup_lt_Some; eassumption).
    replace (j - i)%nat with (S (j - S i)) in Hj by lia. cbn in Hj.
    rewrite Heq. apply list_elem_of_fmap. exists cj. split; [reflexivity|].
    apply list_elem_of_In, filter_In. split.
    - apply list_elem_of_In. eapply list_elem_of_lookup_2. exact Hj.
    - now rewrite Hlj. }
  intros Hnd Hi Hj Hne Hli Hlj.
  destruct (Nat.lt_trichotomy i j) as [H|[H|H]]; [|contradiction|].
  - now apply (Hlt i j).
  - intros Heq. now apply (Hlt j i cj ci).
Qed.

Lemma pair_keys_insert_same (chains : list Chain.t) i x y :
  chains !! i = Some y -> Chain.components x = Chain.components y ->
  pair_keys (<[i:=x]> chains) = pair_keys chains.
Proof.
  intros Hi Heq.
  rewrite insert_take_drop by (eapply lookup_lt_Some; eassumption).
  rewrite <- (take_drop_middle chains i y Hi) at 3.
  rewrite !pair_keys_app. f_equal.
  change (x :: drop (S i) chains) with ([x] ++ drop (S i) chains).
  change (y :: drop (S i) chains) with ([y] ++ drop (S i) chains).
  rewrite !pair_keys_app. f_equal.
  unfold pair_keys. cbn [List.filter]. rewrite Heq.
  destruct (_ =? 2)%nat; cbn [map]; congruence.
Qed.

Lemma pair_keys_insert_long (chains : list Chain.t) i x y :
  chains !! i = Some y -> length (Chain.components x) <> 2%nat ->
  NoDup (pair_keys chains) -> NoDup (pair_keys (<[i:=x]> chains)).
Proof.
  intros Hi Hlen Hnd.
  rewrite insert_take_drop by (eapply lookup_lt_Some; eassumption).
  rewrite <- (take_drop_middle chains i y Hi) in Hnd.
  change (x :: drop (S i) chains) with ([x] ++ drop (S i) chains).
  change (y :: drop (S i) chains) with ([y] ++ drop (S i) chains) in Hnd.
  rewrite !pair_keys_app in *.
  assert (Hx : pair_keys [x] = []).
  { unfold pair_keys. cbn [List.filter].
    destruct (Nat.eqb_spec (length (Chain.components x)) 2); [contradiction|].
    reflexivity. }
  rewrite Hx. cbn [app].
  apply NoDup_app in Hnd as (H1 & Hdisj & H2).
  apply NoDup_app in H2 as (_ & _ & H3).
  apply NoDup_app. split; [exact H1|]. split; [|exact H3].
  intros k Hk1 Hk2. apply (Hdisj k Hk1). apply elem_of_app. now right.
Qed.

Lemma pair_keys_perm (l1 l2 : list Chain.t) :
  l1 ≡ₚ l2 -> pair_keys l1 ≡ₚ pair_keys l2.
Proof.
  unfold pair_keys. induction 1 as [|c l1 l2 _ IH|c d l|l1 l2 l3 _ IH1 _ IH2];
    cbn [List.filter].
  - reflexivity.
  - destruct (_ =? 2)%nat; cbn [map]; now rewrite IH.
  - destruct (length (Chain.components c) =? 2)%nat,
             (length (Chain.components d) =? 2)%nat; cbn [map];
      try reflexivity. apply Permutation_swap.
  - now rewrite IH1.
Qed.

Lemma pair_keys_filter (P : Chain.t -> bool) (l : list Chain.t) :
  sublist (pair_keys (List.filter P l)) (pair_keys l).
Proof.
  unfold pair_keys. induction l as [|c l IH]; cbn [List.filter]; [constructor|].
  destruct (P c); cbn [List.filter];
    destruct (_ =? 2)%nat; cbn [map];
    try (now constructor); try exact IH.
Qed.

(** A merge keeps the invariant. *)
Lemma do_merge_pool_ok i j ci cj p q (st : list Chain.t * nat) :
  fst st !! i = Some ci -> fst st !! j = Some cj -> i <> j ->
  pool_ok (fst st) ->
  pool_ok (fst (do_merge i j (absorb ci cj p q) cj st)).
Proof.
  intros Hi Hj Hne [Hall Hnd]. unfold do_merge. cbn [fst].
  assert (Hci : chain_ok ci)
    by (rewrite List.Forall_forall in Hall; apply Hall, list_elem_of_In;
        eapply list_elem_of_lookup_2; eassumption).
  assert (Hcj : chain_ok cj)
    by (rewrite List.Forall_forall in Hall; apply Hall, list_elem_of_In;
        eapply list_elem_of_lookup_2; eassumption).
  assert (H3 : has3 (Chain.components ci ++ Chain.components cj)).
  { destruct Hci as [Hpi|H3i]; [|now apply has3_app_l].
    destruct Hcj as [Hpj|H3j]; [|now apply has3_app_r].
    apply has3_two_pairs; [exact Hpi | exact Hpj |].
    eapply pair_keys_distinct; eauto using is_pair_length. }
  assert (Hj' : <[i:=absorb ci cj p q]> (fst st) !! j = Some cj)
    by (rewrite list_lookup_insert_ne by exact Hne; exact Hj).
  split.
  - apply Forall_insert; [apply Forall_insert; [exact Hall|]|].
    + right. exact H3.
    + exact Hcj.
  - rewrite (pair_keys_insert_same _ j _ cj Hj') by reflexivity.
    apply (pair_keys_insert_long _ i _ ci Hi); [|exact Hnd].
    cbn [absorb Chain.components]. apply has3_length in H3. lia.
Qed.

Lemma merge_step_pool_ok (i j : nat) (st : list Chain.t * nat) :
  pool_ok (fst st) -> pool_ok (fst (merge_step i j st)).
Proof.
  intros Hok.
  destruct (merge_step_cases i j st)
    as [->|(ci & cj & p & q & Hi & Hj & Hne & _ & _ & _ & ->)];
    [exact Hok|].
  now apply do_merge_pool_ok.
Qed.

Lemma set_merged_pool_ok (b : bool) (chains : list Chain.t) :
  pool_ok chains -> pool_ok (map (set_merged b) chains).
Proof.
  intros [Hall Hnd]. split.
  - apply Forall_fmap. eapply Forall_impl; [exact Hall|].
    intros c Hc. exact Hc.
  - replace (pair_keys (map (set_merged b) chains)) with (pair_keys chains);
      [exact Hnd|].
    unfold pair_keys. clear. induction chains as [|c l IH]; [reflexivity|].
    cbn [map List.filter set_merged Chain.components].
    destruct (_ =? 2)%nat; cbn [map set_merged Chain.components]; congruence.
Qed.

Lemma merge_scan_pool_ok (chains : list Chain.t) :
  pool_ok chains -> pool_ok (fst (merge_scan chains)).
Proof.
  intros Hok. unfold merge_scan. rewrite (fold_rows_cols merge_step).
  set (pairs := flat_map _ _).
  assert (H0 : pool_ok (fst (map (set_merged false) chains, 0%nat)))
    by now apply set_merged_pool_ok.
  revert H0. generalize (map (set_merged false) chains, 0%nat).
  induction pairs as [|[i j] pairs IH]; intros st Hst; [exact Hst|].
  cbn [fold_left fst snd]. apply IH. now apply merge_step_pool_ok.
Qed.

Lemma merge_pass_pool_ok (chains : list Chain.t) :
  pool_ok chains -> pool_ok (fst (merge_pass chains)).
Proof.
  intros Hok. unfold merge_pass.
  pose proof (merge_scan_pool_ok chains Hok) as [Hall Hnd].
  destruct (merge_scan chains) as [chains' merges]. cbn [fst] in *.
  split.
  - rewrite Sort.sort_perm.
    rewrite List.Forall_forall in *. intros c Hc.
    apply filter_In in Hc as [Hc _]. now apply Hall.
  - rewrite (pair_keys_perm _ _ (Sort.sort_perm _ _)).
    eapply sublist_NoDup; [exact Hnd | apply pair_keys_filter].
Qed.

Lemma merge_loop_pool_ok (fuel : nat) (chains result : list Chain.t) :
  pool_ok chains -> merge_loop fuel chains = Some result -> pool_ok result.
Proof.
  revert chains. induction fuel as [|fuel IH]; intros chains Hok; [discriminate|].
  cbn [merge_loop].
  pose proof (merge_pass_pool_ok chains Hok) as Hok'.
  destruct (merge_pass chains) as [chains' merges]. cbn [fst] in Hok'.
  destruct (0 <? merges)%nat; [now apply IH|].
  now intros [= <-].
Qed.

(** The seeds are pairs, each pair once. *)
Lemma seed_components (i j : nat) (c : Chain.t) :
  seed i j = Some c -> Chain.components c = [i; j].
Proof.
  unfold seed. cbv zeta.
  repeat match goal with
         | |- context [if ?b then _ else _] => destruct b
         end; try discriminate.
  now intros [= <-].
Qed.

Lemma seed_keys_elem_of (i : nat) (js : list nat) (k : list nat) :
  k ∈ map Chain.components (omap (seed i) js) ->
  exists j, j ∈ js /\ k = [i; j].
Proof.
  intros Hk. apply list_elem_of_fmap in Hk as (c & -> & Hc).
  apply list_elem_of_omap in Hc as (j & Hj & Hc).
  exists j. split; [exact Hj | now apply seed_components].
Qed.

Lemma seed_keys_NoDup (i : nat) (js : list nat) :
  NoDup js -> NoDup (map Chain.components (omap (seed i) js)).
Proof.
  induction 1 as [|j js Hnotin Hnd IH]; [constructor|].
  assert (Hcons : omap (seed i) (j :: js)
                  = match seed i j with
                    | Some c => c :: omap (seed i) js
                    | None => omap (seed i) js
                    end) by reflexivity.
  rewrite Hcons. clear Hcons.
  destruct (seed i j) as [c|] eqn:Hc; [|exact IH].
  cbn [map]. constructor; [|exact IH].
  intros Hin. apply seed_keys_elem_of in Hin as (j' & Hj' & Heq).
  rewrite (seed_components _ _ _ Hc) in Heq. congruence.
Qed.

Lemma seeds_pool_ok : pool_ok seeds.
Proof.
  unfold seeds. split.
  - rewrite List.Forall_forall. intros c Hc.
    apply in_flat_map in Hc as (i & Hi & Hc).
    apply list_elem_of_In, list_elem_of_omap in Hc as (j & Hj & Hc).
    apply elem_of_seq in Hj. left. exists i, j.
    split; [lia | now apply seed_components].
  - eapply sublist_NoDup.
    2:{ unfold pair_keys. apply fmap_sublist, filter_sublist. }
    rewrite map_flat_map. apply NoDup_flat_map.
    + apply NoDup_seq.
    + intros i _. apply seed_keys_NoDup, NoDup_seq.
    + intros i1 i2 k _ _ H1 H2.
      apply seed_keys_elem_of in H1 as (j1 & _ & ->).
      apply seed_keys_elem_of in H2 as (j2 & _ & [= -> _]). reflexivity.
Qed.

Lemma sorted_seeds_pool_ok : pool_ok (Sort.sort chainSortDist seeds).
Proof.
  destruct seeds_pool_ok as [Hall Hnd]. split.
  - now rewrite Sort.sort_perm.
  - now rewrite (pair_keys_perm _ _ (Sort.sort_perm _ _)).
Qed.

(** In a pool that keeps the invariant, a list of 3 entries or more is a
    list of 3 components or more, before and after the duplicates go. *)
Lemma chain_ok_accept (c : Chain.t) :
  chain_ok c ->
  (3 <=? length (Chain.components c))%nat
  = (3 <=? length (remove_duplicates (Chain.components c)))%nat.
Proof.
  destruct (remove_duplicates_spec (Chain.components c)) as (_ & Hnd & Hel).
  intros [(a & b & Hab & Heq)|H3].
  - rewrite Heq. unfold remove_duplicates. cbn [Sort.sort foldr Sort.insert].
    destruct (Nat.ltb_spec b a); [lia|]. cbn [Sort.unique].
    destruct (Nat.eqb_spec a b); [lia|]. reflexivity.
  - pose proof (has3_length _ H3) as Hlen.
    assert (H3' : has3 (remove_duplicates (Chain.components c))).
    { destruct H3 as (x & y & z & H). exists x, y, z. rewrite !Hel. exact H. }
    apply has3_length in H3'.
    destruct (Nat.leb_spec 3 (length (Chain.components c))); [|lia].
    destruct (Nat.leb_spec 3 (length (remove_duplicates (Chain.components c))));
      [reflexivity | lia].
Qed.

(** C3. The merge loop is left with a pool of chains; [makeChains] returns
    the chains of the pool whose component list, duplicates removed, has 3
    members or more, and every chain it returns carries a sorted list
    without duplicates of at least 3 component indices. *)
Theorem makeChains_three_components :
  exists pool chains,
    merged_chains = Some pool
    /\ makeChains = Some chains
    /\ chains
       = map deduplicated
           (List.filter
              (fun c =>
                 (3 <=? length (remove_duplicates (Chain.components c)))%nat)
              pool)
    /\ forall c, c ∈ chains ->
         NoDup (Chain.components c)
         /\ StronglySorted lt (Chain.components c)
         /\ (3 <= length (Chain.components c))%nat.
Proof.
  unfold makeChains, merged_chains.
  destruct (merge_loop_returns (S (length (Sort.sort chainSortDist seeds)))
              (Sort.sort chainSortDist seeds))
    as (pool & last & Hloop & _ & _); [lia|].
  pose proof (merge_loop_pool_ok _ _ _ sorted_seeds_pool_ok Hloop) as [Hall _].
  exists pool, (accept_chains pool). rewrite Hloop.
  split; [reflexivity|]. split; [reflexivity|].
  assert (Hfilter :
    List.filter (fun c => (3 <=? length (Chain.components c))%nat) pool
    = List.filter
        (fun c => (3 <=? length (remove_duplicates (Chain.components c)))%nat)
        pool).
  { apply List.filter_ext_in. intros c Hc. apply chain_ok_accept.
    rewrite List.Forall_forall in Hall. now apply Hall. }
  unfold accept_chains. split; [now rewrite Hfilter|].
  intros c Hc. apply list_elem_of_fmap in Hc as (c0 & -> & Hc0).
  apply list_elem_of_In, filter_In in Hc0 as [Hc0 Hlen].
  cbn [deduplicated Chain.components].
  destruct (remove_duplicates_spec (Chain.components c0)) as (Hs & Hnd & _).
  split; [exact Hnd|]. split; [exact Hs|].
  rewrite chain_ok_accept in Hlen
    by (rewrite List.Forall_forall in Hall; now apply Hall).
  now apply Nat.leb_le.
Qed.

(** *** At the exit of the loop no pair of chains can still merge *)

(** The direction of a chain with the end points [p] and [q], as the
    seeds and the merges compute it. *)
Definition direction_of (p q : nat) : option Point2dFloat.t :=
  unit_vector
    (Point2dFloat.x (compCenters !!! p) - Point2dFloat.x (compCenters !!! q))
    (Point2dFloat.y (compCenters !!! p) - Point2dFloat.y (compCenters !!! q)).

Definition direction_ok (c : Chain.t) : Prop :=
  Chain.direction c = direction_of (Chain.p c) (Chain.q c).

(** The condition under which the body of the loops merges [cj] into
    [ci]: a shared end, and the test of the first matching that holds. *)
Definition mergeable (ci cj : Chain.t) : bool :=
  sharesOneEnd ci cj
  && (if (Chain.p ci =? Chain.p cj)%nat then
        within_strictness
          (dot_opposite (Chain.direction ci) (Chain.direction cj))
      else if (Chain.p ci =? Chain.q cj)%nat then
        within_strictness (dot (Chain.direction ci) (Chain.direction cj))
      else if (Chain.q ci =? Chain.p cj)%nat then
        within_strictness (dot (Chain.direction ci) (Chain.direction cj))
      else if (Chain.q ci =? Chain.q cj)%nat then
        within_strictness
          (dot_opposite (Chain.direction ci) (Chain.direction cj))
      else false).

Lemma merge_step_snd (i j : nat) (st : list Chain.t * nat) :
  (snd st <= snd (merge_step i j st))%nat
  /\ (snd (merge_step i j st) = snd st -> merge_step i j st = st).
Proof.
  destruct (merge_step_cases i j st)
    as [->|(ci & cj & p & q & _ & _ & _ & _ & _ & _ & ->)];
    [split; [lia | reflexivity]|].
  unfold do_merge. cbn [snd]. split; [lia|]. intros H. lia.
Qed.

Lemma merge_step_idle (i j : nat) (st : list Chain.t * nat) ci cj :
  merge_step i j st = st ->
  fst st !! i = Some ci -> fst st !! j = Some cj -> i <> j ->
  Chain.merged ci = false -> Chain.merged cj = false ->
  mergeable ci cj = false.
Proof.
  unfold merge_step, mergeable. intros Hstep Hi Hj Hne Hmi Hmj.
  rewrite Hi, Hj in Hstep.
  destruct (Nat.eqb_spec i j) as [|_]; [contradiction|].
  rewrite Hmi, Hmj in Hstep. cbn [negb andb] in Hstep.
  destruct (sharesOneEnd ci cj); [|reflexivity]. cbn [andb].
  repeat match goal with
         | |- context [if ?b then _ else _] => destruct b
         | |- context [within_strictness ?d] =>
             destruct (within_strictness d) eqn:?
         end;
    try reflexivity;
    exfalso; apply (f_equal snd) in Hstep; unfold do_merge in Hstep;
    cbn [snd] in Hstep; lia.
Qed.

Lemma fold_merge_step_snd pairs (st : list Chain.t * nat) :
  (snd st
   <= snd (fold_left (fun st ij => merge_step (fst ij) (snd ij) st) pairs st))%nat.
Proof.
  revert st. induction pairs as [|[i j] pairs IH]; intros st; [reflexivity|].
  cbn [fold_left fst snd]. etransitivity; [|apply IH].
  apply merge_step_snd.
Qed.

(** A scan that counts no merge has left the chains alone at every pair
    of indices. *)
Lemma fold_merge_step_idle pairs (st : list Chain.t * nat) :
  snd (fold_left (fun st ij => merge_step (fst ij) (snd ij) st) pairs st)
  = snd st ->
  fold_left (fun st ij => merge_step (fst ij) (snd ij) st) pairs st = st
  /\ forall i j, (i, j) ∈ pairs -> merge_step i j st = st.
Proof.
  revert st. induction pairs as [|[i j] pairs IH]; intros st Hsnd.
  - split; [reflexivity|]. intros i j H. inversion H.
  - cbn [fold_left fst snd] in *.
    pose proof (fold_merge_step_snd pairs (merge_step i j st)) as Hmono.
    destruct (merge_step_snd i j st) as [Hle Hidle].
    assert (Hstep : merge_step i j st = st) by (apply Hidle; lia).
    rewrite Hstep in *. destruct (IH st Hsnd) as [Hfold Hall].
    split; [exact Hfold|].
    intros i' j' Hin. apply elem_of_cons in Hin as [[= -> ->]|Hin];
      [exact Hstep | now apply Hall].
Qed.

Lemma merge_scan_idle (chains : list Chain.t) :
  snd (merge_scan chains) = 0%nat ->
  fst (merge_scan chains) = map (set_merged false) chains
  /\ forall i j ci cj,
       map (set_merged false) chains !! i = Some ci ->
       map (set_merged false) chains !! j = Some cj ->
       i <> j -> mergeable ci cj = false.
Proof.
  unfold merge_scan. rewrite (fold_rows_cols merge_step).
  intros Hzero.
  destruct (fold_merge_step_idle _ _ Hzero) as [Hfold Hall].
  rewrite Hfold. cbn [fst]. split; [reflexivity|].
  intros i j ci cj Hi Hj Hne.
  apply (merge_step_idle i j (map (set_merged false) chains, 0%nat));
    try assumption.
  - apply Hall. apply list_elem_of_In, in_flat_map. exists i. split.
    + apply in_seq. apply lookup_lt_Some in Hi. rewrite length_map in Hi. lia.
    + apply in_map, in_seq. apply lookup_lt_Some in Hj.
      rewrite length_map in Hj. lia.
  - apply list_lookup_fmap_Some in Hi as (c & -> & _). reflexivity.
  - apply list_lookup_fmap_Some in Hj as (c & -> & _). reflexivity.
Qed.

Lemma filter_all {A} (P : A -> bool) (l : list A) :
  (forall a, a ∈ l -> P a = true) -> List.filter P l = l.
Proof.
  induction l as [|a l IH]; intros H; [reflexivity|]. cbn [List.filter].
  rewrite (H a) by left. f_equal. apply IH. intros b Hb. apply H. now right.
Qed.

(** After a pass without a merge, no two chains of the pool are
    mergeable, whatever their order. *)
Lemma merge_pass_idle (last result : list Chain.t) :
  merge_pass last = (result, 0%nat) ->
  result ≡ₚ map (set_merged false) last
  /\ forall i j ci cj,
       result !! i = Some ci -> result !! j = Some cj -> i <> j ->
       mergeable ci cj = false.
Proof.
  unfold merge_pass. intros Hpass.
  pose proof (merge_scan_idle last) as Hidle.
  destruct (merge_scan last) as [chains' merges]. cbn [fst snd] in Hidle.
  injection Hpass as Hres ->. destruct Hidle as [-> Hall]; [reflexivity|].
  rewrite filter_all in Hres.
  2:{ intros c Hc. apply list_elem_of_fmap in Hc as (c0 & -> & _). reflexivity. }
  assert (Hperm : result ≡ₚ map (set_merged false) last)
    by (rewrite <- Hres; apply Sort.sort_perm).
  split; [exact Hperm|].
  apply Permutation_inj in Hperm as (_ & f & Hinj & Hf).
  intros i j ci cj Hi Hj Hne. rewrite Hf in Hi, Hj.
  apply (Hall (f i) (f j)); try assumption.
  intros Heq. apply Hne, Hinj, Heq.
Qed.

(** The directions of the pool follow from the end points. *)
Lemma merge_step_direction_ok (i j : nat) (st : list Chain.t * nat) :
  Forall direction_ok (fst st) -> Forall direction_ok (fst (merge_step i j st)).
Proof.
  intros Hok.
  destruct (merge_step_cases i j st)
    as [->|(ci & cj & p & q & Hi & Hj & Hne & _ & _ & _ & ->)];
    [exact Hok|].
  unfold do_merge. cbn [fst].
  apply Forall_insert; [apply Forall_insert; [exact Hok|]|].
  - reflexivity.
  - rewrite List.Forall_forall in Hok.
    apply (Hok cj), list_elem_of_In. eapply list_elem_of_lookup_2. exact Hj.
Qed.

Lemma merge_pass_direction_ok (chains : list Chain.t) :
  Forall direction_ok chains -> Forall direction_ok (fst (merge_pass chains)).
Proof.
  intros Hok. unfold merge_pass.
  assert (Hscan : Forall direction_ok (fst (merge_scan chains))).
  { unfold merge_scan. rewrite (fold_rows_cols merge_step).
    set (pairs := flat_map _ _).
    assert (H0 : Forall direction_ok (fst (map (set_merged false) chains, 0%nat))).
    { cbn [fst]. apply Forall_fmap. eapply Forall_impl; [exact Hok|].
      intros c Hc. exact Hc. }
    revert H0. generalize (map (set_merged false) chains, 0%nat).
    induction pairs as [|[i j] pairs IH]; intros st Hst; [exact Hst|].
    cbn [fold_left fst snd]. apply IH. now apply merge_step_direction_ok. }
  destruct (merge_scan chains) as [chains' merges]. cbn [fst] in *.
  rewrite Sort.sort_perm.
  rewrite List.Forall_forall in *. intros c Hc.
  apply filter_In in Hc as [Hc _]. now apply Hscan.
Qed.

Lemma merge_loop_direction_ok (fuel : nat) (chains result : list Chain.t) :
  Forall direction_ok chains -> merge_loop fuel chains = Some result ->
  Forall direction_ok result.
Proof.
  revert chains. induction fuel as [|fuel IH]; intros chains Hok; [discriminate|].
  cbn [merge_loop].
  pose proof (merge_pass_direction_ok chains Hok) as Hok'.
  destruct (merge_pass chains) as [chains' merges]. cbn [fst] in Hok'.
  destruct (0 <? merges)%nat; [now apply IH|].
  now intros [= <-].
Qed.

Lemma seeds_direction_ok : Forall direction_ok (Sort.sort chainSortDist seeds).
Proof.
  rewrite Sort.sort_perm. rewrite List.Forall_forall. intros c Hc.
  apply in_flat_map in Hc as (i & _ & Hc).
  apply list_elem_of_In, list_elem_of_omap in Hc as (j & _ & Hc).
  unfold seed in Hc. cbv zeta in Hc.
  repeat match type of Hc with
         | context [if ?b then _ else _] => destruct b
         end; try discriminate.
  injection Hc as <-. reflexivity.
Qed.

(** The square root of 0 is 0. *)
Hypothesis sqrt_zero : forall a, (a == 0)%Q -> (sqrt a == 0)%Q.

(** A chain whose end points coincide has no finite direction. *)
Lemma direction_of_same (p : nat) : direction_of p p = None.
Proof.
  unfold direction_of, unit_vector.
  rewrite (proj2 (Qeq_bool_iff _ _)); [reflexivity|].
  apply sqrt_zero. ring.
Qed.

Lemma within_strictness_None_l dj :
  within_strictness (dot None dj) = false
  /\ within_strictness (dot_opposite None dj) = false.
Proof. split; reflexivity. Qed.

Lemma within_strictness_None_r di :
  within_strictness (dot di None) = false
  /\ within_strictness (dot_opposite di None) = false.
Proof. destruct di; split; reflexivity. Qed.

(** What the idle pass says about two chains, matching by matching. *)
Lemma not_mergeable_matchings (ci cj : Chain.t) :
  direction_ok ci -> direction_ok cj -> mergeable ci cj = false ->
  (Chain.p ci = Chain.p cj ->
   within_strictness
     (dot_opposite (Chain.direction ci) (Chain.direction cj)) = false)
  /\ (Chain.p ci = Chain.q cj ->
      within_strictness (dot (Chain.direction ci) (Chain.direction cj)) = false)
  /\ (Chain.q ci = Chain.p cj ->
      within_strictness (dot (Chain.direction ci) (Chain.direction cj)) = false)
  /\ (Chain.q ci = Chain.q cj ->
      within_strictness
        (dot_opposite (Chain.direction ci) (Chain.direction cj)) = false).
Proof.
  intros Hdi Hdj Hm. unfold mergeable, sharesOneEnd in Hm.
  assert (Hci : Chain.p ci = Chain.q ci -> Chain.direction ci = None)
    by (intros H; rewrite Hdi, H; apply direction_of_same).
  assert (Hcj : Chain.p cj = Chain.q cj -> Chain.direction cj = None)
    by (intros H; rewrite Hdj, H; apply direction_of_same).
  destruct (Nat.eqb_spec (Chain.p ci) (Chain.p cj)) as [Hpp|Hpp];
    destruct (Nat.eqb_spec (Chain.p ci) (Chain.q cj)) as [Hpq|Hpq];
    destruct (Nat.eqb_spec (Chain.q ci) (Chain.p cj)) as [Hqp|Hqp];
    destruct (Nat.eqb_spec (Chain.q ci) (Chain.q cj)) as [Hqq|Hqq];
    cbn [orb andb] in Hm;
    repeat split; intros Heq; try congruence;
    try (rewrite Hci by congruence; apply within_strictness_None_l);
    try (rewrite Hcj by congruence; apply within_strictness_None_r).
Qed.

(** X24. When the merge loop is left, its last pass has performed no merge,
    and for every two different chains of the pool and every matching of
    their end points (p-p, p-q, q-p, q-q) that holds, the test of that
    matching, [acos] of the dot product with its sign below [PI / 6],
    fails. *)
Theorem no_mergeable_pair_survives :
  exists pool last,
    merged_chains = Some pool
    /\ merge_pass last = (pool, 0%nat)
    /\ forall i j ci cj,
         i <> j -> pool !! i = Some ci -> pool !! j = Some cj ->
         (Chain.p ci = Chain.p cj ->
          within_strictness
            (dot_opposite (Chain.direction ci) (Chain.direction cj)) = false)
         /\ (Chain.p ci = Chain.q cj ->
             within_strictness
               (dot (Chain.direction ci) (Chain.direction cj)) = false)
         /\ (Chain.q ci = Chain.p cj ->
             within_strictness
               (dot (Chain.direction ci) (Chain.direction cj)) = false)
         /\ (Chain.q ci = Chain.q cj ->
             within_strictness
               (dot_opposite (Chain.direction ci) (Chain.direction cj)) = false).
Proof.
  unfold merged_chains.
  destruct (merge_loop_returns (S (length (Sort.sort chainSortDist seeds)))
              (Sort.sort chainSortDist seeds))
    as (pool & last & Hloop & Hlast & _); [lia|].
  pose proof (merge_loop_direction_ok _ _ _ seeds_direction_ok Hloop) as Hdir.
  destruct (merge_pass_idle last pool Hlast) as [_ Hidle].
  exists pool, last. split; [exact Hloop|]. split; [exact Hlast|].
  intros i j ci cj Hne Hi Hj.
  rewrite List.Forall_forall in Hdir.
  apply not_mergeable_matchings.
  - apply Hdir, list_elem_of_In. eapply list_elem_of_lookup_2. exact Hi.
  - apply Hdir, list_elem_of_In. eapply list_elem_of_lookup_2. exact Hj.
  - now apply (Hidle i j).
Qed.

(** *** Merging does not depend on the order of the two chains *)

Lemma Qmult_comm_eq (a b : Q) : (a * b)%Q = (b * a)%Q.
Proof. unfold Qmult. f_equal; [apply Z.mul_comm | apply Pos.mul_comm]. Qed.

Lemma Qmult_opp_swap (a b : Q) : (a * - b)%Q = (b * - a)%Q.
Proof.
  unfold Qmult, Qopp. cbn [Qnum Qden]. f_equal; [lia | apply Pos.mul_comm].
Qed.

Lemma dot_comm (di dj : option Point2dFloat.t) : dot di dj = dot dj di.
Proof.
  destruct di as [di|], dj as [dj|]; cbn [dot]; try reflexivity.
  now rewrite (Qmult_comm_eq (Point2dFloat.x di)),
    (Qmult_comm_eq (Point2dFloat.y di)).
Qed.

Lemma dot_opposite_comm (di dj : option Point2dFloat.t) :
  dot_opposite di dj = dot_opposite dj di.
Proof.
  destruct di as [di|], dj as [dj|]; cbn [dot_opposite]; try reflexivity.
  now rewrite (Qmult_opp_swap (Point2dFloat.x di)),
    (Qmult_opp_swap (Point2dFloat.y di)).
Qed.

(** X13. Whether two chains share an end, and whether the loop would
    merge them, does not depend on which of the two is [chains[i]] and
    which is [chains[j]]: the four matchings select the same dot product
    with the same sign either way. *)
Theorem mergeable_sym (ci cj : Chain.t) :
  sharesOneEnd ci cj = sharesOneEnd cj ci
  /\ mergeable ci cj = mergeable cj ci.
Proof.
  assert (Hs : sharesOneEnd ci cj = sharesOneEnd cj ci).
  { unfold sharesOneEnd.
    rewrite (Nat.eqb_sym (Chain.p cj) (Chain.p ci)),
      (Nat.eqb_sym (Chain.p cj) (Chain.q ci)),
      (Nat.eqb_sym (Chain.q cj) (Chain.q ci)),
      (Nat.eqb_sym (Chain.q cj) (Chain.p ci)).
    destruct (Chain.p ci =? Chain.p cj)%nat, (Chain.p ci =? Chain.q cj)%nat,
      (Chain.q ci =? Chain.q cj)%nat, (Chain.q ci =? Chain.p cj)%nat;
      reflexivity. }
  split; [exact Hs|]. unfold mergeable. rewrite Hs.
  rewrite (dot_comm (Chain.direction cj)),
    (dot_opposite_comm (Chain.direction cj)).
  rewrite (Nat.eqb_sym (Chain.p cj) (Chain.p ci)),
    (Nat.eqb_sym (Chain.p cj) (Chain.q ci)),
    (Nat.eqb_sym (Chain.q cj) (Chain.q ci)),
    (Nat.eqb_sym (Chain.q cj) (Chain.p ci)).
  destruct (Chain.p ci =? Chain.p cj)%nat, (Chain.p ci =? Chain.q cj)%nat,
    (Chain.q ci =? Chain.q cj)%nat, (Chain.q ci =? Chain.p cj)%nat;
    reflexivity.
Qed.

(** *** The eligible pairs *)

Lemma seed_ends (i j : nat) (c : Chain.t) :
  seed i j = Some c ->
  Chain.p c = i /\ Chain.q c = j /\ Chain.components c = [i; j]
  /\ Chain.merged c = false
  /\ Chain.direction c = direction_of i j.
Proof.
  unfold seed. cbv zeta.
  repeat match goal with
         | |- context [if ?b then _ else _] => destruct b
         end; try discriminate.
  intros [= <-]. repeat split; reflexivity.
Qed.

Lemma elem_of_seeds (c : Chain.t) :
  c ∈ seeds
  <-> exists i j, (i < j < ncomponents)%nat /\ seed i j = Some c.
Proof.
  unfold seeds. rewrite list_elem_of_In, in_flat_map. split.
  - intros (i & Hi & Hc). apply in_seq in Hi.
    apply list_elem_of_In, list_elem_of_omap in Hc as (j & Hj & Hc).
    apply elem_of_seq in Hj. exists i, j. split; [lia | exact Hc].
  - intros (i & j & Hij & Hc). exists i. split; [apply in_seq; lia|].
    apply list_elem_of_In, list_elem_of_omap. exists j.
    split; [apply elem_of_seq; lia | exact Hc].
Qed.

Lemma seeds_count (k a : nat) :
  (a + k = ncomponents)%nat ->
  (2 * length (flat_map
                 (fun i => omap (seed i) (seq (S i) (ncomponents - S i)))
                 (seq a k))
   <= k * (k - 1))%nat.
Proof.
  revert a. induction k as [|k IH]; intros a Hak; [cbn; lia|].
  cbn [seq flat_map]. rewrite length_app.
  specialize (IH (S a)).
  pose proof (omap_length_le (seed a) (seq (S a) (ncomponents - S a))) as Hrow.
  rewrite length_seq in Hrow.
  assert (Hk : (ncomponents - S a = k)%nat) by lia.
  nia.
Qed.

(** X14. The chains the first loops push are the eligible pairs: one
    chain for each pair [i < j] of components that passes the tests, with
    the end points [i] and [j], the component list [i, j] and the unit
    vector from the centre of [j] to the centre of [i] as direction; no
    pair twice, so at most [n (n - 1) / 2] chains for [n] components. *)
Theorem seeds_spec :
  (forall c, c ∈ seeds
     <-> exists i j, (i < j < ncomponents)%nat /\ seed i j = Some c)
  /\ (forall c, c ∈ seeds ->
        (Chain.p c < Chain.q c < ncomponents)%nat
        /\ Chain.components c = [Chain.p c; Chain.q c]
        /\ Chain.merged c = false
        /\ Chain.direction c = direction_of (Chain.p c) (Chain.q c))
  /\ NoDup (map (fun c => (Chain.p c, Chain.q c)) seeds)
  /\ (2 * length seeds <= ncomponents * (ncomponents - 1))%nat.
Proof.
  split; [exact elem_of_seeds|]. split; [|split].
  - intros c Hc. apply elem_of_seeds in Hc as (i & j & Hij & Hc).
    apply seed_ends in Hc as (-> & -> & Hcomp & Hm & Hd).
    repeat split; try assumption; lia.
  - destruct seeds_pool_ok as [_ Hnd].
    assert (Hkeys : pair_keys seeds = map Chain.components seeds).
    { unfold pair_keys. f_equal. apply filter_all. intros c Hc.
      apply elem_of_seeds in Hc as (i & j & _ & Hc).
      apply seed_ends in Hc as (_ & _ & -> & _). reflexivity. }
    rewrite Hkeys in Hnd.
    assert (Hmap : map Chain.components seeds
                   = map (fun pq : nat * nat => [fst pq; snd pq])
                       (map (fun c => (Chain.p c, Chain.q c)) seeds)).
    { rewrite map_map. apply map_ext_in. intros c Hc.
      apply list_elem_of_In, elem_of_seeds in Hc as (i & j & _ & Hc).
      apply seed_ends in Hc as (-> & -> & -> & _). reflexivity. }
    rewrite Hmap in Hnd. eapply NoDup_fmap_1. exact Hnd.
  - apply (seeds_count ncomponents 0). lia.
Qed.

(** *** What the merges keep *)

(** The end points a merge gives the chain that grows are end points of
    the two chains. *)
Lemma merge_step_ends (i j : nat) (st : list Chain.t * nat) :
  merge_step i j st = st
  \/ exists ci cj p q,
       fst st !! i = Some ci /\ fst st !! j = Some cj /\ i <> j
       /\ Chain.merged ci = false /\ Chain.merged cj = false
       /\ (p = Chain.p ci \/ p = Chain.p cj \/ p = Chain.q cj)
       /\ (q = Chain.q ci \/ q = Chain.p cj \/ q = Chain.q cj)
       /\ merge_step i j st = do_merge i j (absorb ci cj p q) cj st.
Proof.
  unfold merge_step.
  destruct (fst st !! i) as [ci|] eqn:Hi; [|now left].
  destruct (fst st !! j) as [cj|] eqn:Hj; [|now left].
  destruct (Nat.eqb_spec i j) as [|Hne]; [now left|]. cbn [negb].
  destruct (Chain.merged ci) eqn:Hmi; [now left|].
  destruct (Chain.merged cj) eqn:Hmj; [now left|]. cbn [negb andb].
  destruct (sharesOneEnd ci cj); [|now left].
  destruct (Chain.p ci =? Chain.p cj)%nat.
  { destruct (within_strictness _); [|now left].
    right. exists ci, cj, (Chain.q cj), (Chain.q ci). tauto. }
  destruct (Chain.p ci =? Chain.q cj)%nat.
  { destruct (within_strictness _); [|now left].
    right. exists ci, cj, (Chain.p cj), (Chain.q ci). tauto. }
  destruct (Chain.q ci =? Chain.p cj)%nat.
  { destruct (within_strictness _); [|now left].
    right. exists ci, cj, (Chain.p ci), (Chain.q cj). tauto. }
  destruct (Chain.q ci =? Chain.q cj)%nat; [|now left].
  destruct (within_strictness _); [|now left].
  right. exists ci, cj, (Chain.p ci), (Chain.p cj). tauto.
Qed.

(** A property of the single chains that the flags do not touch and that
    a merge hands on holds of every chain the loop is left with. *)
Lemma merge_loop_Forall (P : Chain.t -> Prop) :
  (forall c b, P c -> P (set_merged b c)) ->
  (forall ci cj p q, P ci -> P cj ->
     (p = Chain.p ci \/ p = Chain.p cj \/ p = Chain.q cj) ->
     (q = Chain.q ci \/ q = Chain.p cj \/ q = Chain.q cj) ->
     P (absorb ci cj p q)) ->
  forall fuel chains result,
    Forall P chains -> merge_loop fuel chains = Some result ->
    Forall P result.
Proof.
  intros Hflag Habsorb.
  assert (Hstep : forall i j st,
            Forall P (fst st) -> Forall P (fst (merge_step i j st))).
  { intros i j st Hall.
    destruct (merge_step_ends i j st)
      as [->|(ci & cj & p & q & Hi & Hj & _ & _ & _ & Hp & Hq & ->)];
      [exact Hall|].
    unfold do_merge. cbn [fst].
    assert (Hci : P ci)
      by (rewrite List.Forall_forall in Hall; apply Hall, list_elem_of_In;
          eapply list_elem_of_lookup_2; eassumption).
    assert (Hcj : P cj)
      by (rewrite List.Forall_forall in Hall; apply Hall, list_elem_of_In;
          eapply list_elem_of_lookup_2; eassumption).
    apply Forall_insert; [apply Forall_insert; [exact Hall|]|].
    - now apply Habsorb.
    - now apply Hflag. }
  assert (Hscan : forall chains,
            Forall P chains -> Forall P (fst (merge_scan chains))).
  { intros chains Hall. unfold merge_scan.
    rewrite (fold_rows_cols merge_step).
    set (pairs := flat_map _ _).
    assert (H0 : Forall P (fst (map (set_merged false) chains, 0%nat))).
    { cbn [fst]. apply Forall_fmap. eapply Forall_impl; [exact Hall|].
      intros c Hc. now apply Hflag. }
    revert H0. generalize (map (set_merged false) chains, 0%nat).
    induction pairs as [|[i j] pairs IH]; intros st Hst; [exact Hst|].
    cbn [fold_left fst snd]. apply IH. now apply Hstep. }
  assert (Hpass : forall chains,
            Forall P chains -> Forall P (fst (merge_pass chains))).
  { intros chains Hall. unfold merge_pass.
    specialize (Hscan chains Hall).
    destruct (merge_scan chains) as [chains' merges]. cbn [fst] in *.
    rewrite Sort.sort_perm. rewrite List.Forall_forall in *.
    intros c Hc. apply filter_In in Hc as [Hc _]. now apply Hscan. }
  induction fuel as [|fuel IH]; intros chains result Hall; [discriminate|].
  cbn [merge_loop]. specialize (Hpass chains Hall).
  destruct (merge_pass chains) as [chains' merges]. cbn [fst] in Hpass.
  destruct (0 <? merges)%nat; [now apply IH|].
  now intros [= <-].
Qed.

(** The components of the chains that have not been merged away. *)
Definition live (c : Chain.t) : list nat :=
  if Chain.merged c then [] else Chain.components c.

Lemma flat_map_insert {A B} (f : A -> list B) (l : list A) (i : nat) (x y : A) :
  l !! i = Some y ->
  flat_map f (<[i:=x]> l) ++ f y ≡ₚ flat_map f l ++ f x.
Proof.
  intros Hi.
  rewrite insert_take_drop by (eapply lookup_lt_Some; eassumption).
  rewrite <- (take_drop_middle l i y Hi) at 3.
  rewrite !flat_map_app. cbn [flat_map]. rewrite <- !List.app_assoc.
  apply Permutation_app_head.
  etransitivity; [apply Permutation_app_comm|]. rewrite <- List.app_assoc.
  apply Permutation_app_swap_app.
Qed.

Lemma merge_step_live (i j : nat) (st : list Chain.t * nat) :
  flat_map live (fst (merge_step i j st)) ≡ₚ flat_map live (fst st).
Proof.
  destruct (merge_step_cases i j st)
    as [->|(ci & cj & p & q & Hi & Hj & Hne & Hmi & Hmj & _ & ->)];
    [reflexivity|].
  unfold do_merge. cbn [fst].
  assert (Hj' : <[i:=absorb ci cj p q]> (fst st) !! j = Some cj)
    by (rewrite list_lookup_insert_ne by exact Hne; exact Hj).
  pose proof (flat_map_insert live _ j (set_merged true cj) cj Hj') as H2.
  pose proof (flat_map_insert live _ i (absorb ci cj p q) ci Hi) as H1.
  assert (Hlcj : live cj = Chain.components cj)
    by (unfold live; now rewrite Hmj).
  assert (Hlci : live ci = Chain.components ci)
    by (unfold live; now rewrite Hmi).
  assert (Hlcj' : live (set_merged true cj) = []) by reflexivity.
  assert (Hlci' : live (absorb ci cj p q)
                  = Chain.components ci ++ Chain.components cj)
    by (unfold live; cbn [absorb Chain.merged Chain.components];
        now rewrite Hmi).
  rewrite Hlcj, Hlcj', app_nil_r in H2. rewrite Hlci, Hlci' in H1.
  apply (Permutation_app_inv_r (Chain.components cj ++ Chain.components ci)).
  rewrite List.app_assoc, H2, H1.
  apply Permutation_app_head, Permutation_app_comm.
Qed.

Lemma flat_map_live_filter (chains : list Chain.t) :
  flat_map Chain.components
    (List.filter (fun c => negb (Chain.merged c)) chains)
  = flat_map live chains.
Proof.
  induction chains as [|c chains IH]; [reflexivity|].
  cbn [List.filter flat_map]. unfold live at 1.
  destruct (Chain.merged c); cbn [negb flat_map app]; congruence.
Qed.

Lemma merge_pass_live (chains : list Chain.t) :
  flat_map Chain.components (fst (merge_pass chains))
  ≡ₚ flat_map Chain.components chains.
Proof.
  unfold merge_pass.
  assert (Hscan : flat_map live (fst (merge_scan chains))
                  ≡ₚ flat_map Chain.components chains).
  { unfold merge_scan. rewrite (fold_rows_cols merge_step).
    match goal with
    | |- context [fold_left _ ?l _] => set (pairs := l)
    end.
    assert (H0 : flat_map live (fst (map (set_merged false) chains, 0%nat))
                 ≡ₚ flat_map Chain.components chains).
    { cbn [fst]. clear. induction chains as [|c chains IH]; [reflexivity|].
      cbn [map flat_map]. now rewrite IH. }
    revert H0. generalize (map (set_merged false) chains, 0%nat).
    induction pairs as [|[i j] pairs IH]; intros st Hst; [exact Hst|].
    cbn [fold_left fst snd]. apply IH. now rewrite merge_step_live. }
  destruct (merge_scan chains) as [chains' merges]. cbn [fst] in *.
  rewrite <- Hscan, <- flat_map_live_filter.
  apply Permutation_flat_map, Sort.sort_perm.
Qed.

Lemma merge_loop_live (fuel : nat) (chains result : list Chain.t) :
  merge_loop fuel chains = Some result ->
  flat_map Chain.components result ≡ₚ flat_map Chain.components chains.
Proof.
  revert chains. induction fuel as [|fuel IH]; intros chains; [discriminate|].
  cbn [merge_loop]. pose proof (merge_pass_live chains) as Hpass.
  destruct (merge_pass chains) as [chains' merges]. cbn [fst] in Hpass.
  destruct (0 <? merges)%nat.
  - intros H. now rewrite (IH _ H).
  - now intros [= <-].
Qed.

Lemma seeds_components_length :
  length (flat_map Chain.components seeds) = (2 * length seeds)%nat.
Proof.
  assert (Hgen : forall l, (forall c, c ∈ l -> c ∈ seeds) ->
            length (flat_map Chain.components l) = (2 * length l)%nat).
  { induction l as [|c l IH]; intros Hl; [reflexivity|].
    cbn [flat_map length]. rewrite length_app, IH
      by (intros c' Hc'; apply Hl; now right).
    destruct (proj1 (elem_of_seeds c) (Hl c (list_elem_of_here _ _)))
      as (i & j & _ & Hc).
    apply seed_ends in Hc as (_ & _ & -> & _). cbn [length]. lia. }
  apply Hgen. tauto.
Qed.

(** X15. The merge loop neither loses nor invents a component entry:
    the lists of the chains it is left with hold, taken together, exactly
    the entries of the eligible pairs, two for each pair, and there are
    no more chains than there were pairs. *)
Theorem merge_loop_conserves_components :
  exists pool,
    merged_chains = Some pool
    /\ flat_map Chain.components pool ≡ₚ flat_map Chain.components seeds
    /\ length (flat_map Chain.components pool) = (2 * length seeds)%nat
    /\ (length pool <= length seeds)%nat.
Proof.
  unfold merged_chains.
  destruct (merge_loop_returns (S (length (Sort.sort chainSortDist seeds)))
              (Sort.sort chainSortDist seeds))
    as (pool & last & Hloop & _ & Hle); [lia|].
  exists pool. split; [exact Hloop|].
  assert (Hperm : flat_map Chain.components pool
                  ≡ₚ flat_map Chain.components seeds).
  { rewrite (merge_loop_live _ _ _ Hloop).
    apply Permutation_flat_map, Sort.sort_perm. }
  split; [exact Hperm|]. split.
  - rewrite Hperm. apply seeds_components_length.
  - now rewrite Sort.sort_length in Hle.
Qed.

(** The indices of a chain are indices of components, and its two end
    points are among them. *)
Definition chain_indices_ok (c : Chain.t) : Prop :=
  (forall x, x ∈ Chain.components c -> (x < ncomponents)%nat)
  /\ Chain.p c ∈ Chain.components c
  /\ Chain.q c ∈ Chain.components c.

Lemma seeds_indices_ok : Forall chain_indices_ok (Sort.sort chainSortDist seeds).
Proof.
  rewrite Sort.sort_perm. apply Forall_forall. intros c Hc.
  apply elem_of_seeds in Hc as (i & j & Hij & Hc).
  unfold chain_indices_ok.
  apply seed_ends in Hc as (-> & -> & Hcomp & _).
  rewrite Hcomp. split; [|split].
  - intros x Hx. apply elem_of_cons in Hx as [->|Hx]; [lia|].
    apply list_elem_of_singleton in Hx as ->. lia.
  - left.
  - right. left.
Qed.

(** X16. Every chain [makeChains] returns lists indices of components
    only, so the reads of [compBB] and of the other vectors at these
    indices stay in range; its two end points are members of its list,
    and its direction is the unit vector between the centres of its end
    points. *)
Theorem makeChains_indices :
  exists chains,
    makeChains = Some chains
    /\ forall c, c ∈ chains ->
         (forall x, x ∈ Chain.components c -> (x < ncomponents)%nat)
         /\ Chain.p c ∈ Chain.components c
         /\ Chain.q c ∈ Chain.components c
         /\ Chain.direction c = direction_of (Chain.p c) (Chain.q c).
Proof.
  unfold makeChains, merged_chains.
  destruct (merge_loop_returns (S (length (Sort.sort chainSortDist seeds)))
              (Sort.sort chainSortDist seeds))
    as (pool & last & Hloop & _ & _); [lia|].
  pose proof (merge_loop_direction_ok _ _ _ seeds_direction_ok Hloop) as Hdir.
  assert (Hidx : Forall chain_indices_ok pool).
  { apply (merge_loop_Forall chain_indices_ok) with (3 := seeds_indices_ok)
      (4 := Hloop).
    - intros c b Hc. exact Hc.
    - intros ci cj p q (Hi1 & Hi2 & Hi3) (Hj1 & Hj2 & Hj3) Hp Hq.
      unfold chain_indices_ok. cbn [absorb Chain.components Chain.p Chain.q].
      split; [|split].
      + intros x Hx. apply elem_of_app in Hx as [Hx|Hx]; auto.
      + apply elem_of_app. destruct Hp as [->|[->| ->]]; auto.
      + apply elem_of_app. destruct Hq as [->|[->| ->]]; auto. }
  rewrite Hloop. exists (accept_chains pool). split; [reflexivity|].
  intros c Hc. unfold accept_chains in Hc.
  apply list_elem_of_fmap in Hc as (c0 & -> & Hc0).
  apply list_elem_of_In, filter_In in Hc0 as [Hc0 _].
  rewrite List.Forall_forall in Hidx, Hdir.
  destruct (Hidx c0 Hc0) as (H1 & H2 & H3). specialize (Hdir c0 Hc0).
  destruct (remove_duplicates_spec (Chain.components c0)) as (_ & _ & Hel).
  cbn [deduplicated Chain.components Chain.p Chain.q Chain.direction].
  split; [|split; [|split]].
  - intros x Hx. apply H1. now apply Hel.
  - now apply Hel.
  - now apply Hel.
  - exact Hdir.
Qed.

Lemma flat_map_member_length {A B} (f : A -> list B) (l : list A) (a : A) :
  a ∈ l -> (length (f a) <= length (flat_map f l))%nat.
Proof.
  induction l as [|b l IH]; intros Ha; [inversion Ha|].
  cbn [flat_map]. rewrite length_app.
  apply elem_of_cons in Ha as [->|Ha]; [lia|]. specialize (IH Ha). lia.
Qed.

(** X17. With fewer than two eligible pairs, in particular with fewer
    than three components, [makeChains] returns no chain. *)
Theorem makeChains_needs_two_pairs :
  (ncomponents <= 2)%nat \/ (length seeds <= 1)%nat ->
  makeChains = Some [].
Proof.
  intros Hfew.
  assert (Hseeds : (length seeds <= 1)%nat).
  { destruct Hfew as [Hn|Hs]; [|exact Hs].
    pose proof (seeds_count ncomponents 0 eq_refl) as Hcount.
    fold seeds in Hcount. nia. }
  unfold makeChains, merged_chains.
  destruct (merge_loop_returns (S (length (Sort.sort chainSortDist seeds)))
              (Sort.sort chainSortDist seeds))
    as (pool & last & Hloop & _ & _); [lia|].
  rewrite Hloop. cbn [fmap option_fmap option_map]. f_equal.
  unfold accept_chains. rewrite filter_none; [reflexivity|].
  intros c Hc. apply Nat.leb_gt.
  pose proof (flat_map_member_length Chain.components pool c Hc) as Hlen.
  pose proof (merge_loop_live _ _ _ Hloop) as Hperm.
  apply Permutation_length in Hperm.
  assert (Hsort : flat_map Chain.components (Sort.sort chainSortDist seeds)
                  ≡ₚ flat_map Chain.components seeds)
    by apply Permutation_flat_map, Sort.sort_perm.
  apply Permutation_length in Hsort.
  rewrite seeds_components_length in Hsort. lia.
Qed.

(** The chains [makeChains] returns have lists of 3 indices and more. *)
Lemma makeChains_lengths :
  exists chains,
    makeChains = Some chains
    /\ forall c, c ∈ chains -> (3 <= length (Chain.components c))%nat.
Proof.
  unfold makeChains, merged_chains.
  destruct (merge_loop_returns (S (length (Sort.sort chainSortDist seeds)))
              (Sort.sort chainSortDist seeds))
    as (pool & last & Hloop & _ & _); [lia|].
  pose proof (merge_loop_pool_ok _ _ _ sorted_seeds_pool_ok Hloop) as [Hall _].
  rewrite Hloop. exists (accept_chains pool). split; [reflexivity|].
  intros c Hc. unfold accept_chains in Hc.
  apply list_elem_of_fmap in Hc as (c0 & -> & Hc0).
  apply list_elem_of_In, filter_In in Hc0 as [Hc0 Hlen].
  rewrite List.Forall_forall in Hall.
  rewrite (chain_ok_accept c0 (Hall c0 Hc0)) in Hlen.
  cbn [deduplicated Chain.components]. now apply Nat.leb_le.
Qed.

End MakeChains.

(** ** More on the component graph: which pixels share a component *)

Lemma key_of_inj SWTImage rc rc' :
  rc ∈ scan SWTImage -> rc' ∈ scan SWTImage ->
  key_of SWTImage rc = key_of SWTImage rc' -> rc = rc'.
Proof.
  destruct rc as [r c], rc' as [r' c']. rewrite !elem_of_scan.
  unfold key_of. cbn [fst snd]. intros [Hr Hc] [Hr' Hc'] Hk.
  assert (r = r') by nia. subst. f_equal. lia.
Qed.

(** After the pixels [done], [map] sends the key of a pixel of positive
    value to its vertex, and [revmap] sends the vertex to the pixel. *)
Definition indexed (SWTImage : IplImage.t Q) (done : list (Z * Z))
    (st : Numbering) : Prop :=
  let '(map, revmap, num_vertices) := st in
  forall rc, rc ∈ done -> positive SWTImage rc = true ->
    exists j, map !! key_of SWTImage rc = Some j
      /\ revmap !! j = Some (point_of rc).

Lemma number_pixel_indexed SWTImage done rc st :
  numbered SWTImage done st -> indexed SWTImage done st ->
  (forall rc', rc' ∈ done -> key_of SWTImage rc' <> key_of SWTImage rc) ->
  indexed SWTImage (done ++ [rc]) (number_pixel SWTImage (fst rc) (snd rc) st).
Proof.
  destruct st as [[map revmap] n]. unfold numbered, indexed, number_pixel.
  intros (Hn & Hrev & _) Hidx Hkeys.
  fold (positive SWTImage rc). destruct (positive SWTImage rc) eqn:Hpos.
  - intros rc' Hin Hpos'. apply elem_of_app in Hin as [Hin|Hin].
    + destruct (Hidx rc' Hin Hpos') as (j & Hj & Hpt).
      exists j. split.
      * unfold key_of in *. rewrite lookup_insert_ne; [exact Hj|].
        intros Heq. now apply (Hkeys rc' Hin).
      * rewrite lookup_insert_ne; [exact Hpt|].
        intros <-. rewrite Hrev in Hpt. apply lookup_lt_Some in Hpt. lia.
    + apply list_elem_of_singleton in Hin as ->.
      exists n. unfold key_of. rewrite !lookup_insert_eq.
      split; [reflexivity|]. destruct rc; reflexivity.
  - intros rc' Hin Hpos'. apply elem_of_app in Hin as [Hin|Hin].
    + now apply Hidx.
    + apply list_elem_of_singleton in Hin as ->. congruence.
Qed.

Lemma number_vertices_indexed SWTImage :
  indexed SWTImage (scan SWTImage) (number_vertices SWTImage).
Proof.
  unfold number_vertices.
  rewrite (fold_rows_cols (number_pixel SWTImage)). fold (scan SWTImage).
  assert (Hgen : forall l done st,
    done ++ l = scan SWTImage ->
    numbered SWTImage done st -> indexed SWTImage done st ->
    indexed SWTImage (done ++ l)
      (fold_left (fun st rc => number_pixel SWTImage (fst rc) (snd rc) st) l st)).
  { induction l as [|rc l IH]; intros done st Hsplit Hnum Hidx.
    - now rewrite app_nil_r.
    - cbn [fold_left]. rewrite (cons_middle rc done l), app_assoc.
      apply IH.
      + now rewrite <- app_assoc.
      + now apply number_pixel_numbered.
      + apply number_pixel_indexed; try assumption.
        intros rc' Hin Hk.
        pose proof (NoDup_scan SWTImage) as Hnd. rewrite <- Hsplit in Hnd.
        apply NoDup_app in Hnd as (_ & Hdisj & _).
        apply (Hdisj rc' Hin).
        assert (rc' = rc) as ->.
        { apply (key_of_inj SWTImage); [| |exact Hk];
            rewrite <- Hsplit, elem_of_app; [now left | right; left]. }
        left. }
  apply (Hgen (scan SWTImage) []); [reflexivity| |].
  - unfold numbered. cbn. split; [reflexivity|]. split.
    + intros j. now rewrite lookup_empty.
    + intros rc Hin. inversion Hin.
  - intros rc Hin. inversion Hin.
Qed.

(** The vertex of a pixel: [map[row * width + col]]. *)
Definition vertex_of (SWTImage : IplImage.t Q) (map : gmap Z nat)
    (rc : Z * Z) : nat :=
  default 0%nat (map !! key_of SWTImage rc).

(** The edges the second loop adds at one pixel: to the neighbours to the
    right, right-down, down and left-down that lie in the image and hold
    a positive value. *)
Definition edges_of_pixel (SWTImage : IplImage.t Q) (map : gmap Z nat)
    (rc : Z * Z) : list (nat * nat) :=
  let row := fst rc in
  let col := snd rc in
  let edge_to (nb : Z * Z) :=
    if positive SWTImage nb
    then [(vertex_of SWTImage map rc, vertex_of SWTImage map nb)] else [] in
  if positive SWTImage rc then
    (if col + 1 <? IplImage.width SWTImage then edge_to (row, col + 1) else [])
    ++ (if row + 1 <? IplImage.height SWTImage then
          (if col + 1 <? IplImage.width SWTImage
           then edge_to (row + 1, col + 1) else [])
          ++ edge_to (row + 1, col)
          ++ (if 0 <=? col - 1 then edge_to (row + 1, col - 1) else [])
        else [])
  else [].

Lemma cond_link_edges SWTImage (map : gmap Z nat) (b : bool) (ptr other : Q)
    (this_pixel : nat) (key : Z) (nb : Z * Z) (g0 : Graph.t) :
  (0 < ptr)%Q ->
  other = CV_IMAGE_ELEM SWTImage (fst nb) (snd nb) ->
  key = key_of SWTImage nb ->
  (b = true -> positive SWTImage nb = true ->
   is_Some (map !! key_of SWTImage nb)) ->
  exists g1,
    (if b then link map ptr other this_pixel key (Some g0) else Some g0)
    = Some g1
    /\ Graph.num_vertices g1 = Graph.num_vertices g0
    /\ Graph.edges g1
       = Graph.edges g0
         ++ (if b then
               if positive SWTImage nb
               then [(this_pixel, vertex_of SWTImage map nb)] else []
             else []).
Proof.
  intros Hp -> -> Hdom. destruct b.
  2:{ exists g0. now rewrite app_nil_r. }
  unfold link. rewrite (edge_test_vacuous _ _ Hp).
  change (Qltb 0 (CV_IMAGE_ELEM SWTImage (fst nb) (snd nb)))
    with (positive SWTImage nb).
  destruct (positive SWTImage nb) eqn:Hpos.
  - destruct Hdom as [v Hv]; [reflexivity | reflexivity|].
    cbn. rewrite Hv. cbn. eexists. split; [reflexivity|].
    unfold vertex_of. rewrite Hv. cbn. split; reflexivity.
  - exists g0. now rewrite app_nil_r.
Qed.

Lemma link_pixel_edges SWTImage (map : gmap Z nat) (row col : Z)
    (g0 : Graph.t) :
  (forall rc, rc ∈ scan SWTImage -> positive SWTImage rc = true ->
     is_Some (map !! key_of SWTImage rc)) ->
  (row, col) ∈ scan SWTImage ->
  exists g1,
    link_pixel SWTImage map row col (Some g0) = Some g1
    /\ Graph.num_vertices g1 = Graph.num_vertices g0
    /\ Graph.edges g1
       = Graph.edges g0 ++ edges_of_pixel SWTImage map (row, col).
Proof.
  intros Hdom Hin. apply elem_of_scan in Hin as [Hrow Hcol].
  unfold link_pixel, edges_of_pixel. cbv zeta. cbn [fst snd].
  change (Qltb 0 (CV_IMAGE_ELEM SWTImage row col))
    with (positive SWTImage (row, col)).
  destruct (positive SWTImage (row, col)) eqn:Hpos.
  2:{ exists g0. now rewrite app_nil_r. }
  assert (Hptr : (0 < CV_IMAGE_ELEM SWTImage row col)%Q)
    by (now apply Qltb_lt in Hpos).
  change (default 0%nat (map !! (row * IplImage.width SWTImage + col)))
    with (vertex_of SWTImage map (row, col)).
  set (this_pixel := vertex_of SWTImage map (row, col)).
  set (ptr := CV_IMAGE_ELEM SWTImage row col) in *.
  destruct (cond_link_edges SWTImage map (col + 1 <? IplImage.width SWTImage)
              ptr (CV_IMAGE_ELEM SWTImage row (col + 1)) this_pixel
              (row * IplImage.width SWTImage + col + 1) (row, col + 1) g0)
    as (ga & Ha & Hna & Hea); [exact Hptr | reflexivity | | |].
  { unfold key_of. cbn [fst snd]. lia. }
  { intros Hb Hp. apply Z.ltb_lt in Hb. apply Hdom; [|exact Hp].
    apply elem_of_scan. lia. }
  rewrite Ha.
  destruct (Z.ltb_spec (row + 1) (IplImage.height SWTImage)) as [Hdown|Hlast].
  2:{ exists ga. rewrite app_nil_r. repeat split; assumption. }
  destruct (cond_link_edges SWTImage map (col + 1 <? IplImage.width SWTImage)
              ptr (CV_IMAGE_ELEM SWTImage (row + 1) (col + 1)) this_pixel
              ((row + 1) * IplImage.width SWTImage + col + 1)
              (row + 1, col + 1) ga)
    as (gb & Hb & Hnb & Heb); [exact Hptr | reflexivity | | |].
  { unfold key_of. cbn [fst snd]. lia. }
  { intros Hc Hp. apply Z.ltb_lt in Hc. apply Hdom; [|exact Hp].
    apply elem_of_scan. lia. }
  rewrite Hb.
  destruct (cond_link_edges SWTImage map true
              ptr (CV_IMAGE_ELEM SWTImage (row + 1) col) this_pixel
              ((row + 1) * IplImage.width SWTImage + col)
              (row + 1, col) gb)
    as (gc & Hc & Hnc & Hec); [exact Hptr | reflexivity | | |].
  { unfold key_of. cbn [fst snd]. lia. }
  { intros _ Hp. apply Hdom; [|exact Hp]. apply elem_of_scan. lia. }
  rewrite Hc.
  destruct (cond_link_edges SWTImage map (0 <=? col - 1)
              ptr (CV_IMAGE_ELEM SWTImage (row + 1) (col - 1)) this_pixel
              ((row + 1) * IplImage.width SWTImage + col - 1)
              (row + 1, col - 1) gc)
    as (gd & Hd & Hnd & Hed); [exact Hptr | reflexivity | | |].
  { unfold key_of. cbn [fst snd]. lia. }
  { intros He Hp. apply Z.leb_le in He. apply Hdom; [|exact Hp].
    apply elem_of_scan. lia. }
  rewrite Hd. exists gd. split; [reflexivity|]. split; [congruence|].
  rewrite Hed, Hec, Heb, Hea, <- !app_assoc. reflexivity.
Qed.

(** The graph of [findLegallyConnectedComponents]: its edges, in the
    order of the scan. *)
Lemma build_graph_edges SWTImage (map : gmap Z nat) (n : nat) :
  (forall rc, rc ∈ scan SWTImage -> positive SWTImage rc = true ->
     is_Some (map !! key_of SWTImage rc)) ->
  exists g,
    build_graph SWTImage map n = Some g
    /\ Graph.num_vertices g = n
    /\ Graph.edges g = flat_map (edges_of_pixel SWTImage map) (scan SWTImage).
Proof.
  intros Hdom. unfold build_graph.
  rewrite (fold_rows_cols (link_pixel SWTImage map)). fold (scan SWTImage).
  assert (Hgen : forall l g0,
    (forall rc, rc ∈ l -> rc ∈ scan SWTImage) ->
    exists g1,
      fold_left (fun g rc => link_pixel SWTImage map (fst rc) (snd rc) g) l
        (Some g0) = Some g1
      /\ Graph.num_vertices g1 = Graph.num_vertices g0
      /\ Graph.edges g1
         = Graph.edges g0 ++ flat_map (edges_of_pixel SWTImage map) l).
  { induction l as [|[row col] l IH]; intros g0 Hl.
    - exists g0. cbn. now rewrite app_nil_r.
    - cbn [fold_left fst snd flat_map].
      destruct (link_pixel_edges SWTImage map row col g0 Hdom)
        as (g1 & H1 & Hn1 & He1); [apply Hl; left|].
      rewrite H1.
      destruct (IH g1) as (g2 & H2 & Hn2 & He2);
        [intros rc Hrc; apply Hl; now right|].
      exists g2. split; [exact H2|]. split; [congruence|].
      now rewrite He2, He1, <- app_assoc. }
  destruct (Hgen (scan SWTImage) (Graph.mk n [])) as (g & Hg & Hn & He);
    [tauto|].
  exists g. repeat split; assumption.
Qed.

(** A pixel is joined to each of its four forward neighbours that holds a
    positive value. *)
Lemma forward_neighbour_edge SWTImage (map : gmap Z nat) (rc nb : Z * Z) :
  rc ∈ scan SWTImage -> nb ∈ scan SWTImage ->
  positive SWTImage rc = true -> positive SWTImage nb = true ->
  (nb = (fst rc, snd rc + 1) \/ nb = (fst rc + 1, snd rc + 1)
   \/ nb = (fst rc + 1, snd rc) \/ nb = (fst rc + 1, snd rc - 1)) ->
  (vertex_of SWTImage map rc, vertex_of SWTImage map nb)
  ∈ edges_of_pixel SWTImage map rc.
Proof.
  destruct rc as [row col]. cbn [fst snd].
  intros _ Hnb Hpos Hposnb Hdir. unfold edges_of_pixel. cbv zeta.
  cbn [fst snd]. rewrite Hpos.
  destruct Hdir as [->|[->|[->| ->]]]; apply elem_of_scan in Hnb;
    rewrite Hposnb.
  - destruct (Z.ltb_spec (col + 1) (IplImage.width SWTImage)); [|lia].
    apply elem_of_app. left. left.
  - destruct (Z.ltb_spec (row + 1) (IplImage.height SWTImage)); [|lia].
    destruct (Z.ltb_spec (col + 1) (IplImage.width SWTImage)); [|lia].
    apply elem_of_app. right. apply elem_of_app. left. left.
  - destruct (Z.ltb_spec (row + 1) (IplImage.height SWTImage)); [|lia].
    apply elem_of_app. right. apply elem_of_app. right.
    apply elem_of_app. left. left.
  - destruct (Z.ltb_spec (row + 1) (IplImage.height SWTImage)); [|lia].
    destruct (Z.leb_spec 0 (col - 1)); [|lia].
    apply elem_of_app. right. apply elem_of_app. right.
    apply elem_of_app. right. left.
Qed.

(** The vertex [j] is pushed to the component of its label. *)
Lemma collect_member (revmap : gmap nat Point2d.t) (c : list nat) (n : nat)
    (comps : list (list Point2d.t)) (j : nat) :
  (j < n)%nat ->
  (forall j', (j' < n)%nat -> (c !!! j' < length comps)%nat) ->
  revmap !!! j ∈ collect revmap c n comps !!! (c !!! j).
Proof.
  intros Hj Hc. unfold collect.
  assert (Hgen : forall js comps0,
    length comps0 = length comps ->
    (forall j', j' ∈ js -> (j' < n)%nat) ->
    (j ∈ js \/ revmap !!! j ∈ comps0 !!! (c !!! j)) ->
    revmap !!! j
    ∈ fold_left
        (fun components j' =>
           alter (fun comp => comp ++ [revmap !!! j']) (c !!! j') components)
        js comps0 !!! (c !!! j)).
  { induction js as [|j' js IH]; intros comps0 Hlen Hjs Hcase.
    - destruct Hcase as [Hin|Hin]; [inversion Hin | exact Hin].
    - cbn [fold_left]. apply IH.
      + now rewrite length_alter.
      + intros j'' Hin. apply Hjs. now right.
      + destruct Hcase as [Hin|Hin].
        * apply elem_of_cons in Hin as [->|Hin]; [|now left].
          right. rewrite list_lookup_total_alter_eq
            by (rewrite Hlen; apply Hc, Hj).
          apply elem_of_app. right. left.
        * right. rewrite list_lookup_total_alter.
          case_decide as Hd; [|exact Hin].
          destruct Hd as [-> _]. apply elem_of_app. now left. }
  apply Hgen; [reflexivity| |].
  - intros j' Hin. apply elem_of_seq in Hin. lia.
  - left. apply elem_of_seq. lia.
Qed.

(** The steps of [findLegallyConnectedComponents], with what each of
    them has established. *)
Lemma components_pipeline (SWTImage : IplImage.t Q) :
  exists (map : gmap Z nat) (revmap : gmap nat Point2d.t) (n : nat)
         (g : Graph.t) (c : list nat) (num_comp : nat),
    number_vertices SWTImage = (map, revmap, n)
    /\ n = length (positive_pixels SWTImage)
    /\ (forall rc, rc ∈ scan SWTImage -> positive SWTImage rc = true ->
          (vertex_of SWTImage map rc < n)%nat
          /\ revmap !!! vertex_of SWTImage map rc = point_of rc)
    /\ Graph.num_vertices g = n
    /\ Graph.edges g = flat_map (edges_of_pixel SWTImage map) (scan SWTImage)
    /\ connected_components g = (c, num_comp)
    /\ (forall j, (j < n)%nat -> (c !!! j < num_comp)%nat)
    /\ findLegallyConnectedComponents SWTImage
       = Some (collect revmap c n (replicate num_comp []))
    /\ length (collect revmap c n (replicate num_comp [])) = num_comp.
Proof.
  unfold findLegallyConnectedComponents.
  pose proof (number_vertices_numbered SWTImage) as Hnum.
  pose proof (number_vertices_indexed SWTImage) as Hidx.
  destruct (number_vertices SWTImage) as [[map revmap] n].
  destruct Hnum as (Hn & Hrev & Hdom). unfold indexed in Hidx.
  fold (positive_pixels SWTImage) in Hn, Hrev.
  destruct (build_graph_edges SWTImage map n Hdom) as (g & Hg & Hgn & Hge).
  rewrite Hg. cbn [mbind option_bind].
  pose proof (connected_components_labels g) as Hcc.
  destruct (connected_components g) as [c num_comp] eqn:Ecc.
  destruct Hcc as [_ Hc]. rewrite Hgn in Hc.
  exists map, revmap, n, g, c, num_comp.
  split; [reflexivity|]. split; [exact Hn|]. split.
  { intros rc Hin Hpos. destruct (Hidx rc Hin Hpos) as (j & Hj & Hpt).
    unfold vertex_of. rewrite Hj. cbn [default]. split.
    - rewrite Hrev in Hpt. apply lookup_lt_Some in Hpt.
      rewrite Hn. exact Hpt.
    - now apply lookup_total_correct. }
  split; [exact Hgn|]. split; [exact Hge|]. split; [exact Ecc|].
  split; [exact Hc|]. split; [reflexivity|].
  destruct (collect_perm revmap c n (replicate num_comp [])) as [Hlen _].
  { intros j Hj. rewrite length_replicate. now apply Hc. }
  now rewrite Hlen, length_replicate.
Qed.

(** X11. Two pixels of positive value that touch, side by side or
    corner to corner, always end in the same component: the graph has an
    edge for every such pair, whatever the two stroke widths are. *)
Theorem neighbours_share_component (SWTImage : IplImage.t Q)
    (row col row' col' : Z) :
  0 <= row < IplImage.height SWTImage ->
  0 <= col < IplImage.width SWTImage ->
  0 <= row' < IplImage.height SWTImage ->
  0 <= col' < IplImage.width SWTImage ->
  (0 < CV_IMAGE_ELEM SWTImage row col)%Q ->
  (0 < CV_IMAGE_ELEM SWTImage row' col')%Q ->
  Z.abs (row - row') <= 1 -> Z.abs (col - col') <= 1 ->
  exists components k comp,
    findLegallyConnectedComponents SWTImage = Some components
    /\ components !! k = Some comp
    /\ Point2d.mk col row 0 ∈ comp
    /\ Point2d.mk col' row' 0 ∈ comp.
Proof.
  intros Hrow Hcol Hrow' Hcol' Hpos Hpos' Hdr Hdc.
  destruct (components_pipeline SWTImage)
    as (map & revmap & n & g & c & num_comp
        & _ & _ & Hvert & Hgn & Hge & Hcc & Hc & Hres & Hlen).
  set (rc := (row, col)). set (rc' := (row', col')).
  assert (Hin : rc ∈ scan SWTImage) by (apply elem_of_scan; lia).
  assert (Hin' : rc' ∈ scan SWTImage) by (apply elem_of_scan; lia).
  assert (Hp : positive SWTImage rc = true) by (now apply Qltb_lt).
  assert (Hp' : positive SWTImage rc' = true) by (now apply Qltb_lt).
  destruct (Hvert rc Hin Hp) as [Hu Hpt].
  destruct (Hvert rc' Hin' Hp') as [Hv Hpt'].
  set (u := vertex_of SWTImage map rc) in *.
  set (v := vertex_of SWTImage map rc') in *.
  assert (Hlab : c !!! u = c !!! v).
  { assert (Hc_eq : c = fst (connected_components g)) by now rewrite Hcc.
    assert (Hedge : forall a b, (a, b) ∈ Graph.edges g ->
              (a < n)%nat -> (b < n)%nat -> c !!! a = c !!! b).
    { intros a b Hab Ha Hb. rewrite Hc_eq.
      apply connected_components_edge; [exact Hab | lia | lia]. }
    assert (Hfwd : forall p q, p ∈ scan SWTImage -> q ∈ scan SWTImage ->
              positive SWTImage p = true -> positive SWTImage q = true ->
              (q = (fst p, snd p + 1) \/ q = (fst p + 1, snd p + 1)
               \/ q = (fst p + 1, snd p) \/ q = (fst p + 1, snd p - 1)) ->
              c !!! vertex_of SWTImage map p = c !!! vertex_of SWTImage map q).
    { intros p q Hp0 Hq0 Hpp Hpq Hdir. apply Hedge.
      - rewrite Hge. apply list_elem_of_In, in_flat_map. exists p.
        split; [now apply list_elem_of_In|].
        apply list_elem_of_In. now apply forward_neighbour_edge.
      - now apply Hvert.
      - now apply Hvert. }
    destruct (decide (rc = rc')) as [Heq|Hne].
    { subst u v. now rewrite Heq. }
    assert (Hcases :
      (rc' = (row, col + 1) \/ rc' = (row + 1, col + 1)
       \/ rc' = (row + 1, col) \/ rc' = (row + 1, col - 1))
      \/ (rc = (row', col' + 1) \/ rc = (row' + 1, col' + 1)
          \/ rc = (row' + 1, col') \/ rc = (row' + 1, col' - 1))).
    { assert (Hd : row <> row' \/ col <> col').
      { destruct (decide (row = row')) as [->|]; [|now left].
        right. intros ->. now apply Hne. }
      subst rc rc'.
      assert (Hr3 : row' = row - 1 \/ row' = row \/ row' = row + 1) by lia.
      assert (Hc3 : col' = col - 1 \/ col' = col \/ col' = col + 1) by lia.
      destruct Hr3 as [->|[->| ->]], Hc3 as [->|[->| ->]];
        try (exfalso; lia);
        first
          [ left; left; f_equal; lia
          | left; right; left; f_equal; lia
          | left; right; right; left; f_equal; lia
          | left; right; right; right; f_equal; lia
          | right; left; f_equal; lia
          | right; right; left; f_equal; lia
          | right; right; right; left; f_equal; lia
          | right; right; right; right; f_equal; lia ]. }
    destruct Hcases as [Hdir|Hdir].
    - now apply (Hfwd rc rc').
    - symmetry. now apply (Hfwd rc' rc). }
  exists (collect revmap c n (replicate num_comp [])), (c !!! u),
    (collect revmap c n (replicate num_comp []) !!! (c !!! u)).
  split; [exact Hres|]. split.
  { apply list_lookup_lookup_total_lt. rewrite Hlen. now apply Hc. }
  assert (Hsize : forall j, (j < n)%nat ->
            (c !!! j < length (replicate num_comp (@nil Point2d.t)))%nat)
    by (intros j Hj; rewrite length_replicate; now apply Hc).
  split.
  - change (Point2d.mk col row 0) with (point_of rc). rewrite <- Hpt.
    now apply collect_member.
  - change (Point2d.mk col' row' 0) with (point_of rc'). rewrite <- Hpt'.
    rewrite Hlab. now apply collect_member.
Qed.

(** *** No component is empty *)

Lemma filter_seq_sorted (P : nat -> bool) (a n : nat) :
  StronglySorted lt (List.filter P (seq a n)).
Proof.
  revert a. induction n as [|n IH]; intros a; cbn [seq List.filter];
    [constructor|].
  destruct (P a); [|apply IH]. constructor; [apply IH|].
  apply List.Forall_forall. intros x Hx.
  apply filter_In in Hx as [Hx _]. apply in_seq in Hx. lia.
Qed.

(** In a list that increases strictly, the number of members below the
    member at position [k] is [k]. *)
Lemma rank_in_sorted (l : list nat) (k r : nat) :
  StronglySorted lt l -> l !! k = Some r ->
  length (List.filter (fun root => (root <? r)%nat) l) = k.
Proof.
  intros Hs Hk. pose proof (take_drop_middle l k r Hk) as Hsplit.
  assert (Hlen : length (take k l) = k).
  { rewrite length_take. apply lookup_lt_Some in Hk. lia. }
  rewrite <- Hsplit in Hs. rewrite <- Hsplit, List.filter_app.
  rewrite (filter_all _ (take k l)), (filter_none _ (r :: drop (S k) l)).
  - now rewrite app_nil_r.
  - intros x Hx. apply Nat.ltb_ge.
    apply elem_of_cons in Hx as [->|Hx]; [lia|].
    apply StronglySorted_app_1_r, StronglySorted_inv in Hs as [_ Hall].
    rewrite List.Forall_forall in Hall.
    specialize (Hall x (proj1 (list_elem_of_In _ _) Hx)). lia.
  - intros x Hx. apply Nat.ltb_lt.
    eapply (StronglySorted_app_1_elem_of _ _ _ x r Hs Hx). left.
Qed.

(** Every component number below [num_comp] is the label of a vertex. *)
Lemma connected_components_onto (g : Graph.t) (k : nat) :
  (k < snd (connected_components g))%nat ->
  exists r, (r < Graph.num_vertices g)%nat
            /\ fst (connected_components g) !!! r = k.
Proof.
  unfold connected_components. cbv zeta. cbn [fst snd].
  destruct (smallest_vertices_ok g) as [Hok Hlen].
  set (lab := smallest_vertices g) in *.
  set (roots := List.filter _ _).
  intros Hk. destruct (lookup_lt_is_Some_2 roots k Hk) as [r Hr].
  assert (Hin : r ∈ roots) by (eapply list_elem_of_lookup_2, Hr).
  subst roots. apply list_elem_of_In, filter_In in Hin as [Hrn Hroot].
  apply in_seq in Hrn. apply Nat.eqb_eq in Hroot.
  exists r. split; [lia|].
  rewrite (@list_lookup_total_fmap nat nat _ _ _ lab) by lia.
  rewrite Hroot. apply rank_in_sorted; [apply filter_seq_sorted | exact Hr].
Qed.

(** X12. [findLegallyConnectedComponents] returns no empty component,
    and never more components than the map has pixels of positive value;
    it returns no component exactly when there is no such pixel. *)
Theorem components_not_empty (SWTImage : IplImage.t Q) :
  exists components,
    findLegallyConnectedComponents SWTImage = Some components
    /\ Forall (fun comp => comp <> []) components
    /\ (length components <= length (positive_pixels SWTImage))%nat
    /\ (components = [] <-> positive_pixels SWTImage = []).
Proof.
  destruct (components_pipeline SWTImage)
    as (map & revmap & n & g & c & num_comp
        & _ & Hn & _ & Hgn & _ & Hcc & Hc & Hres & Hlen).
  set (components := collect revmap c n (replicate num_comp [])) in *.
  assert (Hsize : forall j, (j < n)%nat ->
            (c !!! j < length (replicate num_comp (@nil Point2d.t)))%nat)
    by (intros j Hj; rewrite length_replicate; now apply Hc).
  assert (Honto : forall k, (k < num_comp)%nat ->
            exists r, (r < n)%nat /\ c !!! r = k).
  { intros k Hk. destruct (connected_components_onto g k) as (r & Hr & Hck).
    - now rewrite Hcc.
    - exists r. rewrite Hcc in Hck. split; [lia | exact Hck]. }
  assert (Hle : (num_comp <= n)%nat).
  { assert (Hnc : num_comp = snd (connected_components g)) by now rewrite Hcc.
    rewrite Hnc. unfold connected_components. cbv zeta. cbn [snd].
    etransitivity; [apply filter_length_le|]. rewrite length_seq. lia. }
  exists components. split; [exact Hres|]. split; [|split].
  - apply Forall_forall. intros comp Hcomp.
    apply list_elem_of_lookup in Hcomp as [k Hk].
    assert (Hklt : (k < num_comp)%nat)
      by (rewrite <- Hlen; eapply lookup_lt_Some, Hk).
    destruct (Honto k Hklt) as (r & Hr & Hck).
    pose proof (collect_member revmap c n (replicate num_comp []) r Hr Hsize)
      as Hmem.
    fold components in Hmem. rewrite Hck in Hmem.
    rewrite (list_lookup_total_correct _ _ _ Hk) in Hmem.
    intros ->. inversion Hmem.
  - rewrite Hlen, <- Hn. exact Hle.
  - split.
    + intros Hnil. rewrite Hnil in Hlen. cbn [length] in Hlen.
      destruct (positive_pixels SWTImage) as [|p ps]; [reflexivity|].
      cbn [length] in Hn. specialize (Hc 0%nat). lia.
    + intros Hnil. rewrite Hnil in Hn. cbn [length] in Hn.
      destruct components; [reflexivity|]. cbn [length] in Hlen. lia.
Qed.

(** ** The pictures of the map ([normalizeImage], [renderComponents]) *)

(** The running extremes of the two functions.  [maxVal] starts at 0.
    [minVal] starts at [1e100], which a [float] does not hold: the
    variable is an infinity until a first pixel is met, [None] here. *)
Definition track (st : Q * option Q) (v : Q) : Q * option Q :=
  let '(maxVal, minVal) := st in
  (fmax v maxVal,
   Some match minVal with Some m => fmin v m | None => v end).

(** The loop over the pixels that updates [maxVal] and [minVal], but for
    the pixels whose value [skip] holds of. *)
Definition extremes (skip : Q -> bool) (img : IplImage.t Q) : Q * option Q :=
  fold_left
    (fun st row =>
       fold_left
         (fun st col =>
            if skip (CV_IMAGE_ELEM img row col) then st
            else track st (CV_IMAGE_ELEM img row col))
         (range (IplImage.width img)) st)
    (range (IplImage.height img)) (0%Q, None).

(** [(v - minVal) / difference] with [difference = maxVal - minVal]: not
    a finite number ([None]) where the difference is 0. *)
Definition normalize_value (maxVal : Q) (minVal : option Q) (v : Q)
    : option Q :=
  match minVal with
  | Some m =>
      if Qeq_bool (maxVal - m) 0 then None
      else Some ((v - m) / (maxVal - m))%Q
  | None => None
  end.

(** [normalizeImage(input, output)]: the pixels of [output]. *)
Definition normalizeImage (input : IplImage.t Q)
    (output : IplImage.t (option Q)) : IplImage.t (option Q) :=
  let '(maxVal, minVal) := extremes (fun v => Qltb v 0) input in
  fold_left
    (fun out row =>
       fold_left
         (fun out col =>
            let v := CV_IMAGE_ELEM input row col in
            set_elem out row col
              (if Qltb v 0 then Some 1%Q
               else normalize_value maxVal minVal v))
         (range (IplImage.width input)) out)
    (range (IplImage.height input)) output.

Lemma elem_set_elem {A} (img : IplImage.t A) (row col : Z) (v : A) (r c : Z) :
  CV_IMAGE_ELEM (set_elem img row col v) r c
  = if decide (r = row /\ c = col) then v else CV_IMAGE_ELEM img r c.
Proof.
  unfold set_elem, CV_IMAGE_ELEM. cbn [IplImage.elem].
  destruct (Z.eq_dec r row), (Z.eq_dec c col); case_decide;
    try reflexivity; tauto.
Qed.

(** A loop that writes each pixel of a list once with a value of its
    own. *)
Lemma fold_set_elem {A} (f : Z -> Z -> A) (l : list (Z * Z))
    (img : IplImage.t A) (r c : Z) :
  CV_IMAGE_ELEM
    (fold_left
       (fun out rc => set_elem out (fst rc) (snd rc) (f (fst rc) (snd rc)))
       l img) r c
  = if decide ((r, c) ∈ l) then f r c else CV_IMAGE_ELEM img r c.
Proof.
  revert img. induction l as [|[row col] l IH]; intros img; cbn [fold_left].
  - rewrite decide_False; [reflexivity|]. intros H; inversion H.
  - rewrite IH. cbn [fst snd]. rewrite elem_set_elem.
    destruct (decide ((r, c) ∈ l)) as [Hin|Hnot].
    + rewrite decide_True by (now right). reflexivity.
    + destruct (decide (r = row /\ c = col)) as [[-> ->]|Hne].
      * rewrite decide_True by left. reflexivity.
      * rewrite decide_False; [reflexivity|].
        intros H. apply elem_of_cons in H as [[= -> ->]|H]; tauto.
Qed.

Lemma track_spec (st : Q * option Q) (v : Q) :
  let st' := track st v in
  (fst st <= fst st')%Q
  /\ (v <= fst st')%Q
  /\ (exists m', snd st' = Some m' /\ (m' <= v)%Q
        /\ forall m, snd st = Some m -> (m' <= m)%Q).
Proof.
  destruct st as [maxVal minVal]. cbn [track fst snd].
  split; [apply fmax_ge_r|]. split; [apply fmax_ge_l|].
  destruct minVal as [m|].
  - exists (fmin v m). split; [reflexivity|]. split; [apply fmin_le_l|].
    intros m0 [= <-]. apply fmin_le_r.
  - exists v. split; [reflexivity|]. split; [lra|]. discriminate.
Qed.

(** The extremes bound every pixel of the image that is not skipped. *)
Lemma extremes_spec (skip : Q -> bool) (img : IplImage.t Q) :
  let '(maxVal, minVal) := extremes skip img in
  (0 <= maxVal)%Q
  /\ forall row col,
       0 <= row < IplImage.height img -> 0 <= col < IplImage.width img ->
       skip (CV_IMAGE_ELEM img row col) = false ->
       exists m, minVal = Some m
         /\ (m <= CV_IMAGE_ELEM img row col
             /\ CV_IMAGE_ELEM img row col <= maxVal)%Q.
Proof.
  unfold extremes.
  rewrite (fold_rows_cols
             (fun row col st =>
                if skip (CV_IMAGE_ELEM img row col) then st
                else track st (CV_IMAGE_ELEM img row col))).
  set (pixels := flat_map _ _).
  assert (Hpix : forall row col,
            0 <= row < IplImage.height img -> 0 <= col < IplImage.width img ->
            (row, col) ∈ pixels)
    by (intros row col Hr Hc; subst pixels; now apply elem_of_rows_cols).
  clearbody pixels.
  assert (Hgen : forall l st0,
    let st :=
      fold_left
        (fun st rc =>
           if skip (CV_IMAGE_ELEM img (fst rc) (snd rc)) then st
           else track st (CV_IMAGE_ELEM img (fst rc) (snd rc))) l st0 in
    (fst st0 <= fst st)%Q
    /\ (forall m, snd st0 = Some m ->
          exists m', snd st = Some m' /\ (m' <= m)%Q)
    /\ forall rc, rc ∈ l ->
         skip (CV_IMAGE_ELEM img (fst rc) (snd rc)) = false ->
         exists m, snd st = Some m
           /\ (m <= CV_IMAGE_ELEM img (fst rc) (snd rc)
               /\ CV_IMAGE_ELEM img (fst rc) (snd rc) <= fst st)%Q).
  { induction l as [|rc l IH]; intros st0; cbv zeta; cbn [fold_left].
    - split; [lra|]. split; [intros m Hm; exists m; split; [exact Hm | lra]|].
      intros rc Hin. inversion Hin.
    - set (v := CV_IMAGE_ELEM img (fst rc) (snd rc)).
      destruct (skip v) eqn:Hskip.
      + destruct (IH st0) as (I1 & I2 & I3). cbv zeta in *.
        split; [exact I1|]. split; [exact I2|].
        intros rc' Hin Hs. apply elem_of_cons in Hin as [->|Hin].
        * fold v in Hs. congruence.
        * now apply I3.
      + destruct (IH (track st0 v)) as (I1 & I2 & I3). cbv zeta in *.
        destruct (track_spec st0 v) as (T1 & T2 & m' & Tm & T3 & T4).
        cbv zeta in *.
        destruct (I2 m' Tm) as (m'' & Hm'' & Hle'').
        split; [lra|]. split.
        { intros m Hm. exists m''. split; [exact Hm''|].
          specialize (T4 m Hm). lra. }
        intros rc' Hin Hs. apply elem_of_cons in Hin as [->|Hin].
        * fold v. exists m''. split; [exact Hm''|]. split; lra.
        * now apply I3. }
  destruct (Hgen pixels (0%Q, None)) as (G1 & _ & G3). cbv zeta in *.
  destruct (fold_left _ pixels _) as [maxVal minVal].
  cbn [fst snd] in *. split; [exact G1|].
  intros row col Hr Hc Hs. apply (G3 (row, col)); [now apply Hpix | exact Hs].
Qed.

Lemma normalize_value_spec (maxVal m v : Q) :
  (m <= v)%Q -> (v <= maxVal)%Q ->
  ((m < maxVal)%Q ->
   normalize_value maxVal (Some m) v = Some ((v - m) / (maxVal - m))%Q
   /\ (0 <= (v - m) / (maxVal - m) /\ (v - m) / (maxVal - m) <= 1)%Q)
  /\ ((m == maxVal)%Q -> normalize_value maxVal (Some m) v = None).
Proof.
  intros Hm Hv. unfold normalize_value. split.
  - intros Hlt.
    destruct (Qeq_bool (maxVal - m) 0) eqn:E.
    + apply Qeq_bool_iff in E. lra.
    + split; [reflexivity|]. split.
      * apply Qle_shift_div_l; lra.
      * apply Qle_shift_div_r; lra.
  - intros Heq. rewrite (proj2 (Qeq_bool_iff _ _)); [reflexivity|]. lra.
Qed.

(** X22. [normalizeImage] writes every pixel of the image and no other.
    A pixel of negative value (not set) becomes 1.  The values from 0 on
    are mapped linearly, the smallest of them to 0 and the value
    [maxVal], the largest of them and 0, to 1, so they end between 0 and
    1; where all of them are equal the difference is 0 and the quotient
    is not a number. *)
Theorem normalizeImage_spec (input : IplImage.t Q)
    (output : IplImage.t (option Q)) (row col : Z) :
  let v := CV_IMAGE_ELEM input row col in
  let out := CV_IMAGE_ELEM (normalizeImage input output) row col in
  let '(maxVal, minVal) := extremes (fun v => Qltb v 0) input in
  (0 <= row < IplImage.height input /\ 0 <= col < IplImage.width input ->
   ((v < 0)%Q -> out = Some 1%Q)
   /\ ((0 <= v)%Q ->
       exists m, minVal = Some m /\ (m <= v /\ v <= maxVal)%Q
         /\ ((m < maxVal)%Q ->
             out = Some ((v - m) / (maxVal - m))%Q
             /\ (0 <= (v - m) / (maxVal - m)
                 /\ (v - m) / (maxVal - m) <= 1)%Q)
         /\ ((m == maxVal)%Q -> out = None)))
  /\ (~ (0 <= row < IplImage.height input
         /\ 0 <= col < IplImage.width input) ->
      out = CV_IMAGE_ELEM output row col).
Proof.
  cbv zeta. unfold normalizeImage.
  pose proof (extremes_spec (fun v => Qltb v 0) input) as Hext.
  destruct (extremes (fun v => Qltb v 0) input) as [maxVal minVal].
  destruct Hext as [_ Hext].
  rewrite (fold_rows_cols
             (fun row col out =>
                set_elem out row col
                  (if Qltb (CV_IMAGE_ELEM input row col) 0 then Some 1%Q
                   else normalize_value maxVal minVal
                          (CV_IMAGE_ELEM input row col)))).
  rewrite (fold_set_elem
             (fun row col =>
                if Qltb (CV_IMAGE_ELEM input row col) 0 then Some 1%Q
                else normalize_value maxVal minVal
                       (CV_IMAGE_ELEM input row col))).
  split.
  - intros [Hr Hc].
    rewrite decide_True by (now apply elem_of_rows_cols).
    split.
    + intros Hneg. apply Qltb_lt in Hneg. now rewrite Hneg.
    + intros Hpos. apply Qltb_ge in Hpos. rewrite Hpos.
      destruct (Hext row col Hr Hc Hpos) as (m & -> & Hm & Hv).
      exists m. split; [reflexivity|]. split; [now split|].
      apply normalize_value_spec; assumption.
  - intros Hout. rewrite decide_False; [reflexivity|].
    intros Hin. now apply elem_of_rows_cols in Hin.
Qed.

(** [renderComponents(SWTImage, components, output)], for an [output] of
    the given size: the picture after [cvZero] and the loop over the
    pixels of the components; after the loop that turns 0 into -1; and
    the pixels of [output] in the end.  The last two loops read and write
    one pixel at each turn. *)
Definition paint_components (SWTImage : IplImage.t Q)
    (components : list (list Point2d.t)) (width height : Z) : IplImage.t Q :=
  fold_left
    (fun out it =>
       fold_left
         (fun out pit =>
            set_elem out (Point2d.y pit) (Point2d.x pit)
              (CV_IMAGE_ELEM SWTImage (Point2d.y pit) (Point2d.x pit)))
         it out)
    components (IplImage.mk width height (fun _ _ => 0%Q)).

Definition mark_background (img : IplImage.t Q) : IplImage.t Q :=
  IplImage.mk (IplImage.width img) (IplImage.height img)
    (fun row col =>
       if Qeq_bool (CV_IMAGE_ELEM img row col) 0 then (-1)%Q
       else CV_IMAGE_ELEM img row col).

Definition renderComponents (SWTImage : IplImage.t Q)
    (components : list (list Point2d.t)) (width height : Z)
    : IplImage.t (option Q) :=
  let marked :=
    mark_background (paint_components SWTImage components width height) in
  let '(maxVal, minVal) := extremes (fun v => Qeq_bool v 0) marked in
  IplImage.mk width height
    (fun row col =>
       let v := CV_IMAGE_ELEM marked row col in
       if Qltb v 1 then Some 1%Q else normalize_value maxVal minVal v).

(** [(row, col)] is a pixel of one of the components. *)
Definition in_components (components : list (list Point2d.t))
    (row col : Z) : Prop :=
  exists it pit, it ∈ components /\ pit ∈ it
    /\ Point2d.y pit = row /\ Point2d.x pit = col.

Lemma paint_components_spec (SWTImage : IplImage.t Q)
    (components : list (list Point2d.t)) (width height row col : Z) :
  let painted := paint_components SWTImage components width height in
  (in_components components row col ->
   CV_IMAGE_ELEM painted row col = CV_IMAGE_ELEM SWTImage row col)
  /\ (CV_IMAGE_ELEM painted row col = CV_IMAGE_ELEM SWTImage row col
      \/ CV_IMAGE_ELEM painted row col = 0%Q).
Proof.
  cbv zeta. unfold paint_components.
  set (write := fun (out : IplImage.t Q) (pit : Point2d.t) =>
         set_elem out (Point2d.y pit) (Point2d.x pit)
           (CV_IMAGE_ELEM SWTImage (Point2d.y pit) (Point2d.x pit))).
  assert (Hinner : forall it out,
    let out' := fold_left write it out in
    ((exists pit, pit ∈ it /\ Point2d.y pit = row /\ Point2d.x pit = col) ->
     CV_IMAGE_ELEM out' row col = CV_IMAGE_ELEM SWTImage row col)
    /\ (CV_IMAGE_ELEM out' row col = CV_IMAGE_ELEM SWTImage row col
        \/ CV_IMAGE_ELEM out' row col = CV_IMAGE_ELEM out row col)).
  { induction it as [|pit it IH]; intros out; cbv zeta; cbn [fold_left].
    - split; [intros (pit & Hin & _); inversion Hin | now right].
    - destruct (IH (write out pit)) as [I1 I2]. cbv zeta in *.
      assert (Hw : CV_IMAGE_ELEM (write out pit) row col
                   = if decide (row = Point2d.y pit /\ col = Point2d.x pit)
                     then CV_IMAGE_ELEM SWTImage (Point2d.y pit) (Point2d.x pit)
                     else CV_IMAGE_ELEM out row col)
        by (subst write; apply elem_set_elem).
      split.
      + intros (pit' & Hin & Hy & Hx).
        apply elem_of_cons in Hin as [->|Hin].
        * destruct I2 as [I2|I2]; [exact I2|].
          rewrite I2, Hw, decide_True by (split; congruence).
          now rewrite Hy, Hx.
        * apply I1. exists pit'. now split.
      + destruct I2 as [I2|I2]; [now left|]. rewrite I2, Hw.
        case_decide as Hd; [|now right].
        left. destruct Hd as [-> ->]. reflexivity. }
  assert (Houter : forall comps out,
    let out' := fold_left (fun out it => fold_left write it out) comps out in
    (in_components comps row col ->
     CV_IMAGE_ELEM out' row col = CV_IMAGE_ELEM SWTImage row col)
    /\ (CV_IMAGE_ELEM out' row col = CV_IMAGE_ELEM SWTImage row col
        \/ CV_IMAGE_ELEM out' row col = CV_IMAGE_ELEM out row col)).
  { induction comps as [|it comps IH]; intros out; cbv zeta; cbn [fold_left].
    - split; [intros (it & pit & Hin & _); inversion Hin | now right].
    - destruct (IH (fold_left write it out)) as [I1 I2].
      destruct (Hinner it out) as [J1 J2]. cbv zeta in *.
      split.
      + intros (it' & pit & Hit & Hpit & Hy & Hx).
        apply elem_of_cons in Hit as [->|Hit].
        * destruct I2 as [I2|I2]; [exact I2|]. rewrite I2.
          apply J1. exists pit. now split.
        * apply I1. exists it', pit. now split.
      + destruct I2 as [I2|I2]; [now left|]. rewrite I2. exact J2. }
  destruct (Houter components (IplImage.mk width height (fun _ _ => 0%Q)))
    as [H1 H2]. cbv zeta in *.
  split; [exact H1|]. destruct H2 as [H2|H2]; [now left | right].
  rewrite H2. reflexivity.
Qed.

Lemma paint_components_size (SWTImage : IplImage.t Q)
    (components : list (list Point2d.t)) (width height : Z) :
  IplImage.width (paint_components SWTImage components width height) = width
  /\ IplImage.height (paint_components SWTImage components width height)
     = height.
Proof.
  unfold paint_components.
  assert (Hgen : forall comps (out : IplImage.t Q),
    let out' :=
      fold_left
        (fun out it =>
           fold_left
             (fun out pit =>
                set_elem out (Point2d.y pit) (Point2d.x pit)
                  (CV_IMAGE_ELEM SWTImage (Point2d.y pit) (Point2d.x pit)))
             it out) comps out in
    IplImage.width out' = IplImage.width out
    /\ IplImage.height out' = IplImage.height out).
  { induction comps as [|it comps IH]; intros out; cbv zeta; cbn [fold_left];
      [now split|].
    destruct (IH (fold_left
                    (fun out pit =>
                       set_elem out (Point2d.y pit) (Point2d.x pit)
                         (CV_IMAGE_ELEM SWTImage (Point2d.y pit)
                            (Point2d.x pit))) it out)) as [I1 I2].
    cbv zeta in *. rewrite I1, I2. clear.
    revert out. induction it as [|pit it IH]; intros out; cbn [fold_left];
      [now split|].
    destruct (IH (set_elem out (Point2d.y pit) (Point2d.x pit)
                    (CV_IMAGE_ELEM SWTImage (Point2d.y pit) (Point2d.x pit))))
      as [J1 J2].
    rewrite J1, J2. now split. }
  apply (Hgen components (IplImage.mk width height (fun _ _ => 0%Q))).
Qed.

(** X23. [renderComponents] gives 1 to every pixel that lies in no
    component and to every pixel whose stroke width is below 1.  A pixel
    of a component with a width from 1 on is mapped linearly between the
    smallest and the largest value of the picture, so it ends between 0
    and 1; where the picture holds one value only, the difference is 0
    and the quotient is not a number. *)
Theorem renderComponents_spec (SWTImage : IplImage.t Q)
    (components : list (list Point2d.t)) (width height row col : Z) :
  let v := CV_IMAGE_ELEM SWTImage row col in
  let marked :=
    mark_background (paint_components SWTImage components width height) in
  let out :=
    CV_IMAGE_ELEM (renderComponents SWTImage components width height)
      row col in
  let '(maxVal, minVal) := extremes (fun v => Qeq_bool v 0) marked in
  (~ in_components components row col -> out = Some 1%Q)
  /\ ((v < 1)%Q -> out = Some 1%Q)
  /\ (0 <= row < height -> 0 <= col < width ->
      in_components components row col -> (1 <= v)%Q ->
      exists m, minVal = Some m /\ (m <= v /\ v <= maxVal)%Q
        /\ ((m < maxVal)%Q ->
            out = Some ((v - m) / (maxVal - m))%Q
            /\ (0 <= (v - m) / (maxVal - m)
                /\ (v - m) / (maxVal - m) <= 1)%Q)
        /\ ((m == maxVal)%Q -> out = None)).
Proof.
  cbv zeta. unfold renderComponents. cbv zeta.
  set (painted := paint_components SWTImage components width height).
  pose proof (extremes_spec (fun v => Qeq_bool v 0) (mark_background painted))
    as Hext.
  destruct (extremes (fun v => Qeq_bool v 0) (mark_background painted))
    as [maxVal minVal].
  destruct Hext as [_ Hext].
  destruct (paint_components_spec SWTImage components width height row col)
    as [Hon Hcase]. cbv zeta in *. fold painted in Hon, Hcase.
  assert (Hmarked : CV_IMAGE_ELEM (mark_background painted) row col
                    = if Qeq_bool (CV_IMAGE_ELEM painted row col) 0
                      then (-1)%Q else CV_IMAGE_ELEM painted row col)
    by reflexivity.
  change (CV_IMAGE_ELEM
            (IplImage.mk width height
               (fun row0 col0 =>
                  if Qltb (CV_IMAGE_ELEM (mark_background painted) row0 col0) 1
                  then Some 1%Q
                  else normalize_value maxVal minVal
                         (CV_IMAGE_ELEM (mark_background painted) row0 col0)))
            row col)
    with (if Qltb (CV_IMAGE_ELEM (mark_background painted) row col) 1
          then Some 1%Q
          else normalize_value maxVal minVal
                 (CV_IMAGE_ELEM (mark_background painted) row col)).
  assert (Hlow : forall w, (w < 1)%Q ->
            ((if Qeq_bool w 0 then (-1)%Q else w) < 1)%Q).
  { intros w Hw. destruct (Qeq_bool w 0); [reflexivity | exact Hw]. }
  assert (Hbelow : (CV_IMAGE_ELEM SWTImage row col < 1)%Q ->
            Qltb (CV_IMAGE_ELEM (mark_background painted) row col) 1 = true).
  { intros Hv. apply Qltb_lt. rewrite Hmarked.
    destruct Hcase as [-> | ->]; [now apply Hlow | reflexivity]. }
  split; [|split].
  - intros Hoff.
    assert (Hlt : Qltb (CV_IMAGE_ELEM (mark_background painted) row col) 1
                  = true).
    { apply Qltb_lt. rewrite Hmarked.
      destruct Hcase as [Hc|Hc]; [|now rewrite Hc].
      destruct (Qlt_le_dec (CV_IMAGE_ELEM SWTImage row col) 1) as [Hv|Hv].
      - rewrite Hc. now apply Hlow.
      - exfalso. apply Hoff.
        (* the pixel holds a width of 1 and more, so it was painted *)
        unfold painted, paint_components in Hc.
        clear - Hc Hv.
        assert (Hgen : forall comps out,
          CV_IMAGE_ELEM out row col = 0%Q ->
          CV_IMAGE_ELEM
            (fold_left
               (fun out it =>
                  fold_left
                    (fun out pit =>
                       set_elem out (Point2d.y pit) (Point2d.x pit)
                         (CV_IMAGE_ELEM SWTImage (Point2d.y pit)
                            (Point2d.x pit))) it out) comps out) row col
          = CV_IMAGE_ELEM SWTImage row col ->
          in_components comps row col).
        { induction comps as [|it comps IH]; intros out H0; cbn [fold_left].
          - intros H. rewrite H0 in H. rewrite <- H in Hv. lra.
          - intros H.
            assert (Hinner : forall it0 out0,
              CV_IMAGE_ELEM out0 row col = 0%Q ->
              CV_IMAGE_ELEM
                (fold_left
                   (fun out pit =>
                      set_elem out (Point2d.y pit) (Point2d.x pit)
                        (CV_IMAGE_ELEM SWTImage (Point2d.y pit)
                           (Point2d.x pit))) it0 out0) row col = 0%Q
              \/ exists pit, pit ∈ it0
                   /\ Point2d.y pit = row /\ Point2d.x pit = col).
            { induction it0 as [|pit it0 IH0]; intros out0 Hz; cbn [fold_left];
                [now left|].
              destruct (decide (row = Point2d.y pit /\ col = Point2d.x pit))
                as [[Hy Hx]|Hne].
              - right. exists pit. split; [left | now split].
              - destruct (IH0 (set_elem out0 (Point2d.y pit) (Point2d.x pit)
                                 (CV_IMAGE_ELEM SWTImage (Point2d.y pit)
                                    (Point2d.x pit))))
                  as [Hz'|(pit' & Hin & Hyx)].
                + rewrite elem_set_elem, decide_False by exact Hne. exact Hz.
                + now left.
                + right. exists pit'. split; [now right | exact Hyx]. }
            destruct (Hinner it out H0) as [Hz|(pit & Hin & Hy & Hx)].
            + destruct (IH _ Hz H) as (it' & pit & Hit & Hpit).
              exists it', pit. split; [now right | exact Hpit].
            + exists it, pit. split; [left|]. now split. }
        apply (Hgen components (IplImage.mk width height (fun _ _ => 0%Q)));
          [reflexivity | exact Hc]. }
    now rewrite Hlt.
  - intros Hv. now rewrite (Hbelow Hv).
  - intros Hr Hc Hin Hv. specialize (Hon Hin).
    assert (Hval : CV_IMAGE_ELEM (mark_background painted) row col
                   = CV_IMAGE_ELEM SWTImage row col).
    { rewrite Hmarked, Hon.
      destruct (Qeq_bool (CV_IMAGE_ELEM SWTImage row col) 0) eqn:E;
        [|reflexivity].
      apply Qeq_bool_iff in E. lra. }
    rewrite Hval.
    assert (Hge : Qltb (CV_IMAGE_ELEM SWTImage row col) 1 = false)
      by (now apply Qltb_ge).
    rewrite Hge.
    destruct (paint_components_size SWTImage components width height)
      as [Hwidth Hheight].
    destruct (Hext row col) as (m & -> & Hm & Hmax).
    + cbn [mark_background IplImage.height]. fold painted in Hheight.
      now rewrite Hheight.
    + cbn [mark_background IplImage.width]. fold painted in Hwidth.
      now rewrite Hwidth.
    + rewrite Hval.
      destruct (Qeq_bool (CV_IMAGE_ELEM SWTImage row col) 0) eqn:E;
        [|reflexivity].
      apply Qeq_bool_iff in E. lra.
    + rewrite Hval in Hm, Hmax.
      exists m. split; [reflexivity|]. split; [now split|].
      apply normalize_value_spec; assumption.
Qed.

(** ** The pipeline after the transform ([TextDetector::detect]) *)

Section Detect.

(** The collaborators of the steps. *)
Variable sqrt : Q -> Q.
Variable acos : Q -> option Q.
Variable atan2 : Q -> Q -> Q.
Variables cos sin : spec_float -> Q.
Variable rotate : CvPoint.t -> option Q -> list CvPoint.t -> list CvPoint.t.
Variable GetUTF8Text : nat -> cstring.
Variable params : Params.t.

(** [detect] from the call of [SWTMedianFilter] on, with the map and the
    rays [strokeWidthTransform] has left in [SWTImage] and [rays]: the
    strings in [text] when it returns; [None] if a step throws or does
    not return.  All its images have the size of the input.  The images
    it saves on the way are not part of the embedding. *)
Definition detect_after_transform (SWTImage : IplImage.t Q)
    (rays : list Ray.t) (text : list cstring) : option (list cstring) :=
  let '(SWTImage', _) := SWTMedianFilter SWTImage rays in
  components ← findLegallyConnectedComponents SWTImage';
  let valid := filterComponents cos sin params SWTImage' components in
  chains ← makeChains sqrt acos
             (map Component.center valid) (map Component.median valid)
             (map Component.dimensions valid) (length valid);
  Some (renderChainsWithBoxes atan2 rotate GetUTF8Text params
          (map Component.bb valid)
          (IplImage.width SWTImage) (IplImage.height SWTImage)
          chains text).

(** X18. Whatever map and rays [strokeWidthTransform] has left, the steps
    of [detect] that follow it return: no [map.at] throws and the merge
    loop is left.  They keep the strings [text] held and append strings
    of decimal digits only, each at least 3 characters long. *)
Theorem detect_after_transform_text (SWTImage : IplImage.t Q)
    (rays : list Ray.t) (text : list cstring) :
  exists new,
    detect_after_transform SWTImage rays text = Some (text ++ new)
    /\ Forall (fun s => (3 <= length s)%nat
                        /\ Forall (fun c => isdigit c = true) s) new.
Proof.
  unfold detect_after_transform.
  destruct (SWTMedianFilter SWTImage rays) as [SWTImage' rays'].
  destruct (components_pipeline SWTImage')
    as (map0 & revmap & n & g & c & num_comp
        & _ & _ & _ & _ & _ & _ & _ & Hcomp & _).
  rewrite Hcomp. cbn [mbind option_bind].
  set (valid := filterComponents cos sin params SWTImage' _).
  destruct (makeChains_lengths sqrt acos
              (map Component.center valid) (map Component.median valid)
              (map Component.dimensions valid) (length valid))
    as (chains & Hchains & Hlen).
  rewrite Hchains. cbn [mbind option_bind].
  unfold renderChainsWithBoxes. rewrite render_loop_text.
  eexists. split; [reflexivity|].
  apply Forall_forall. intros s Hs.
  apply list_elem_of_omap in Hs as (o & Ho & Hid). cbn in Hid. subst o.
  apply elem_of_lookup_imap in Ho as (i & chain & Htext & Hchain).
  cbn [Nat.add] in Htext. unfold chain_text in Htext.
  destruct (reaches_ocr _ _ _ _ _ _ _); cbn [andb] in Htext; [|discriminate].
  destruct (accepted_by_spec _ _) eqn:E; [|discriminate].
  apply accepted_by_spec_iff in E as (_ & Hl & Hd).
  injection Htext as Heq. subst s. split; [|exact Hd].
  rewrite Hl. apply Hlen. eapply list_elem_of_lookup_2, Hchain.
Qed.

End Detect.

(** * The batch driver ([src/bibnumber/batch.cpp]) *)

Module Batch.

(** ** [CSVRow::readNextRow] *)

(** [std::getline(lineStream, cell, delim)] on a stream that is not at
    its end: the characters up to the delimiter, which is taken out of
    the stream and dropped, or up to the end; and the rest of the
    stream. *)
Fixpoint getline (delim : ascii) (s : cstring) : cstring * cstring :=
  match s with
  | [] => ([], [])
  | c :: s' =>
      if Ascii.eqb c delim then ([], s')
      else (let '(cell, rest) := getline delim s' in (c :: cell, rest))
  end.

(** The loop [while (std::getline(lineStream, cell, ';'))
    m_data.push_back(cell)]: at the end of the stream [getline] extracts
    nothing and fails, which leaves the loop.  [fuel] bounds the number
    of turns. *)
Fixpoint read_cells (fuel : nat) (s : cstring) : list cstring :=
  match fuel with
  | O => []
  | S fuel' =>
      match s with
      | [] => []
      | _ :: _ =>
          let '(cell, rest) := getline ";" s in
          cell :: read_cells fuel' rest
      end
  end.

(** [m_data] after [readNextRow] has read the line [line] (without its
    end of line).  Every turn takes at least one character. *)
Definition readNextRow (line : cstring) : list cstring :=
  read_cells (S (length line)) line.

(** The cells written with [;] between them. *)
Fixpoint join (cells : list cstring) : cstring :=
  match cells with
  | [] => []
  | cell :: rest =>
      match rest with
      | [] => cell
      | _ :: _ => cell ++ ";"%char :: join rest
      end
  end.

Lemma getline_spec (delim : ascii) (s cell rest : cstring) :
  getline delim s = (cell, rest) ->
  (delim ∉ cell)
  /\ (length rest <= length s)%nat
  /\ ((s = cell /\ rest = []) \/ s = cell ++ delim :: rest).
Proof.
  revert cell rest. induction s as [|c s IH]; intros cell rest; cbn [getline].
  - intros [= <- <-]. split; [intros H; inversion H|].
    split; [reflexivity|]. now left.
  - destruct (Ascii.eqb_spec c delim) as [->|Hne].
    + intros [= <- <-]. split; [intros H; inversion H|].
      split; [cbn; lia|]. now right.
    + destruct (getline delim s) as [cell' rest'].
      intros [= <- <-]. destruct (IH cell' rest' eq_refl) as (Hnot & Hlen & Hs).
      split; [|split].
      * intros H. apply elem_of_cons in H as [H|H]; [congruence | tauto].
      * cbn [length]. lia.
      * destruct Hs as [[-> ->]| ->]; [now left | now right].
Qed.

Lemma getline_rest_shorter (delim : ascii) (c : ascii) (s : cstring) :
  (length (snd (getline delim (c :: s))) <= length s)%nat.
Proof.
  cbn [getline]. destruct (Ascii.eqb c delim); [reflexivity|].
  destruct (getline delim s) as [cell rest] eqn:E. cbn [snd].
  now apply getline_spec in E as (_ & Hlen & _).
Qed.

Lemma read_cells_S (fuel : nat) (c : ascii) (s : cstring) :
  read_cells (S fuel) (c :: s)
  = fst (getline ";" (c :: s)) :: read_cells fuel (snd (getline ";" (c :: s))).
Proof.
  cbn [read_cells]. now destruct (getline ";" (c :: s)).
Qed.

Lemma read_cells_fuel (fuel fuel' : nat) (s : cstring) :
  (length s < fuel)%nat -> (length s < fuel')%nat ->
  read_cells fuel s = read_cells fuel' s.
Proof.
  revert fuel' s. induction fuel as [|fuel IH]; intros fuel' s Hf Hf'; [lia|].
  destruct fuel' as [|fuel']; [lia|].
  destruct s as [|c s]; [reflexivity|]. rewrite !read_cells_S.
  pose proof (getline_rest_shorter ";" c s) as Hlen.
  destruct (getline ";" (c :: s)) as [cell rest]. cbn [fst snd length] in *.
  f_equal. apply IH; lia.
Qed.

Lemma readNextRow_cons (c : ascii) (s : cstring) :
  readNextRow (c :: s)
  = fst (getline ";" (c :: s)) :: readNextRow (snd (getline ";" (c :: s))).
Proof.
  unfold readNextRow. rewrite read_cells_S.
  pose proof (getline_rest_shorter ";" c s) as Hlen.
  destruct (getline ";" (c :: s)) as [cell rest]. cbn [fst snd length] in *.
  f_equal. apply read_cells_fuel; lia.
Qed.

Lemma getline_cell (delim : ascii) (cell rest : cstring) :
  delim ∉ cell -> getline delim (cell ++ delim :: rest) = (cell, rest).
Proof.
  induction cell as [|c cell IH]; intros Hnot; cbn [app getline].
  - now rewrite Ascii.eqb_refl.
  - destruct (Ascii.eqb_spec c delim) as [->|Hne].
    + exfalso. apply Hnot. left.
    + rewrite IH; [reflexivity|]. intros H. apply Hnot. now right.
Qed.

Lemma getline_last (delim : ascii) (cell : cstring) :
  delim ∉ cell -> getline delim cell = (cell, []).
Proof.
  induction cell as [|c cell IH]; intros Hnot; cbn [getline]; [reflexivity|].
  destruct (Ascii.eqb_spec c delim) as [->|Hne].
  - exfalso. apply Hnot. left.
  - rewrite IH; [reflexivity|]. intros H. apply Hnot. now right.
Qed.

(** X19. [readNextRow] splits a line at its semicolons.  No cell holds a
    semicolon; the cells joined by semicolons give the line back, up to
    one semicolon at the end of the line, which opens no cell; an empty
    line has no cell at all.  Cells without semicolon, the last of them
    not empty, are read back as they were written. *)
Theorem readNextRow_spec (line : cstring) :
  Forall (fun cell => ";"%char ∉ cell) (readNextRow line)
  /\ (line = join (readNextRow line)
      \/ line = join (readNextRow line) ++ [";"%char])
  /\ (readNextRow line = [] <-> line = [])
  /\ (forall cells,
        Forall (fun cell => ";"%char ∉ cell) cells ->
        List.last cells [";"%char] <> [] ->
        readNextRow (join cells) = cells).
Proof.
  split; [|split; [|split]].
  - remember (length line) as n eqn:Hn.
    revert line Hn. induction n as [n IH] using lt_wf_ind. intros line Hn.
    destruct line as [|c s]; [constructor|].
    rewrite readNextRow_cons.
    pose proof (getline_rest_shorter ";" c s) as Hlen.
    destruct (getline ";" (c :: s)) as [cell rest] eqn:E. cbn [fst snd] in *.
    apply getline_spec in E as (Hnot & _ & _).
    constructor; [exact Hnot|].
    apply (IH (length rest)); [cbn [length] in Hn; lia | reflexivity].
  - remember (length line) as n eqn:Hn.
    revert line Hn. induction n as [n IH] using lt_wf_ind. intros line Hn.
    destruct line as [|c s]; [now left|].
    rewrite readNextRow_cons.
    pose proof (getline_rest_shorter ";" c s) as Hlen.
    destruct (getline ";" (c :: s)) as [cell rest] eqn:E. cbn [fst snd] in *.
    apply getline_spec in E as (_ & _ & Hs).
    destruct Hs as [[Hs ->]|Hs].
    + left. rewrite Hs. reflexivity.
    + rewrite Hs.
      destruct (IH (length rest)) with (line := rest) as [Hrest|Hrest];
        [cbn [length] in Hn; lia | reflexivity | |].
      * destruct (readNextRow rest) as [|cell' cells'] eqn:Hr.
        -- right. cbn [join] in *. now rewrite Hrest.
        -- left. cbn [join] in *. now rewrite <- Hrest.
      * destruct (readNextRow rest) as [|cell' cells'] eqn:Hr.
        -- exfalso. rewrite Hrest in Hr. vm_compute in Hr. discriminate Hr.
        -- right. remember (cell' :: cells') as R. cbn [join].
           subst R. rewrite Hrest at 1. now rewrite <- app_assoc.
  - split; [|now intros ->].
    destruct line as [|c s]; [reflexivity|].
    rewrite readNextRow_cons. discriminate.
  - induction cells as [|cell cells IH]; intros Hall Hlast; [reflexivity|].
    apply Forall_cons in Hall as [Hcell Hall].
    destruct cells as [|cell' cells].
    + cbn [join List.last] in *.
      destruct cell as [|c cell]; [congruence|].
      rewrite readNextRow_cons, (getline_last ";" (c :: cell) Hcell).
      reflexivity.
    + remember (cell' :: cells) as R. cbn [join]. subst R.
      assert (Hjoin : cell ++ ";"%char :: join (cell' :: cells)
                      = match cell ++ ";"%char :: join (cell' :: cells) with
                        | [] => []
                        | c :: s => c :: s
                        end) by (destruct cell; reflexivity).
      destruct (cell ++ ";"%char :: join (cell' :: cells)) as [|c s] eqn:E.
      { destruct cell; discriminate. }
      rewrite readNextRow_cons, <- E, (getline_cell ";" cell _ Hcell).
      cbn [fst snd]. f_equal. apply IH; [exact Hall|].
      exact Hlast.
Qed.

(** ** [isImageFile] *)

(** [::tolower] in the "C" locale. *)
Definition tolower (c : ascii) : ascii :=
  let n := nat_of_ascii c in
  if (65 <=? n)%nat && (n <=? 90)%nat then ascii_of_nat (n + 32) else c.

(** [boost::algorithm::ends_with(input, test)]: [test] is a suffix of
    [input]. *)
Definition ends_with (input test : cstring) : bool :=
  bool_decide (test `suffix_of` input).

Definition dot_jpg : cstring := list_ascii_of_string ".jpg".
Definition dot_png : cstring := list_ascii_of_string ".png".

(** [static bool isImageFile(std::string name)] *)
Definition isImageFile (name : cstring) : bool :=
  let lower_case := map tolower name in
  if ends_with lower_case dot_jpg || ends_with lower_case dot_png
  then true else false.

Lemma tolower_idemp (c : ascii) : tolower (tolower c) = tolower c.
Proof.
  unfold tolower. cbv zeta.
  destruct ((65 <=? nat_of_ascii c)%nat && (nat_of_ascii c <=? 90)%nat) eqn:E.
  - apply andb_true_iff in E as [E1 E2]. apply Nat.leb_le in E1, E2.
    rewrite nat_ascii_embedding by lia.
    destruct ((65 <=? nat_of_ascii c + 32)%nat
              && (nat_of_ascii c + 32 <=? 90)%nat) eqn:E'; [|reflexivity].
    apply andb_true_iff in E' as [_ E']. apply Nat.leb_le in E'. lia.
  - now rewrite E.
Qed.

Lemma suffix_take_drop {A} (test input : list A) :
  test `suffix_of` input
  <-> (length test <= length input)%nat
      /\ drop (length input - length test) input = test.
Proof.
  split.
  - intros [k ->]. rewrite length_app. split; [lia|].
    replace (length k + length test - length test)%nat with (length k) by lia.
    now rewrite drop_app_length.
  - intros [Hlen Hdrop]. exists (take (length input - length test) input).
    now rewrite <- Hdrop at 2; rewrite take_drop.
Qed.

(** X20. [isImageFile] looks at the last four characters of the name
    only, without regard to case: it holds exactly of the names of four
    characters and more whose last four, in lower case, are [.jpg] or
    [.png]; changing the case of letters of the name does not change the
    answer. *)
Theorem isImageFile_spec (name : cstring) :
  (isImageFile name = true
   <-> (4 <= length name)%nat
       /\ (map tolower (drop (length name - 4) name) = dot_jpg
           \/ map tolower (drop (length name - 4) name) = dot_png))
  /\ isImageFile (map tolower name) = isImageFile name
  /\ (forall name', map tolower name' = map tolower name ->
        isImageFile name' = isImageFile name).
Proof.
  assert (Hspec : forall n : cstring,
    isImageFile n = true
    <-> (4 <= length n)%nat
        /\ (map tolower (drop (length n - 4) n) = dot_jpg
            \/ map tolower (drop (length n - 4) n) = dot_png)).
  { intros n. unfold isImageFile, ends_with. cbv zeta.
    rewrite !fmap_drop.
    change (tolower <$> n) with (map tolower n).
    assert (Hl : length (map tolower n) = length n) by apply length_map.
    destruct (bool_decide (dot_jpg `suffix_of` map tolower n)) eqn:Ej.
    - apply bool_decide_eq_true in Ej.
      apply suffix_take_drop in Ej as [Hlen Hdrop].
      rewrite Hl in Hlen, Hdrop. cbn [orb]. split; [intros _|reflexivity].
      split; [exact Hlen | now left].
    - apply bool_decide_eq_false in Ej. cbn [orb].
      destruct (bool_decide (dot_png `suffix_of` map tolower n)) eqn:Ep.
      + apply bool_decide_eq_true in Ep.
        apply suffix_take_drop in Ep as [Hlen Hdrop].
        rewrite Hl in Hlen, Hdrop. split; [intros _|reflexivity].
        split; [exact Hlen | now right].
      + apply bool_decide_eq_false in Ep. split; [discriminate|].
        intros [Hlen [Hd|Hd]]; exfalso.
        * apply Ej, suffix_take_drop. rewrite Hl. now split.
        * apply Ep, suffix_take_drop. rewrite Hl. now split. }
  assert (Hcase : forall name', map tolower name' = map tolower name ->
            isImageFile name' = isImageFile name).
  { intros name' Heq. unfold isImageFile. cbv zeta. now rewrite Heq. }
  split; [apply Hspec|]. split; [|exact Hcase].
  apply Hcase. rewrite map_map. apply map_ext. apply tolower_idemp.
Qed.

(** ** The evaluation against the ground truth ([batch::process]) *)

(** [static int exists(std::vector<int> arr, int item)] *)
Definition exists_ (arr : list Z) (item : Z) : bool :=
  bool_decide (item ∈ arr).

(** The counters [true_positives], [false_positives], [relevant]. *)
Record counters := mk_counters {
  true_positives : Z;
  false_positives : Z;
  relevant : Z
}.

(** The loop over [bibNumbers] for one row of the file. *)
Definition count_matches (groundTruthNumbers bibNumbers : list Z)
    (st : counters) : counters :=
  fold_left
    (fun st bib =>
       if exists_ groundTruthNumbers bib
       then mk_counters (true_positives st + 1) (false_positives st)
              (relevant st)
       else mk_counters (true_positives st) (false_positives st + 1)
              (relevant st))
    bibNumbers st.

(** One turn of [while (file >> row)]: the numbers of the ground truth
    and the numbers read from the image of the row. *)
Definition score_row (st : counters) (row : list Z * list Z) : counters :=
  let '(groundTruthNumbers, bibNumbers) := row in
  let st :=
    mk_counters (true_positives st) (false_positives st)
      (relevant st + Z.of_nat (length groundTruthNumbers)) in
  count_matches groundTruthNumbers bibNumbers st.

Definition score (rows : list (list Z * list Z)) : counters :=
  fold_left score_row rows (mk_counters 0 0 0).

(** [precision] and [recall], where the quotients are defined. *)
Definition precision (st : counters) : Q :=
  inject_Z (true_positives st)
  / inject_Z (true_positives st + false_positives st).
Definition recall (st : counters) : Q :=
  inject_Z (true_positives st) / inject_Z (relevant st).

Lemma count_matches_spec (truth bibs : list Z) (st : counters) :
  let st' := count_matches truth bibs st in
  true_positives st'
  = true_positives st
    + Z.of_nat (length (filter (fun bib => bib ∈ truth) bibs))
  /\ false_positives st'
     = false_positives st
       + Z.of_nat (length (filter (fun bib => bib ∉ truth) bibs))
  /\ relevant st' = relevant st.
Proof.
  unfold count_matches. revert st.
  induction bibs as [|bib bibs IH]; intros st; cbn [fold_left]; cbv zeta.
  - cbn. repeat split; lia.
  - assert (Hex : exists_ truth bib = bool_decide (bib ∈ truth)) by reflexivity.
    rewrite Hex, !filter_cons.
    destruct (decide (bib ∈ truth)) as [Hin|Hnot].
    + rewrite (bool_decide_eq_true_2 _ Hin).
      rewrite decide_False by tauto.
      destruct (IH (mk_counters (true_positives st + 1) (false_positives st)
                      (relevant st))) as (H1 & H2 & H3).
      cbv zeta in H1, H2, H3.
      cbn [true_positives false_positives relevant] in H1, H2, H3.
      split; [|split].
      * rewrite H1. cbn [length]. lia.
      * rewrite H2. lia.
      * exact H3.
    + rewrite (bool_decide_eq_false_2 _ Hnot).
      rewrite decide_True by tauto.
      destruct (IH (mk_counters (true_positives st) (false_positives st + 1)
                      (relevant st))) as (H1 & H2 & H3).
      cbv zeta in H1, H2, H3.
      cbn [true_positives false_positives relevant] in H1, H2, H3.
      split; [|split].
      * rewrite H1. lia.
      * rewrite H2. cbn [length]. lia.
      * exact H3.
Qed.

Lemma filter_complement_length {A} (P : A -> Prop)
    `{forall x, Decision (P x)} (l : list A) :
  (length (filter P l) + length (filter (fun x => ~ P x) l) = length l)%nat.
Proof.
  induction l as [|a l IH]; [reflexivity|].
  rewrite !filter_cons. destruct (decide (P a)).
  - rewrite decide_False by tauto. cbn [length]. lia.
  - rewrite decide_True by tauto. cbn [length]. lia.
Qed.

(** X21. The evaluation counts every number read once, as a match or as
    a mismatch.  Where no number is listed twice for one image, there are
    no more matches than ground-truth numbers, so precision and recall,
    where their quotients are defined, lie between 0 and 1. *)
Theorem score_spec (rows : list (list Z * list Z)) :
  Forall (fun row => NoDup (snd row)) rows ->
  let st := score rows in
  true_positives st + false_positives st
  = Z.of_nat (length (flat_map snd rows))
  /\ relevant st = Z.of_nat (length (flat_map fst rows))
  /\ 0 <= true_positives st <= relevant st
  /\ 0 <= false_positives st
  /\ (0 < true_positives st + false_positives st ->
      (0 <= precision st <= 1)%Q)
  /\ (0 < relevant st -> (0 <= recall st <= 1)%Q).
Proof.
  intros Hnd. cbv zeta.
  assert (Hgen : forall l st0,
    Forall (fun row => NoDup (snd row)) l ->
    let st := fold_left score_row l st0 in
    true_positives st + false_positives st
    = true_positives st0 + false_positives st0
      + Z.of_nat (length (flat_map snd l))
    /\ relevant st = relevant st0 + Z.of_nat (length (flat_map fst l))
    /\ true_positives st0 <= true_positives st
    /\ true_positives st - true_positives st0 <= relevant st - relevant st0
    /\ false_positives st0 <= false_positives st).
  { induction l as [|[truth bibs] l IH]; intros st0 Hl; cbv zeta.
    - cbn. repeat split; lia.
    - apply Forall_cons in Hl as [Hbibs Hl]. cbn [snd] in Hbibs.
      cbn [fold_left flat_map fst snd]. rewrite !length_app.
      unfold score_row at 2 4 6 8 10 12 14.
      set (st1 := mk_counters (true_positives st0) (false_positives st0)
                    (relevant st0 + Z.of_nat (length truth))).
      destruct (count_matches_spec truth bibs st1) as (H1 & H2 & H3).
      cbv zeta in H1, H2, H3.
      set (st2 := count_matches truth bibs st1) in *.
      destruct (IH st2 Hl) as (I1 & I2 & I3 & I4 & I5). cbv zeta in *.
      subst st1. cbn [true_positives false_positives relevant] in *.
      pose proof (filter_complement_length (fun bib => bib ∈ truth) bibs)
        as Hsplit.
      assert (Hle : (length (filter (fun bib => bib ∈ truth) bibs)
                     <= length truth)%nat).
      { apply submseteq_length, NoDup_submseteq.
        - now apply NoDup_filter.
        - intros x Hx. now apply list_elem_of_filter in Hx as [Hx _]. }
      cbv beta in Hsplit. repeat split; lia. }
  destruct (Hgen rows (mk_counters 0 0 0) Hnd) as (G1 & G2 & G3 & G4 & G5).
  cbv zeta in *. fold (score rows) in *.
  cbn [true_positives false_positives relevant] in *.
  set (st := score rows) in *.
  split; [lia|]. split; [lia|]. split; [lia|]. split; [lia|].
  assert (Hq : forall a b : Z, 0 <= a <= b -> 0 < b ->
            (0 <= inject_Z a / inject_Z b <= 1)%Q).
  { intros a b Hab Hb.
    assert (Hb' : (0 < inject_Z b)%Q)
      by (change 0%Q with (inject_Z 0); now rewrite <- Zlt_Qlt).
    assert (Ha' : (0 <= inject_Z a)%Q)
      by (change 0%Q with (inject_Z 0); rewrite <- Zle_Qle; lia).
    assert (Hab' : (inject_Z a <= inject_Z b)%Q)
      by (rewrite <- Zle_Qle; lia).
    split.
    - apply Qle_shift_div_l; [exact Hb' | lra].
    - apply Qle_shift_div_r; [exact Hb' | lra]. }
  split.
  - intros Hpos. unfold precision. apply Hq; lia.
  - intros Hpos. unfold recall. apply Hq; lia.
Qed.

End Batch.

(** ** Instances of the theorems with hypotheses *)

(** A [sqrt] on the rationals: the integer square root of the floor. *)
Definition sqrt_floor (a : Q) : Q := inject_Z (Z.sqrt (Qfloor a)).

Lemma sqrt_floor_nonneg (a : Q) : (0 <= sqrt_floor a)%Q.
Proof.
  unfold sqrt_floor. change 0%Q with (inject_Z 0). rewrite <- Zle_Qle.
  apply Z.sqrt_nonneg.
Qed.

(** A row of five pixels with edges at the columns 0 and 3; the walk from
    column 0 crosses to column 3, the walk from column 3 leaves the image. *)
Definition stroke_edges : IplImage.t Z :=
  IplImage.mk 5 1 (fun _ col => if (col =? 0) || (col =? 3) then 255 else 0).

Definition stroke_walk (row col : Z) : option (list Point2d.t * bool) :=
  if col =? 0
  then Some ([Point2d.mk 0 0 0; Point2d.mk 1 0 0; Point2d.mk 2 0 0;
              Point2d.mk 3 0 0], true)
  else None.

Definition stroke_params : Params.t := Params.mk true 20 10 30 0 0 20.

(** The map as [detect] hands it over: -1 everywhere. *)
Definition unset_map (width height : Z) : IplImage.t Q :=
  IplImage.mk width height (fun _ _ => (-1)%Q).

Example stroke_ray :
  let '(SWT1, rays) :=
    strokeWidthTransform sqrt_floor stroke_walk stroke_params stroke_edges
      (unset_map 5 1) [] in
  rays = [Ray.mk (Point2d.mk 0 0 0) (Point2d.mk 3 0 0)
            [Point2d.mk 0 0 0; Point2d.mk 1 0 0; Point2d.mk 2 0 0;
             Point2d.mk 3 0 0]]
  /\ map (CV_IMAGE_ELEM SWT1 0) [0; 1; 2; 3; 4] = [3; 3; 3; 3; -1]%Q.
Proof. vm_compute. split; reflexivity. Qed.

Lemma swt_value_le_ray_length_witness :
  (forall a, (0 <= sqrt_floor a)%Q)
  /\ (let '(SWT1, rays) :=
        strokeWidthTransform sqrt_floor stroke_walk stroke_params stroke_edges
          (unset_map 5 1) [] in
      let '(SWT2, _) := SWTMedianFilter SWT1 rays in
      (forall r pt, r ∈ rays -> pt ∈ Ray.points r ->
         (pixel_at SWT1 pt <= ray_length sqrt_floor (Ray.p r) (Ray.q r)
          /\ pixel_at SWT2 pt
             <= ray_length sqrt_floor (Ray.p r) (Ray.q r))%Q)
      /\ (forall pt, off_paths rays pt ->
            pixel_at SWT1 pt = pixel_at (unset_map 5 1) pt)
      /\ (forall pt, (pixel_at SWT2 pt <= pixel_at SWT1 pt)%Q)).
Proof.
  split; [exact sqrt_floor_nonneg|].
  exact (swt_value_le_ray_length sqrt_floor stroke_walk stroke_params
           stroke_edges sqrt_floor_nonneg (unset_map 5 1)).
Defined.

(** Three components side by side, the third only 5 pixels high, and the
    chain that joins them. *)
Definition low_boxes : list BBox :=
  [ (Point2d.mk 10 10 0, Point2d.mk 20 30 0);
    (Point2d.mk 30 10 0, Point2d.mk 40 30 0);
    (Point2d.mk 50 12 0, Point2d.mk 60 17 0) ].

Definition low_chain : Chain.t :=
  Chain.mk 0 2 1600 (Some (Point2dFloat.mk (-1) 0)) [0; 1; 2]%nat false.

Lemma low_component_rejects_chain_witness :
  min_component_height low_boxes low_chain = Some 5
  /\ 5 < Params.minCharacterheight stroke_params
  /\ render_chain (fun _ _ => 0%Q) (fun _ _ pts => pts)
       (fun _ => list_ascii_of_string "123") stroke_params low_boxes 640 480
       0 low_chain []
     = [].
Proof.
  split; [reflexivity|]. split; [reflexivity|].
  apply (low_component_rejects_chain (fun _ _ => 0%Q) (fun _ _ pts => pts)
           (fun _ => list_ascii_of_string "123") stroke_params low_boxes
           640 480 0%nat low_chain [] 5); reflexivity.
Defined.

(** Four components in a row, 20 pixels apart, of equal size and stroke
    width: one chain of the four. *)
Definition row_centers : list Point2dFloat.t :=
  [Point2dFloat.mk 10 10; Point2dFloat.mk 30 10; Point2dFloat.mk 50 10;
   Point2dFloat.mk 70 10].
Definition row_medians : list Q := [4; 4; 4; 4]%Q.
Definition row_dimensions : list Point2d.t :=
  [Point2d.mk 16 20 0; Point2d.mk 16 20 0; Point2d.mk 16 20 0;
   Point2d.mk 16 20 0].

(** An [acos] that is exact where the example needs it: [acos 1 = 0],
    [acos (-1) = PI]. *)
Definition acos_ends (v : Q) : option Q :=
  if Qeq_bool v 1 then Some 0%Q
  else if Qeq_bool v (-1) then Some PI
  else if Qltb (-1) v && Qltb v 1 then Some (PI / 2)%Q
  else None.

Example chain_of_a_row :
  option_map (map (fun c => (Chain.p c, Chain.q c, Chain.components c)))
    (makeChains sqrt_floor acos_ends row_centers row_medians row_dimensions 4)
  = Some [(0, 3, [0; 1; 2; 3])%nat].
Proof. vm_compute. reflexivity. Qed.

(** Three components at the corners of an L: the two chains share the
    component 1 and stand at a right angle. *)
Definition corner_centers : list Point2dFloat.t :=
  [Point2dFloat.mk 10 10; Point2dFloat.mk 30 10; Point2dFloat.mk 30 30].
Definition corner_medians : list Q := [4; 4; 4]%Q.
Definition corner_dimensions : list Point2d.t :=
  [Point2d.mk 16 20 0; Point2d.mk 16 20 0; Point2d.mk 16 20 0].

Example chains_of_a_corner :
  option_map (map (fun c => (Chain.p c, Chain.q c, Chain.components c)))
    (merged_chains sqrt_floor acos_ends corner_centers corner_medians
       corner_dimensions 3)
  = Some [(0, 1, [0; 1]); (1, 2, [1; 2])]%nat
  /\ makeChains sqrt_floor acos_ends corner_centers corner_medians
       corner_dimensions 3 = Some [].
Proof. vm_compute. split; reflexivity. Qed.

Lemma sqrt_floor_zero (a : Q) : (a == 0)%Q -> (sqrt_floor a == 0)%Q.
Proof. intros H. unfold sqrt_floor. rewrite H. reflexivity. Qed.

Lemma no_mergeable_pair_survives_witness :
  (forall a, (a == 0)%Q -> (sqrt_floor a == 0)%Q)
  /\ exists pool last,
       merged_chains sqrt_floor acos_ends corner_centers corner_medians
         corner_dimensions 3 = Some pool
       /\ merge_pass sqrt_floor acos_ends corner_centers last = (pool, 0%nat)
       /\ forall i j ci cj,
            i <> j -> pool !! i = Some ci -> pool !! j = Some cj ->
            (Chain.p ci = Chain.p cj ->
             within_strictness acos_ends
               (dot_opposite (Chain.direction ci) (Chain.direction cj)) = false)
            /\ (Chain.p ci = Chain.q cj ->
                within_strictness acos_ends
                  (dot (Chain.direction ci) (Chain.direction cj)) = false)
            /\ (Chain.q ci = Chain.p cj ->
                within_strictness acos_ends
                  (dot (Chain.direction ci) (Chain.direction cj)) = false)
            /\ (Chain.q ci = Chain.q cj ->
                within_strictness acos_ends
                  (dot_opposite (Chain.direction ci) (Chain.direction cj)) = false).
Proof.
  split; [exact sqrt_floor_zero|].
  exact (no_mergeable_pair_survives sqrt_floor acos_ends corner_centers
           corner_medians corner_dimensions 3 sqrt_floor_zero).
Defined.

(** ** The merge test at equal directions *)

(** The binary32 number nearest to a rational whose numerator and
    denominator are below 2^24. *)
Definition f32_of_Q (q : Q) : spec_float :=
  SFdiv 24 128 (binary_normalize 24 128 (Qnum q) 0 false)
    (binary_normalize 24 128 (Zpos (Qden q)) 0 false).

(** [sqrt] at a float: the square root of IEEE-754 binary32, correctly
    rounded. *)
Definition sqrtf (a : Q) : Q := Angle.F2Q (SFsqrt 24 128 (f32_of_Q a)).

(** [d / mag] with [mag = sqrt(mag2)], and the dot product of two unit
    vectors, every operation rounded to binary32 as the program computes
    them on its [float]s. *)
Definition unit32 (d mag2 : Z) : spec_float :=
  SFdiv 24 128 (f32_of_Q (inject_Z d)) (SFsqrt 24 128 (f32_of_Q (inject_Z mag2))).

Definition dot32 (x y x' y' : spec_float) : spec_float :=
  SFadd 24 128 (SFmul 24 128 x x') (SFmul 24 128 y y').

(** What the specification means by an angle below 30 degrees between
    two vectors, neither of them zero: the cosine of the angle,
    [u.v / (|u| |v|)], is above [sqrt(3) / 2]. *)
Definition angle_below_30_degrees (u v : Point2dFloat.t) : bool :=
  let uv := (Point2dFloat.x u * Point2dFloat.x v
             + Point2dFloat.y u * Point2dFloat.y v)%Q in
  let uu := (Point2dFloat.x u * Point2dFloat.x u
             + Point2dFloat.y u * Point2dFloat.y u)%Q in
  let vv := (Point2dFloat.x v * Point2dFloat.x v
             + Point2dFloat.y v * Point2dFloat.y v)%Q in
  Qltb 0 uv && Qltb (3 * (uu * vv)) (4 * (uv * uv)).

(** Three components of equal size on a diagonal, 12 pixels apart each
    way. *)
Definition diagonal_centers : list Point2dFloat.t :=
  [Point2dFloat.mk 10 10; Point2dFloat.mk 22 22; Point2dFloat.mk 34 34].

(** C4, at the input on which the program leaves the claim: the three
    components of the diagonal, with the square root of binary32.  The
    merge loop is left with the two chains (0, 1) and (1, 2).  They are
    different, they share the end 1, the [q] of the first and the [p] of
    the second, and they have the same direction: the angle between them
    is 0, far below 30 degrees.  Yet both survive: [sqrt(288)] is rounded
    down, the two unit vectors are a little longer than 1, their dot
    product exceeds 1, in exact arithmetic and in binary32, where it is
    [1 + 2^-23]; [acos] is not a number above 1 and the comparison with
    [PI / 6] is false.  At the dot product 1 of two equal unit vectors the
    test holds.  In the end [makeChains] returns no chain for the three
    components in a line. *)
Theorem equal_directions_survive :
  exists ci cj d,
    merged_chains sqrtf acos_ends diagonal_centers corner_medians
      corner_dimensions 3 = Some [ci; cj]
    /\ ci <> cj
    /\ (Chain.p ci, Chain.q ci) = (0, 1)%nat
    /\ (Chain.p cj, Chain.q cj) = (1, 2)%nat
    /\ sharesOneEnd ci cj = true
    /\ Chain.direction ci = Some d /\ Chain.direction cj = Some d
    /\ angle_below_30_degrees d d = true
    /\ (exists v,
          dot (Chain.direction ci) (Chain.direction cj) = Some v
          /\ (1 < v)%Q /\ acos_ends v = None)
    /\ dot32 (unit32 (-12) 288) (unit32 (-12) 288)
         (unit32 (-12) 288) (unit32 (-12) 288)
       = S754_finite false (2 ^ 23 + 1) (-23)
    /\ SFcompare
         (dot32 (unit32 (-12) 288) (unit32 (-12) 288)
            (unit32 (-12) 288) (unit32 (-12) 288))
         (f32_of_Q 1) = Some Gt
    /\ within_strictness acos_ends (Some 1%Q) = true
    /\ makeChains sqrtf acos_ends diagonal_centers corner_medians
         corner_dimensions 3 = Some [].
Proof.
  eexists _, _, _. split; [vm_compute; reflexivity|].
  split; [discriminate|].
  repeat (split; [reflexivity|]).
  split.
  - eexists. split; [reflexivity|]. split; reflexivity.
  - repeat (split; [vm_compute; reflexivity|]). vm_compute. reflexivity.
Qed.

(** Two corners of a rotated chain, one of them outside the picture, and
    a picture of 10 by 20 pixels. *)
Lemma getBoundingBox_inside_clip_witness :
  1 <= 10 /\ 1 <= 20
  /\ (let vec := [CvPoint.mk (-5) 7; CvPoint.mk 12 30] in
      let roi := getBoundingBox vec 10 20 in
      (0 <= Rect.x roi /\ 0 <= Rect.y roi
       /\ 0 <= Rect.width roi /\ 0 <= Rect.height roi
       /\ Rect.x roi + Rect.width roi <= 10 - 1
       /\ Rect.y roi + Rect.height roi <= 20 - 1)
      /\ (forall it, it ∈ vec ->
            Rect.x roi <= clamp (10 - 1) (CvPoint.x it)
            <= Rect.x roi + Rect.width roi
            /\ Rect.y roi <= clamp (20 - 1) (CvPoint.y it)
               <= Rect.y roi + Rect.height roi)
      /\ (vec = [] -> roi = Rect.mk 0 0 (10 - 1) (20 - 1))).
Proof.
  split; [lia|]. split; [lia|].
  apply (getBoundingBox_inside_clip [CvPoint.mk (-5) 7; CvPoint.mk 12 30]
           10 20); lia.
Defined.

(** A component of two pixels in a picture of 10 by 10. *)
Definition two_pixels : list Point2d.t := [Point2d.mk 3 4 0; Point2d.mk 7 2 0].

Lemma two_pixels_in_image (it : Point2d.t) :
  it ∈ two_pixels ->
  0 <= Point2d.x it <= 10 /\ 0 <= Point2d.y it <= 10.
Proof.
  unfold two_pixels. intros Hit.
  apply elem_of_cons in Hit as [->|Hit]; [cbn; lia|].
  apply list_elem_of_singleton in Hit as ->. cbn. lia.
Qed.

Lemma findBoundingBox_pixels_tight_witness :
  two_pixels <> []
  /\ (forall it, it ∈ two_pixels ->
        0 <= Point2d.x it <= 10 /\ 0 <= Point2d.y it <= 10)
  /\ (let bb := findBoundingBox_pixels 10 10 two_pixels in
      (forall it, it ∈ two_pixels ->
         CvPoint.x (fst bb) <= Point2d.x it <= CvPoint.x (snd bb)
         /\ CvPoint.y (fst bb) <= Point2d.y it <= CvPoint.y (snd bb))
      /\ (exists it, it ∈ two_pixels /\ CvPoint.x (fst bb) = Point2d.x it)
      /\ (exists it, it ∈ two_pixels /\ CvPoint.y (fst bb) = Point2d.y it)
      /\ (exists it, it ∈ two_pixels /\ CvPoint.x (snd bb) = Point2d.x it)
      /\ (exists it, it ∈ two_pixels /\ CvPoint.y (snd bb) = Point2d.y it)).
Proof.
  split; [discriminate|]. split; [exact two_pixels_in_image|].
  apply (findBoundingBox_pixels_tight 10 10 two_pixels);
    [discriminate | exact two_pixels_in_image].
Defined.

(** Three components of one pixel each and one chain of the first and
    the third. *)
Definition three_components : list (list Point2d.t) :=
  [[Point2d.mk 1 1 0]; [Point2d.mk 5 1 0]; [Point2d.mk 9 1 0]].

Definition outer_chain : Chain.t :=
  Chain.mk 0 2 64 (Some (Point2dFloat.mk (-1) 0)) [0; 2]%nat false.

Lemma outer_chain_indices :
  Forall (fun it =>
            Forall (fun cit => (cit < length three_components)%nat)
              (Chain.components it)) [outer_chain].
Proof. repeat constructor. Qed.

Lemma componentsRed_spec_witness :
  Forall (fun it =>
            Forall (fun cit => (cit < length three_components)%nat)
              (Chain.components it)) [outer_chain]
  /\ componentsRed three_components [outer_chain]
     = map (fun i => three_components !!! i)
         (filter (fun i => Exists (fun it => i ∈ Chain.components it)
                             [outer_chain])
            (seq 0 (length three_components)))
  /\ sublist (componentsRed three_components [outer_chain]) three_components.
Proof.
  split; [exact outer_chain_indices|].
  exact (componentsRed_spec three_components [outer_chain] outer_chain_indices).
Defined.

Lemma unset_map_unset (width height : Z) (pt : Point2d.t) :
  pixel_at (unset_map width height) pt = (-1)%Q.
Proof. reflexivity. Qed.

Lemma swt_values_after_filter_witness :
  (forall a, (0 <= sqrt_floor a)%Q)
  /\ (forall pt, pixel_at (unset_map 5 1) pt = (-1)%Q)
  /\ (let SWT1 :=
        fst (strokeWidthTransform sqrt_floor stroke_walk stroke_params
               stroke_edges (unset_map 5 1) []) in
      let rays :=
        snd (strokeWidthTransform sqrt_floor stroke_walk stroke_params
               stroke_edges (unset_map 5 1) []) in
      let SWT2 := fst (SWTMedianFilter SWT1 rays) in
      forall pt,
        (on_paths rays pt ->
         0 <= pixel_at SWT2 pt /\ pixel_at SWT2 pt <= pixel_at SWT1 pt
         /\ pixel_at SWT1 pt <= Params.maxStrokeLength stroke_params)%Q
        /\ (off_paths rays pt ->
            pixel_at SWT1 pt = (-1)%Q /\ pixel_at SWT2 pt = (-1)%Q)
        /\ (pixel_at SWT2 pt = (-1)%Q
            \/ (0 <= pixel_at SWT2 pt
                /\ pixel_at SWT2 pt
                   <= Params.maxStrokeLength stroke_params)%Q)).
Proof.
  split; [exact sqrt_floor_nonneg|]. split; [exact (unset_map_unset 5 1)|].
  exact (swt_values_after_filter sqrt_floor stroke_walk stroke_params
           stroke_edges sqrt_floor_nonneg (unset_map 5 1)
           (unset_map_unset 5 1)).
Defined.

(** The two pixels of widths 1 and 10, side by side. *)
Definition wide_narrow : IplImage.t Q := image_of_rows [[1; 10]]%Q.

Lemma neighbours_share_component_witness :
  0 <= 0 < IplImage.height wide_narrow
  /\ 0 <= 0 < IplImage.width wide_narrow
  /\ 0 <= 1 < IplImage.width wide_narrow
  /\ (0 < CV_IMAGE_ELEM wide_narrow 0 0)%Q
  /\ (0 < CV_IMAGE_ELEM wide_narrow 0 1)%Q
  /\ Z.abs (0 - 0) <= 1 /\ Z.abs (0 - 1) <= 1
  /\ exists components k comp,
       findLegallyConnectedComponents wide_narrow = Some components
       /\ components !! k = Some comp
       /\ Point2d.mk 0 0 0 ∈ comp
       /\ Point2d.mk 1 0 0 ∈ comp.
Proof.
  assert (Hh : 0 <= 0 < IplImage.height wide_narrow)
    by (change (0 <= 0 < 1); lia).
  assert (Hw0 : 0 <= 0 < IplImage.width wide_narrow)
    by (change (0 <= 0 < 2); lia).
  assert (Hw1 : 0 <= 1 < IplImage.width wide_narrow)
    by (change (0 <= 1 < 2); lia).
  assert (Hp0 : (0 < CV_IMAGE_ELEM wide_narrow 0 0)%Q) by reflexivity.
  assert (Hp1 : (0 < CV_IMAGE_ELEM wide_narrow 0 1)%Q) by reflexivity.
  assert (Hr : Z.abs (0 - 0) <= 1) by lia.
  assert (Hc : Z.abs (0 - 1) <= 1) by lia.
  repeat (split; [assumption|]).
  exact (neighbours_share_component wide_narrow 0 0 0 1
           Hh Hw0 Hh Hw1 Hp0 Hp1 Hr Hc).
Defined.

Lemma makeChains_needs_two_pairs_witness :
  ((2 <= 2)%nat
   \/ (length (seeds sqrt_floor row_centers row_medians row_dimensions 2)
       <= 1)%nat)
  /\ makeChains sqrt_floor acos_ends row_centers row_medians row_dimensions 2
     = Some [].
Proof.
  assert (H : (2 <= 2)%nat
              \/ (length (seeds sqrt_floor row_centers row_medians
                            row_dimensions 2) <= 1)%nat) by (left; lia).
  split; [exact H|].
  exact (makeChains_needs_two_pairs sqrt_floor acos_ends row_centers
           row_medians row_dimensions 2 H).
Defined.

(** Two rows of a ground-truth file: three numbers expected and two
    read, one of them right; one number expected and read. *)
Definition two_rows : list (list Z * list Z) :=
  [([1; 2; 3], [2; 5]); ([7], [7])].

Lemma two_rows_NoDup : Forall (fun row => NoDup (snd row)) two_rows.
Proof.
  unfold two_rows. repeat constructor; cbn [snd];
    rewrite ?elem_of_cons; intros H;
    repeat match type of H with
           | _ \/ _ => destruct H as [H|H]
           end;
    try discriminate H; inversion H.
Qed.

Lemma score_spec_witness :
  Forall (fun row => NoDup (snd row)) two_rows
  /\ (let st := Batch.score two_rows in
      Batch.true_positives st + Batch.false_positives st
      = Z.of_nat (length (flat_map snd two_rows))
      /\ Batch.relevant st = Z.of_nat (length (flat_map fst two_rows))
      /\ 0 <= Batch.true_positives st <= Batch.relevant st
      /\ 0 <= Batch.false_positives st
      /\ (0 < Batch.true_positives st + Batch.false_positives st ->
          (0 <= Batch.precision st <= 1)%Q)
      /\ (0 < Batch.relevant st -> (0 <= Batch.recall st <= 1)%Q)).
Proof.
  split; [exact two_rows_NoDup|].
  exact (Batch.score_spec two_rows two_rows_NoDup).
Defined.
